(** * postcss-auto-var-fallback: the variable-resolution engine

    A shallow embedding of the plugin's [index.js] (extractor, merger,
    circular-reference detector, resolver and declaration rewriter) and
    the properties stated about it.

    JavaScript strings are sequences of UTF-16 code units; a code unit is
    a number ([N]).  The module-level caches, the merged [Map], the
    [Set] of circular names and the warnings of the PostCSS [Result] are
    the fields of one store that every operation threads. *)

From Stdlib Require Import String Ascii List NArith Arith Bool Lia Relations.
Import ListNotations.

Set Implicit Arguments.

(** ** JavaScript strings *)

Definition code_unit := N.
Definition str := list code_unit.

(** A string literal of the source, as its code units. *)
Definition lit (s : string) : str := map N_of_ascii (list_ascii_of_string s).

Definition RPAREN : code_unit := 41%N.
Definition COMMA : code_unit := 44%N.
Definition DOLLAR : code_unit := 36%N.
Definition AMPERSAND : code_unit := 38%N.
Definition QUOTE : code_unit := 39%N.
Definition BACKTICK : code_unit := 96%N.

Fixpoint str_eqb (a b : str) : bool :=
  match a, b with
  | [], [] => true
  | x :: a', y :: b' => N.eqb x y && str_eqb a' b'
  | _, _ => false
  end.

(** [if (s)] on a string: the empty string is the only falsy one. *)
Definition truthy (s : str) : bool :=
  match s with
  | [] => false
  | _ :: _ => true
  end.

(** [s.startsWith(p)], returning what follows the prefix. *)
Fixpoint strip_prefix (p s : str) : option str :=
  match p, s with
  | [], _ => Some s
  | x :: p', y :: s' => if N.eqb x y then strip_prefix p' s' else None
  | _ :: _, [] => None
  end.

Definition startsWith (s p : str) : bool :=
  match strip_prefix p s with
  | Some _ => true
  | None => false
  end.

(** [s.slice(from, to)] and [s.slice(from)] for indices within the string. *)
Definition slice (s : str) (from to : nat) : str :=
  firstn (to - from) (skipn from s).

Definition slice_from (s : str) (from : nat) : str := skipn from s.

(** White space and line terminators, the code units [trim] removes. *)
Definition is_white_space (c : code_unit) : bool :=
  (N.eqb c 9 || N.eqb c 10 || N.eqb c 11 || N.eqb c 12 || N.eqb c 13
   || N.eqb c 32 || N.eqb c 160 || N.eqb c 5760
   || (N.leb 8192 c && N.leb c 8202)
   || N.eqb c 8232 || N.eqb c 8233 || N.eqb c 8239 || N.eqb c 8287
   || N.eqb c 12288 || N.eqb c 65279)%N.

Fixpoint trim_start (s : str) : str :=
  match s with
  | [] => []
  | c :: s' => if is_white_space c then trim_start s' else s
  end.

Definition trim_end (s : str) : str := rev (trim_start (rev s)).

Definition trim (s : str) : str := trim_end (trim_start s).

(** [s.indexOf(p)]: the first position where [p] occurs. *)
Fixpoint indexOf (s p : str) : option nat :=
  match strip_prefix p s with
  | Some _ => Some 0
  | None =>
      match s with
      | [] => None
      | _ :: s' => option_map S (indexOf s' p)
      end
  end.

(** The replacement text of [String.prototype.replace] for a string
    pattern (GetSubstitution with no captures): [$$] is a dollar sign,
    [$&] the matched text, [$`] what precedes it, [$'] what follows it;
    a dollar sign before anything else stands for itself. *)
Fixpoint getSubstitution (matched before after template : str) : str :=
  match template with
  | [] => []
  | c :: t =>
      if N.eqb c DOLLAR then
        match t with
        | [] => [c]
        | d :: t' =>
            if N.eqb d DOLLAR then DOLLAR :: getSubstitution matched before after t'
            else if N.eqb d BACKTICK then before ++ getSubstitution matched before after t'
            else if N.eqb d AMPERSAND then matched ++ getSubstitution matched before after t'
            else if N.eqb d QUOTE then after ++ getSubstitution matched before after t'
            else c :: getSubstitution matched before after t
        end
      else c :: getSubstitution matched before after t
  end.

(** [s.replace(pattern, replacement)] with a string pattern: only the
    first occurrence is replaced; without one the string is returned. *)
Definition replace (s pattern replacement : str) : str :=
  match indexOf s pattern with
  | None => s
  | Some pos =>
      let before := firstn pos s in
      let after := skipn (pos + length pattern) s in
      before ++ getSubstitution pattern before after replacement ++ after
  end.

(** [parts.join(",")]. *)
Fixpoint join_comma (parts : list str) : str :=
  match parts with
  | [] => []
  | [p] => p
  | p :: rest => p ++ COMMA :: join_comma rest
  end.

(** ** [Map] and [Set] with string keys, in insertion order *)

Module JsMap.
Section WithValue.
Variable V : Type.

Definition t := list (str * V).

Definition empty : t := [].

Fixpoint get (m : t) (k : str) : option V :=
  match m with
  | [] => None
  | (k', v) :: m' => if str_eqb k' k then Some v else get m' k
  end.

Definition has (m : t) (k : str) : bool :=
  match get m k with
  | Some _ => true
  | None => false
  end.

(** An existing key keeps its place, a new one goes last. *)
Fixpoint set (m : t) (k : str) (v : V) : t :=
  match m with
  | [] => [(k, v)]
  | (k', v') :: m' =>
      if str_eqb k' k then (k', v) :: m' else (k', v') :: set m' k v
  end.

Definition entries (m : t) : list (str * V) := m.

Definition keys (m : t) : list str := map fst m.
End WithValue.
End JsMap.

Module JsSet.
Definition t := list str.

Definition empty : t := [].

Definition has (s : t) (k : str) : bool := existsb (str_eqb k) s.

Definition add (s : t) (k : str) : t := if has s k then s else s ++ [k].
End JsSet.

(** ** The pattern [/var\(([^,)]+)(?:,([^)]+))?\)/g] *)

(** One result of [varRegex.exec]: the matched text, the two capture
    groups (the second is [undefined] when the optional part did not
    take part) and [match.index]. *)
Record rmatch := mkMatch {
  fullMatch : str;
  group1 : str;
  group2 : option str;
  index : nat
}.

(** The longest prefix of code units in a class, and what follows it: a
    greedy [+] or [*] over a class of single code units. *)
Fixpoint span (p : code_unit -> bool) (s : str) : str * str :=
  match s with
  | [] => ([], [])
  | c :: s' =>
      if p c then let (run, rest) := span p s' in (c :: run, rest)
      else ([], s)
  end.

(** [[^,)]] and [[^)]]. *)
Definition in_name_class (c : code_unit) : bool :=
  negb (N.eqb c COMMA) && negb (N.eqb c RPAREN).

Definition in_fallback_class (c : code_unit) : bool := negb (N.eqb c RPAREN).

(** The match of the pattern anchored at the head of [s], if any:
    [var(], the longest run of [[^,)]] (not empty), then either [)] or a
    comma, the longest run of [[^)]] (not empty) and [)].  A shorter run
    is always followed by a code unit of its own class, which is neither
    the comma nor the parenthesis the pattern needs next, so backtracking
    finds nothing more. *)
Definition match_at (s : str) : option (str * str * option str) :=
  match strip_prefix (lit "var(") s with
  | None => None
  | Some s1 =>
      let (name, s2) := span in_name_class s1 in
      match name, s2 with
      | _ :: _, c :: s3 =>
          if N.eqb c RPAREN then Some (lit "var(" ++ name ++ [RPAREN], name, None)
          else
            let (fb, s4) := span in_fallback_class s3 in
            match fb, s4 with
            | _ :: _, _ :: _ =>
                Some (lit "var(" ++ name ++ COMMA :: fb ++ [RPAREN], name, Some fb)
            | _, _ => None
            end
      | _, _ => None
      end
  end.

(** The leftmost match at or after the head of [s], which is at position
    [idx] of the whole string. *)
Fixpoint search (idx : nat) (s : str) : option rmatch :=
  match s with
  | [] => None
  | _ :: s' =>
      match match_at s with
      | Some (full, g1, g2) => Some (mkMatch full g1 g2 idx)
      | None => search (S idx) s'
      end
  end.

(** [varRegex.exec(value)] with the pattern's [lastIndex]. *)
Definition exec (value : str) (lastIndex : nat) : option rmatch :=
  if length value <? lastIndex then None
  else search lastIndex (skipn lastIndex value).

(** Every match that the loop [while ((match = varRegex.exec(value)) !== null)]
    sees, in order: after a match the search resumes at its end
    ([lastIndex]), so the code units of a match are skipped. *)
Fixpoint scan (skip idx : nat) (s : str) : list rmatch :=
  match s with
  | [] => []
  | _ :: s' =>
      match skip with
      | S k => scan k (S idx) s'
      | O =>
          match match_at s with
          | Some (full, g1, g2) =>
              mkMatch full g1 g2 idx :: scan (length full - 1) (S idx) s'
          | None => scan 0 (S idx) s'
          end
      end
  end.

Definition exec_all (value : str) : list rmatch := scan 0 0 value.

(** ** Style sheets and the environment *)

(** A declaration of a parsed sheet; a [Root] is taken as the sequence
    of its declarations in the order [walkDecls] visits them. *)
Record decl := mkDecl {
  prop : str;
  value : str
}.

Definition root := list decl.

(** [fs.readFile] followed by [postcss.parse]: a root, or the message of
    the error thrown. *)
Inductive load_result :=
| Parsed (r : root)
| Threw (message : str).

(** What a run depends on outside the plugin: the file of the document
    being processed, Node's [path] functions and the file system. *)
Record env := mkEnv {
  input_file : option str;
  path_dirname : str -> str;
  path_resolve : str -> str -> str;
  read_parse : str -> load_result
}.

(** The value given as [opts.fallbacks]. *)
Inductive js_value :=
| JsUndefined
| JsNull
| JsString (s : str)
| JsOther
| JsArray (items : list str).

(** ** The store *)

Record state := mkState {
  fileCache : JsMap.t root;
  variableCache : JsMap.t str;
  variableMap : JsMap.t str;
  circularRefs : JsSet.t;
  warnings : list str
}.

Definition warn (message : str) (st : state) : state :=
  mkState (fileCache st) (variableCache st) (variableMap st)
          (circularRefs st) (warnings st ++ [message]).

Definition set_fileCache (c : JsMap.t root) (st : state) : state :=
  mkState c (variableCache st) (variableMap st) (circularRefs st) (warnings st).

Definition set_variableCache (c : JsMap.t str) (st : state) : state :=
  mkState (fileCache st) c (variableMap st) (circularRefs st) (warnings st).

Definition set_variableMap (m : JsMap.t str) (st : state) : state :=
  mkState (fileCache st) (variableCache st) m (circularRefs st) (warnings st).

Definition set_circularRefs (s : JsSet.t) (st : state) : state :=
  mkState (fileCache st) (variableCache st) (variableMap st) s (warnings st).

(** Computations on the store; [None] is a recursion deeper than the
    depth allowed to it. *)
Definition M (A : Type) : Type := state -> option (A * state).

Definition ret {A} (a : A) : M A := fun st => Some (a, st).

Definition bind {A B} (c : M A) (k : A -> M B) : M B :=
  fun st =>
    match c st with
    | None => None
    | Some (a, st') => k a st'
    end.

Notation "x <- c ;; k" := (bind c (fun x => k))
  (at level 61, c at next level, right associativity).

Definition circular_message (varName : str) : str :=
  lit "Circular reference detected for variable " ++ varName.

(** ** [resolveVariable] *)

(** [varName + Array.from(variableMap.entries()).join(",")]: an entry is
    a two-element array, which [join] turns into [key,value]. *)
Definition cache_key (varName : str) (variableMap : JsMap.t str) : str :=
  varName ++ join_comma (map (fun kv => fst kv ++ COMMA :: snd kv)
                             (JsMap.entries variableMap)).

(** The loop over the [var()] references of a value.  [resolve] is the
    recursive call, [resolving] the set this call hands (as a copy) to
    each of them. *)
Fixpoint resolve_loop (resolve : str -> JsSet.t -> M (option str))
    (resolving : JsSet.t) (matches : list rmatch) (resolvedValue : str)
    : M str :=
  match matches with
  | [] => ret resolvedValue
  | m :: rest =>
      nestedResolvedValue <- resolve (trim (group1 m)) resolving ;;
      match nestedResolvedValue with
      | Some nested =>
          resolve_loop resolve resolving rest
            (replace resolvedValue (fullMatch m) nested)
      | None =>
          match group2 m with
          | Some fallback =>
              if truthy fallback then
                resolve_loop resolve resolving rest
                  (replace resolvedValue (fullMatch m) (trim fallback))
              else resolve_loop resolve resolving rest resolvedValue
          | None => resolve_loop resolve resolving rest resolvedValue
          end
      end
  end.

(** [resolveVariable(varName, variableMap, resolving, result)].  The map
    is the one of the store; [result] tells whether a [Result] was
    passed, which receives the warning.  [depth] bounds the nesting of
    calls.  The final [resolving.delete(varName)] acts on a set that
    nothing reads afterwards. *)
Fixpoint resolveVariable (depth : nat) (result : bool) (varName : str)
    (resolving : JsSet.t) : M (option str) :=
  fun st =>
  match depth with
  | O => None
  | S depth' =>
      if JsSet.has resolving varName then
        Some (None, if result then warn (circular_message varName) st else st)
      else
        match JsMap.get (variableMap st) varName with
        | None => Some (None, st)
        | Some value =>
            let cacheKey := cache_key varName (variableMap st) in
            match JsMap.get (variableCache st) cacheKey with
            | Some cached => Some (Some cached, st)
            | None =>
                match resolve_loop (resolveVariable depth' result)
                        (JsSet.add resolving varName) (exec_all value) value st with
                | None => None
                | Some (resolvedValue, st') =>
                    Some (Some resolvedValue,
                          set_variableCache
                            (JsMap.set (variableCache st') cacheKey resolvedValue) st')
                end
            end
        end
  end.

(** ** [detectCircular] *)

(** The loop over the references of a value; it returns at the first
    reference whose walk reports a cycle, after adding [varName]. *)
Fixpoint detect_loop (detect : str -> JsSet.t -> M bool) (varName : str)
    (newPath : JsSet.t) (matches : list rmatch) : M bool :=
  match matches with
  | [] => ret false
  | m :: rest =>
      found <- detect (trim (group1 m)) newPath ;;
      if found then
        fun st => Some (true, set_circularRefs (JsSet.add (circularRefs st) varName) st)
      else detect_loop detect varName newPath rest
  end.

Fixpoint detectCircular (depth : nat) (varName : str) (path : JsSet.t) : M bool :=
  fun st =>
  match depth with
  | O => None
  | S depth' =>
      if JsSet.has path varName then
        Some (true,
              warn (circular_message varName)
                (set_circularRefs (JsSet.add (circularRefs st) varName) st))
      else
        match JsMap.get (variableMap st) varName with
        | None => Some (false, st)
        | Some value =>
            detect_loop (detectCircular depth') varName (JsSet.add path varName)
              (exec_all value) st
        end
  end.

(** The nesting of calls allowed to a walk from an empty path: one call
    for each key of the map and one more. *)
Definition depth_bound (st : state) : nat := S (length (variableMap st)).

(** [for (const [varName] of variableMap.entries()) detectCircular(varName)]. *)
Fixpoint detect_all (names : list str) : M unit :=
  match names with
  | [] => ret tt
  | varName :: rest =>
      _ <- (fun st => detectCircular (depth_bound st) varName JsSet.empty st) ;;
      detect_all rest
  end.

(** ** The rewriter of [root.walkDecls] *)

(** The variables of the loop over one declaration's value. *)
Record loop_vars := mkLoop {
  newValue : str;
  lastIndex : nat;
  modified : bool
}.

(** [`var(${trimmedVarName}, ${resolvedValue})`]. *)
Definition with_fallback (trimmedVarName resolvedValue : str) : str :=
  lit "var(" ++ trimmedVarName ++ lit ", " ++ resolvedValue ++ lit ")".

(** The body of the loop for one match. *)
Definition rewrite_step (value : str) (m : rmatch) (lv : loop_vars) : M loop_vars :=
  fun st =>
  let trimmedVarName := trim (group1 m) in
  let newValue1 := newValue lv ++ slice value (lastIndex lv) (index m) in
  let lastIndex1 := index m + length (fullMatch m) in
  if JsSet.has (circularRefs st) trimmedVarName then
    Some (mkLoop (newValue1 ++ fullMatch m) lastIndex1 (modified lv), st)
  else
    match resolveVariable (depth_bound st) true trimmedVarName JsSet.empty st with
    | None => None
    | Some (Some resolvedValue, st') =>
        if truthy resolvedValue then
          Some (mkLoop (newValue1 ++ with_fallback trimmedVarName resolvedValue)
                       lastIndex1 true, st')
        else Some (mkLoop (newValue1 ++ fullMatch m) lastIndex1 (modified lv), st')
    | Some (None, st') =>
        Some (mkLoop (newValue1 ++ fullMatch m) lastIndex1 (modified lv), st')
    end.

Fixpoint rewrite_loop (value : str) (matches : list rmatch) (lv : loop_vars)
    : M loop_vars :=
  match matches with
  | [] => ret lv
  | m :: rest => lv' <- rewrite_step value m lv ;; rewrite_loop value rest lv'
  end.

(** What is left after the last match is appended. *)
Definition finish (value : str) (lv : loop_vars) : str :=
  if lastIndex lv <? length value
  then newValue lv ++ slice_from value (lastIndex lv)
  else newValue lv.

(** The callback of [walkDecls] on one declaration: its value is
    assigned only when some occurrence was rewritten. *)
Definition rewrite_decl (d : decl) : M decl :=
  lv <- rewrite_loop (value d) (exec_all (value d)) (mkLoop [] 0 false) ;;
  ret (if modified lv then mkDecl (prop d) (finish (value d) lv) else d).

Fixpoint walkDecls (r : root) : M root :=
  match r with
  | [] => ret []
  | d :: rest => d' <- rewrite_decl d ;; rest' <- walkDecls rest ;; ret (d' :: rest')
  end.

(** ** Loading and merging the fallback files *)

(** [loadCssFile]: the parsed root of the cache, or the file read,
    parsed and cached.  The outer result is the error thrown, if any. *)
Definition loadCssFile (e : env) (filePath : str) (st : state)
    : (root + str) * state :=
  match JsMap.get (fileCache st) filePath with
  | Some r => (inl r, st)
  | None =>
      match read_parse e filePath with
      | Parsed r => (inl r, set_fileCache (JsMap.set (fileCache st) filePath r) st)
      | Threw message => (inr message, st)
      end
  end.

Definition extractVariables (r : root) : JsMap.t str :=
  fold_left
    (fun variables d =>
       if startsWith (prop d) (lit "--")
       then JsMap.set variables (prop d) (value d)
       else variables)
    r (JsMap.empty str).

(** [fileVariables.forEach((value, key) => variableMap.set(key, value))]. *)
Definition merge_into (variableMap fileVariables : JsMap.t str) : JsMap.t str :=
  fold_left (fun acc kv => JsMap.set acc (fst kv) (snd kv))
            (JsMap.entries fileVariables) variableMap.

Definition base_dir (e : env) : str :=
  match input_file e with
  | Some file => if truthy file then path_dirname e file else lit "."
  | None => lit "."
  end.

(** The body of the loop over [fallbacks]: a parsed root is an object,
    hence truthy, so the branch taken on a falsy root is never entered;
    an error thrown while loading is caught and reported. *)
Definition load_fallback (e : env) (fallbackPath : str) (st : state) : state :=
  let absolutePath := path_resolve e (base_dir e) fallbackPath in
  match loadCssFile e absolutePath st with
  | (inl fallbackRoot, st') =>
      set_variableMap (merge_into (variableMap st') (extractVariables fallbackRoot)) st'
  | (inr message, st') =>
      warn (lit "Error processing fallback file " ++ fallbackPath ++ lit ": " ++ message) st'
  end.

Definition load_fallbacks (e : env) (fallbacks : list str) (st : state) : state :=
  fold_left (fun acc fallbackPath => load_fallback e fallbackPath acc) fallbacks st.

(** ** The plugin *)

(** [const { fallbacks = [] } = opts]: the default stands in for
    [undefined] only (a missing option, or no options at all). *)
Definition fallbacks_of (option_value : js_value) : js_value :=
  match option_value with
  | JsUndefined => JsArray []
  | v => v
  end.

(** [Array.isArray(fallbacks)] with the items of the array. *)
Definition as_array (v : js_value) : option (list str) :=
  match v with
  | JsArray items => Some items
  | _ => None
  end.

(** [fileCache.clear()], [variableCache.clear()] and
    [const variableMap = new Map()]: the store in which the files are
    loaded. *)
Definition cleared (st : state) : state :=
  set_variableMap (JsMap.empty str)
    (set_variableCache (JsMap.empty str) (set_fileCache (JsMap.empty root) st)).

(** The part of [Once] after the check of the option: the caches are
    cleared, the map is built from the files, the circular names are
    found and the declarations are rewritten. *)
Definition process (e : env) (fallbacks : list str) (r : root) : M root :=
  fun st =>
  let st1 := load_fallbacks e fallbacks (cleared st) in
  let st2 := set_circularRefs JsSet.empty st1 in
  (_ <- detect_all (JsMap.keys (variableMap st2)) ;; walkDecls r) st2.

(** [Once(root, { result })]. *)
Definition Once (e : env) (option_value : js_value) (r : root) : M root :=
  match as_array (fallbacks_of option_value) with
  | Some fallbacks =>
      if length fallbacks =? 0
      then fun st => Some (r, warn (lit "Fallbacks must be an array of file paths") st)
      else process e fallbacks r
  | None =>
      fun st => Some (r, warn (lit "Fallbacks must be an array of file paths") st)
  end.

(** A run of the plugin on a document: the store holds the module's two
    caches as the previous runs left them, and a fresh [Result]. *)
Definition initial_state (files : JsMap.t root) (variables : JsMap.t str) : state :=
  mkState files variables (JsMap.empty str) JsSet.empty [].

Definition run (e : env) (option_value : js_value) (r : root)
    (files : JsMap.t root) (variables : JsMap.t str) : option (root * state) :=
  Once e option_value r (initial_state files variables).

(** ** What the pattern denotes *)

(** The texts the pattern matches, with the text of its groups: [var(],
    one or more code units other than comma and closing parenthesis,
    optionally a comma and one or more code units other than a closing
    parenthesis, and [)]. *)
Inductive var_call : str -> str -> option str -> Prop :=
| call_plain (name : str) :
    name <> [] -> forallb in_name_class name = true ->
    var_call (lit "var(" ++ name ++ [RPAREN]) name None
| call_fallback (name fb : str) :
    name <> [] -> forallb in_name_class name = true ->
    fb <> [] -> forallb in_fallback_class fb = true ->
    var_call (lit "var(" ++ name ++ COMMA :: fb ++ [RPAREN]) name (Some fb).

(** The matches the loop sees when [exec] starts at [lastIndex]. *)
Definition exec_from (value : str) (lastIndex : nat) : list rmatch :=
  scan 0 lastIndex (skipn lastIndex value).

(** Matches that lie in [value] where their index says, one after the
    other from position [from] on. *)
Fixpoint aligned (value : str) (from : nat) (matches : list rmatch) : Prop :=
  match matches with
  | [] => True
  | m :: rest =>
      from <= index m
      /\ slice value (index m) (index m + length (fullMatch m)) = fullMatch m
      /\ index m + length (fullMatch m) <= length value
      /\ aligned value (index m + length (fullMatch m)) rest
  end.

(** ** An occurrence in the course of the rewriting *)

(** The loop over [v], started in the store [st], reaches the match [m]
    with the variables [lv] in the store [st1]; the matches [after] are
    still to come. *)
Definition reaches (st : state) (v : str) (m : rmatch) (after : list rmatch)
    (lv : loop_vars) (st1 : state) : Prop :=
  exists before,
    exec_all v = before ++ m :: after
    /\ rewrite_loop v before (mkLoop [] 0 false) st = Some (lv, st1).

(** The text written up to the match [m]: what the loop had accumulated
    and the text between the previous match and this one. *)
Definition text_before (v : str) (lv : loop_vars) (m : rmatch) : str :=
  newValue lv ++ slice v (lastIndex lv) (index m).

(** The text written for what follows the match [m], from the store
    [st2] in which the loop leaves it. *)
Definition text_after (v : str) (m : rmatch) (after : list rmatch) (st2 : state)
    : option (str * state) :=
  match rewrite_loop v after
          (mkLoop [] (index m + length (fullMatch m)) false) st2 with
  | Some (lv, st3) => Some (finish v lv, st3)
  | None => None
  end.

(** ** Reference chains and the walks of the detector *)

(** The names a value refers to: the trimmed first group of each match. *)
Definition references (v : str) : list str :=
  map (fun m => trim (group1 m)) (exec_all v).

(** [x] has an entry whose value refers to [y]. *)
Definition refers_to (vm : JsMap.t str) (x y : str) : Prop :=
  exists v, JsMap.get vm x = Some v /\ In y (references v).

(** [x] is on a cycle: following references from [x] leads back to [x]. *)
Definition on_cycle (vm : JsMap.t str) (x : str) : Prop :=
  clos_trans str (refers_to vm) x x.

(** Following references from [x] leads to a name that is on a cycle
    ([x] itself, when it is on one). *)
Definition leads_to_cycle (vm : JsMap.t str) (x : str) : Prop :=
  exists y, clos_refl_trans str (refers_to vm) x y /\ on_cycle vm y.

(** The names met when following references from [x] to [z], one after
    the other, [z] last. *)
Inductive ref_walk (vm : JsMap.t str) : str -> list str -> str -> Prop :=
| ref_walk_end (x : str) : ref_walk vm x [] x
| ref_walk_step (x y : str) (w : list str) (z : str) :
    refers_to vm x y -> ref_walk vm y w z -> ref_walk vm x (y :: w) z.

(** A descent of the walk that starts at [varName] with the names of
    [path] behind it: [chain] lists the names visited, [varName] first,
    each referring to the next, down to the name [hit] that is already
    on the path of the walk. *)
Inductive descent (vm : JsMap.t str) : str -> JsSet.t -> list str -> str -> Prop :=
| descent_revisit (varName : str) (path : JsSet.t) :
    JsSet.has path varName = true ->
    descent vm varName path [varName] varName
| descent_follow (varName : str) (path : JsSet.t) (v ref : str)
    (chain : list str) (hit : str) :
    JsSet.has path varName = false ->
    JsMap.get vm varName = Some v ->
    In ref (references v) ->
    descent vm ref (JsSet.add path varName) chain hit ->
    descent vm varName path (varName :: chain) hit.

(** The names of a chain added to a set, the last one first. *)
Definition add_chain (chain : list str) (s : JsSet.t) : JsSet.t :=
  fold_right (fun n acc => JsSet.add acc n) s chain.

(** The outcome of a walk: it reports a cycle exactly when a descent to
    a name of its path exists; it then adds the names of the descent it
    found, all of them, and warns about the name it met again.  A walk
    that reports nothing leaves the store as it was. *)
Definition walk_outcome (vm : JsMap.t str) (varName : str) (path : JsSet.t)
    (st : state) (r : bool) (st' : state) : Prop :=
  if r then
    exists chain hit,
      descent vm varName path chain hit
      /\ circularRefs st' = add_chain chain (circularRefs st)
      /\ warnings st' = warnings st ++ [circular_message hit]
  else st' = st /\ forall chain hit, ~ descent vm varName path chain hit.

(** ** What an operation leaves of the store *)

(** The parts of the store that resolution never writes. *)
Definition resolve_frame (st st' : state) : Prop :=
  variableMap st' = variableMap st /\
  circularRefs st' = circularRefs st /\
  fileCache st' = fileCache st.

(** The parts of the store that detection never writes. *)
Definition detect_frame (st st' : state) : Prop :=
  variableMap st' = variableMap st /\
  variableCache st' = variableCache st /\
  fileCache st' = fileCache st.

(** ** The option *)

(** An option value that is no array: absent, [null], or anything else. *)
Definition not_a_sequence (v : js_value) : bool :=
  match v with
  | JsArray _ => false
  | _ => true
  end.

(** ** Sheets, stores and environments of the examples *)

Definition decl_of (p v : string) : decl := mkDecl (lit p) (lit v).

(** An environment with no input file whose file system holds the given
    parsed sheets under their paths; any other path fails to load. *)
Definition env_of (files : list (string * root)) : env :=
  mkEnv None (fun p => p) (fun _ p => p)
    (fun p =>
       match find (fun f => str_eqb (lit (fst f)) p) files with
       | Some f => Parsed (snd f)
       | None => Threw (lit "ENOENT: no such file or directory")
       end).

(** A store whose map holds the given variables and nothing else. *)
Definition state_of (vars : list (string * string)) : state :=
  mkState [] [] (map (fun kv => (lit (fst kv), lit (snd kv))) vars) [] [].

(** [:root{--size:16px;--pad:var(--size);}] as parsed. *)
Definition size_pad_sheet : root :=
  [decl_of "--size" "16px"; decl_of "--pad" "var(--size)"].

(** [--a: var(--b); --b: var(--a);]. *)
Definition cycle_state : state :=
  state_of [("--a", "var(--b)"); ("--b", "var(--a)")]%string.

(** [--c: var(--a); --a: var(--b); --b: var(--a);]: [--c] leads into the
    cycle of [--a] and [--b]. *)
Definition tail_state : state :=
  state_of [("--c", "var(--a)"); ("--a", "var(--b)"); ("--b", "var(--a)")]%string.

(** [--e:;], a custom property whose value is the empty string. *)
Definition empty_value_state : state := state_of [("--e", "")]%string.

(** A file system with the one sheet [:root{--c:rgba(0,0,0,.5);}]. *)
Definition rgba_env : env :=
  env_of [("vars.css"%string, [decl_of "--c" "rgba(0,0,0,.5)"])].

(** ** Notions for the properties of the extractor, the merger and the loader *)

(** The declaration is one of a custom property. *)
Definition is_custom (d : decl) : bool := startsWith (prop d) (lit "--").

(** The value of the last declaration of the custom property [k] in a
    sheet, in document order. *)
Fixpoint last_declared (r : root) (k : str) : option str :=
  match r with
  | [] => None
  | d :: rest =>
      match last_declared rest k with
      | Some v => Some v
      | None => if is_custom d && str_eqb (prop d) k then Some (value d) else None
      end
  end.

(** The path a configured source is loaded from. *)
Definition absolute_path (e : env) (fallbackPath : str) : str :=
  path_resolve e (base_dir e) fallbackPath.

(** What a configured source says about [k]: nothing when it fails to
    load. *)
Definition source_value (e : env) (fallbackPath k : str) : option str :=
  match read_parse e (absolute_path e fallbackPath) with
  | Parsed r => last_declared r k
  | Threw _ => None
  end.

(** The value of [k] in the last configured source that declares it. *)
Fixpoint configured_value (e : env) (fallbacks : list str) (k : str) : option str :=
  match fallbacks with
  | [] => None
  | p :: rest =>
      match configured_value e rest k with
      | Some v => Some v
      | None => source_value e p k
      end
  end.

(** The warnings of the sources that fail to load, in configured order. *)
Fixpoint load_warnings (e : env) (fallbacks : list str) : list str :=
  match fallbacks with
  | [] => []
  | p :: rest =>
      match read_parse e (absolute_path e p) with
      | Parsed _ => load_warnings e rest
      | Threw message =>
          (lit "Error processing fallback file " ++ p ++ lit ": " ++ message)
          :: load_warnings e rest
      end
  end.

(** Every root of the file cache is what reading and parsing its path
    gives. *)
Definition cache_agrees (e : env) (st : state) : Prop :=
  forall p r, JsMap.get (fileCache st) p = Some r -> read_parse e p = Parsed r.

(** ** Notions for the properties of the resolver *)

(** A name as a reference carries it: not empty, without comma or
    closing parenthesis, and without white space around it. *)
Definition plain_name (n : str) : Prop :=
  n <> [] /\ forallb in_name_class n = true /\ trim n = n.

(** The value that is one reference to [n] and nothing else. *)
Definition link (n : str) : str := lit "var(" ++ n ++ [RPAREN].

(** No dollar sign, the one code unit [replace] treats specially in a
    replacement text. *)
Definition dollar_free (s : str) : bool :=
  forallb (fun c => negb (N.eqb c DOLLAR)) s.

(** In the mapping each name of the list is declared as a reference to
    the next one, and the last one as [terminal]. *)
Fixpoint reference_chain (vm : JsMap.t str) (names : list str) (terminal : str)
    : Prop :=
  match names with
  | [] => False
  | n :: rest =>
      match rest with
      | [] => JsMap.get vm n = Some terminal
      | n' :: _ => JsMap.get vm n = Some (link n') /\ reference_chain vm rest terminal
      end
  end.

(** [--a: var(--b); --b: var(--c); --c: 10px;]. *)
Definition chain_state : state :=
  state_of [("--a", "var(--b)"); ("--b", "var(--c)"); ("--c", "10px")]%string.

(** The value [v] with its match [m] replaced, where it lies, by the
    text [t] read as a replacement text. *)
Definition splice (v : str) (m : rmatch) (t : str) : str :=
  let before := firstn (index m) v in
  let after := skipn (index m + length (fullMatch m)) v in
  before ++ getSubstitution (fullMatch m) before after t ++ after.

(** [--border: 1px solid var(--tone, red );], [--tone] not declared. *)
Definition border_state : state :=
  state_of [("--border", "1px solid var(--tone, red )")]%string.

(** The set of circular names holds every variable of the mapping that
    is on a cycle or leads to one. *)
Definition circular_names_complete (st : state) : Prop :=
  forall n, In n (JsMap.keys (variableMap st)) ->
            leads_to_cycle (variableMap st) n -> In n (circularRefs st).

(** The names the walks from [names] report, one after the other: a
    walk from a name that is on a cycle or leads to one reports one
    name, which that name leads to and which is on a cycle; a walk from
    any other name reports nothing. *)
Inductive walk_reports (vm : JsMap.t str) : list str -> list str -> Prop :=
| reports_nil : walk_reports vm [] []
| reports_hit (n : str) (names : list str) (hit : str) (hits : list str) :
    clos_refl_trans str (refers_to vm) n hit -> on_cycle vm hit ->
    walk_reports vm names hits ->
    walk_reports vm (n :: names) (hit :: hits)
| reports_none (n : str) (names : list str) (hits : list str) :
    ~ leads_to_cycle vm n ->
    walk_reports vm names hits ->
    walk_reports vm (n :: names) hits.

(** [--a: var(--b) var(--c); --b: var(--d); --c: var(--d); --d: 1px;]:
    two references lead to the same variable. *)
Definition diamond_state : state :=
  state_of [("--a", "var(--b) var(--c)"); ("--b", "var(--d)");
            ("--c", "var(--d)"); ("--d", "1px")]%string.

(** ** Resolution without cache and without path *)

(** The loop of the resolver over the references of a value, with a
    resolution of names that has no store. *)
Fixpoint expand_loop (expand : str -> option (option str))
    (matches : list rmatch) (resolvedValue : str) : option str :=
  match matches with
  | [] => Some resolvedValue
  | m :: rest =>
      match expand (trim (group1 m)) with
      | None => None
      | Some (Some nested) =>
          expand_loop expand rest (replace resolvedValue (fullMatch m) nested)
      | Some None =>
          match group2 m with
          | Some fallback =>
              if truthy fallback then
                expand_loop expand rest
                  (replace resolvedValue (fullMatch m) (trim fallback))
              else expand_loop expand rest resolvedValue
          | None => expand_loop expand rest resolvedValue
          end
      end
  end.

(** What [resolveVariable] computes for a name when it looks nothing up
    in the cache and never meets a name of its path: [null] for a name
    without an entry, else the value with its references expanded in
    turn.  [None] is an expansion deeper than [depth]. *)
Fixpoint expand (depth : nat) (vm : JsMap.t str) (n : str) : option (option str) :=
  match depth with
  | O => None
  | S depth' =>
      match JsMap.get vm n with
      | None => Some None
      | Some v => option_map Some (expand_loop (expand depth' vm) (exec_all v) v)
      end
  end.

(** Every value the cache holds for a name of the mapping is the
    expansion of that name. *)
Definition cache_coherent (st : state) : Prop :=
  forall n c,
    JsMap.get (variableCache st) (cache_key n (variableMap st)) = Some c ->
    exists depth, expand depth (variableMap st) n = Some (Some c).

(** ** The rewriter as a function of the value *)

(** The text the rewriter puts in the place of an occurrence, when
    [rewritten] tells for a name the fallback to write, if any. *)
Definition occurrence_text (rewritten : str -> option str) (m : rmatch) : str :=
  match rewritten (trim (group1 m)) with
  | Some resolved => with_fallback (trim (group1 m)) resolved
  | None => fullMatch m
  end.

(** The value written for a value: the text outside the matches is
    copied, each match gives way to its text.  [skip] counts the code
    units of a match still to pass over. *)
Fixpoint render (rewritten : str -> option str) (skip : nat) (s : str) : str :=
  match s with
  | [] => []
  | c :: s' =>
      match skip with
      | S k => render rewritten k s'
      | O =>
          match match_at s with
          | Some (full, g1, g2) =>
              occurrence_text rewritten (mkMatch full g1 g2 0)
              ++ render rewritten (length full - 1) s'
          | None => c :: render rewritten 0 s'
          end
      end
  end.

(** The fallback the rewriter writes for a name in a store: none for a
    name of the set of circular names, for a name without an entry and
    for a name whose expansion is empty. *)
Definition fallback_for (st : state) (n : str) : option str :=
  if JsSet.has (circularRefs st) n then None
  else
    match expand (depth_bound st) (variableMap st) n with
    | Some (Some resolved) => if truthy resolved then Some resolved else None
    | _ => None
    end.

(** A text of which a value written keeps the shape: code units copied,
    and calls in the place of calls. *)
Inductive calls_replaced : str -> str -> Prop :=
| replaced_nil : calls_replaced [] []
| replaced_copy (c : code_unit) (s s' : str) :
    calls_replaced s s' -> calls_replaced (c :: s) (c :: s')
| replaced_call (f o : str) (f1 o1 : str) (f2 o2 : option str) (s s' : str) :
    var_call f f1 f2 -> var_call o o1 o2 ->
    calls_replaced s s' -> calls_replaced (f ++ s) (o ++ s').

(** A declaration with its value written anew. *)
Definition rendered (rewritten : str -> option str) (d : decl) : decl :=
  mkDecl (prop d) (render rewritten 0 (value d)).

(** The mapping a run builds from the configured sources. *)
Definition merged_mapping (e : env) (fallbacks : list str) : JsMap.t str :=
  variableMap (load_fallbacks e fallbacks (cleared (initial_state [] []))).

(** No fallback written is for the empty name, and none holds a closing
    parenthesis. *)
Definition closes_no_call (rewritten : str -> option str) : Prop :=
  forall n resolved,
    rewritten n = Some resolved ->
    n <> [] /\ forallb in_fallback_class resolved = true.

(** What stands before a call inside a longer call: [var(] and a text
    without closing parenthesis that does not start with a comma. *)
Definition opens_call (g : str) : Prop :=
  exists g', g = lit "var(" ++ g'
             /\ forallb in_fallback_class g' = true
             /\ match g' with c :: _ => c <> COMMA | [] => True end.

(** * Properties *)

(** ** Strings, sets and maps *)

Lemma str_eqb_eq (a b : str) : str_eqb a b = true <-> a = b.
Proof.
  revert b; induction a as [|x a IH]; intros [|y b]; simpl; split;
    try congruence; try easy.
  - intros H. apply andb_true_iff in H as [Hx Hab].
    apply N.eqb_eq in Hx. apply IH in Hab. congruence.
  - intros H. injection H as -> ->.
    rewrite N.eqb_refl. simpl. now apply IH.
Qed.

Lemma str_eqb_refl (a : str) : str_eqb a a = true.
Proof. now apply str_eqb_eq. Qed.

Lemma str_eqb_neq (a b : str) : str_eqb a b = false <-> a <> b.
Proof.
  split.
  - intros H E. apply str_eqb_eq in E. congruence.
  - intros H. destruct (str_eqb a b) eqn:E; [|reflexivity].
    apply str_eqb_eq in E. contradiction.
Qed.

Lemma set_has_In (s : JsSet.t) (k : str) : JsSet.has s k = true <-> In k s.
Proof.
  unfold JsSet.has. rewrite existsb_exists. split.
  - intros [x [Hx E]]. apply str_eqb_eq in E. now subst.
  - intros H. exists k. split; [assumption | apply str_eqb_refl].
Qed.

Lemma set_has_not_In (s : JsSet.t) (k : str) : JsSet.has s k = false <-> ~ In k s.
Proof.
  rewrite <- set_has_In. destruct (JsSet.has s k); split; congruence.
Qed.

Lemma set_add_In (s : JsSet.t) (k x : str) :
  In x (JsSet.add s k) <-> In x s \/ x = k.
Proof.
  unfold JsSet.add. destruct (JsSet.has s k) eqn:E.
  - apply set_has_In in E. split; [now left | intros [H | ->]; assumption].
  - rewrite in_app_iff. simpl. split; intros [H | H]; auto.
    + destruct H as [H | []]. now right.
Qed.

Lemma set_add_fresh (s : JsSet.t) (k : str) :
  JsSet.has s k = false -> JsSet.add s k = s ++ [k].
Proof. unfold JsSet.add. now intros ->. Qed.

Lemma map_get_In_keys (V : Type) (m : JsMap.t V) (k : str) (v : V) :
  JsMap.get m k = Some v -> In k (JsMap.keys m).
Proof.
  induction m as [|[k' v'] m IH]; simpl; [discriminate|].
  destruct (str_eqb k' k) eqn:E.
  - apply str_eqb_eq in E. now left.
  - intros H. right. now apply IH.
Qed.

Lemma map_keys_length (V : Type) (m : JsMap.t V) :
  length (JsMap.keys m) = length m.
Proof. apply length_map. Qed.

(** ** What the resolver and the detector leave untouched *)

Lemma resolve_frame_refl st : resolve_frame st st.
Proof. now repeat split. Qed.

Lemma resolve_frame_trans st1 st2 st3 :
  resolve_frame st1 st2 -> resolve_frame st2 st3 -> resolve_frame st1 st3.
Proof. unfold resolve_frame. intuition congruence. Qed.

Lemma detect_frame_refl st : detect_frame st st.
Proof. now repeat split. Qed.

Lemma detect_frame_trans st1 st2 st3 :
  detect_frame st1 st2 -> detect_frame st2 st3 -> detect_frame st1 st3.
Proof. unfold detect_frame. intuition congruence. Qed.

Lemma resolve_loop_frame (resolve : str -> JsSet.t -> M (option str)) :
  (forall n rs st r st', resolve n rs st = Some (r, st') -> resolve_frame st st') ->
  forall resolving matches rv st rv' st',
    resolve_loop resolve resolving matches rv st = Some (rv', st') ->
    resolve_frame st st'.
Proof.
  intros Hres resolving matches.
  induction matches as [|m rest IH]; intros rv st rv' st'; simpl.
  - unfold ret. intros H. injection H as _ <-. apply resolve_frame_refl.
  - unfold bind. destruct (resolve _ _ st) as [[nested st1]|] eqn:E; [|discriminate].
    apply Hres in E. intros H.
    apply resolve_frame_trans with st1; [assumption|].
    destruct nested as [nested|]; [now apply IH in H|].
    destruct (group2 m) as [fb|]; [|now apply IH in H].
    destruct (truthy fb); now apply IH in H.
Qed.

Lemma resolveVariable_frame depth :
  forall result varName resolving st r st',
    resolveVariable depth result varName resolving st = Some (r, st') ->
    resolve_frame st st'.
Proof.
  induction depth as [|depth IH]; intros result varName resolving st r st'; simpl;
    [discriminate|].
  destruct (JsSet.has resolving varName).
  - intros H. injection H as _ <-. destruct result; now repeat split.
  - destruct (JsMap.get (variableMap st) varName) as [value|].
    2:{ intros H. injection H as _ <-. apply resolve_frame_refl. }
    destruct (JsMap.get (variableCache st) _) as [cached|].
    { intros H. injection H as _ <-. apply resolve_frame_refl. }
    destruct (resolve_loop _ _ _ _ st) as [[rv st1]|] eqn:E; [|discriminate].
    intros H. injection H as _ <-.
    apply resolve_loop_frame in E; [|intros; eapply IH; eassumption].
    destruct E as (E1 & E2 & E3). now repeat split.
Qed.

Lemma detect_loop_frame (detect : str -> JsSet.t -> M bool) :
  (forall n p st r st', detect n p st = Some (r, st') -> detect_frame st st') ->
  forall varName newPath matches st r st',
    detect_loop detect varName newPath matches st = Some (r, st') ->
    detect_frame st st'.
Proof.
  intros Hdet varName newPath matches.
  induction matches as [|m rest IH]; intros st r st'; simpl.
  - unfold ret. intros H. injection H as _ <-. apply detect_frame_refl.
  - unfold bind. destruct (detect _ _ st) as [[found st1]|] eqn:E; [|discriminate].
    apply Hdet in E. destruct found.
    + intros H. injection H as _ <-.
      destruct E as (E1 & E2 & E3). now repeat split.
    + intros H. apply IH in H. eapply detect_frame_trans; eassumption.
Qed.

Lemma detectCircular_frame depth :
  forall varName path st r st',
    detectCircular depth varName path st = Some (r, st') -> detect_frame st st'.
Proof.
  induction depth as [|depth IH]; intros varName path st r st'; simpl;
    [discriminate|].
  destruct (JsSet.has path varName).
  - intros H. injection H as _ <-. now repeat split.
  - destruct (JsMap.get (variableMap st) varName) as [value|].
    + apply detect_loop_frame. intros; eapply IH; eassumption.
    + intros H. injection H as _ <-. apply detect_frame_refl.
Qed.

(** ** Termination: the depth allowed is never exceeded *)

Lemma resolve_loop_total (resolve : str -> JsSet.t -> M (option str))
    (vm : JsMap.t str) (resolving : JsSet.t) :
  (forall n st, variableMap st = vm ->
     exists r st', resolve n resolving st = Some (r, st') /\ variableMap st' = vm) ->
  forall matches rv st, variableMap st = vm ->
    exists rv' st', resolve_loop resolve resolving matches rv st = Some (rv', st')
                    /\ variableMap st' = vm.
Proof.
  intros Hres matches.
  induction matches as [|m rest IH]; intros rv st Hst; simpl.
  - exists rv, st. now split.
  - unfold bind.
    destruct (Hres (trim (group1 m)) st Hst) as (r & st1 & -> & Hst1).
    destruct r as [nested|]; [now apply IH|].
    destruct (group2 m) as [fb|]; [|now apply IH].
    destruct (truthy fb); now apply IH.
Qed.

Lemma path_fits (path keys : list str) :
  NoDup path -> incl path keys -> length path <= length keys.
Proof. intros Hnd Hincl. now apply NoDup_incl_length. Qed.

Lemma path_extend (path keys : list str) (k : str) :
  NoDup path -> incl path keys -> JsSet.has path k = false -> In k keys ->
  NoDup (JsSet.add path k) /\ incl (JsSet.add path k) keys /\
  length (JsSet.add path k) = S (length path).
Proof.
  intros Hnd Hincl Hk Hin. rewrite (set_add_fresh _ _ Hk).
  apply set_has_not_In in Hk. repeat split.
  - apply NoDup_app; [assumption | repeat constructor; easy |].
    intros x Hx [<- | []]. contradiction.
  - intros x Hx. apply in_app_iff in Hx as [Hx | [<- | []]]; auto.
  - rewrite length_app. simpl. lia.
Qed.

Lemma resolveVariable_total depth :
  forall result varName resolving st,
    NoDup resolving ->
    incl resolving (JsMap.keys (variableMap st)) ->
    length (variableMap st) < depth + length resolving ->
    exists r st', resolveVariable depth result varName resolving st = Some (r, st')
                  /\ variableMap st' = variableMap st.
Proof.
  induction depth as [|depth IH]; intros result varName resolving st Hnd Hincl Hlen.
  - pose proof (path_fits Hnd Hincl) as Hfit. rewrite map_keys_length in Hfit.
    simpl in Hlen. lia.
  - simpl. destruct (JsSet.has resolving varName) eqn:Hhas.
    { eexists _, _. split; [reflexivity|]. now destruct result. }
    destruct (JsMap.get (variableMap st) varName) as [value|] eqn:Hget.
    2:{ eexists _, _. now split. }
    destruct (JsMap.get (variableCache st) _) as [cached|].
    { eexists _, _. now split. }
    apply map_get_In_keys in Hget.
    destruct (path_extend varName Hnd Hincl Hhas Hget) as (Hnd' & Hincl' & Hlen').
    destruct (@resolve_loop_total (resolveVariable depth result) (variableMap st)
                (JsSet.add resolving varName)) with (matches := exec_all value)
                (rv := value) (st := st) as (rv' & st1 & -> & Hst1).
    + intros n st0 Hst0. rewrite <- Hst0 in *.
      destruct (IH result n (JsSet.add resolving varName) st0 Hnd' Hincl')
        as (r & st' & E & Hst'); [lia|].
      exists r, st'. now split.
    + reflexivity.
    + eexists _, _. split; [reflexivity|]. exact Hst1.
Qed.

Lemma detect_loop_total (detect : str -> JsSet.t -> M bool)
    (vm : JsMap.t str) (varName : str) (newPath : JsSet.t) :
  (forall n st, variableMap st = vm ->
     exists r st', detect n newPath st = Some (r, st') /\ variableMap st' = vm) ->
  forall matches st, variableMap st = vm ->
    exists r st', detect_loop detect varName newPath matches st = Some (r, st')
                  /\ variableMap st' = vm.
Proof.
  intros Hdet matches.
  induction matches as [|m rest IH]; intros st Hst; simpl.
  - exists false, st. now split.
  - unfold bind.
    destruct (Hdet (trim (group1 m)) st Hst) as (r & st1 & -> & Hst1).
    destruct r; [|now apply IH].
    eexists _, _. split; [reflexivity|]. exact Hst1.
Qed.

Lemma detectCircular_total depth :
  forall varName path st,
    NoDup path ->
    incl path (JsMap.keys (variableMap st)) ->
    length (variableMap st) < depth + length path ->
    exists r st', detectCircular depth varName path st = Some (r, st')
                  /\ variableMap st' = variableMap st.
Proof.
  induction depth as [|depth IH]; intros varName path st Hnd Hincl Hlen.
  - pose proof (path_fits Hnd Hincl) as Hfit. rewrite map_keys_length in Hfit.
    simpl in Hlen. lia.
  - simpl. destruct (JsSet.has path varName) eqn:Hhas.
    { eexists _, _. now split. }
    destruct (JsMap.get (variableMap st) varName) as [value|] eqn:Hget.
    2:{ eexists _, _. now split. }
    apply map_get_In_keys in Hget.
    destruct (path_extend varName Hnd Hincl Hhas Hget) as (Hnd' & Hincl' & Hlen').
    apply detect_loop_total with (vm := variableMap st); [|reflexivity].
    intros n st0 Hst0. rewrite <- Hst0 in *.
    destruct (IH n (JsSet.add path varName) st0 Hnd' Hincl') as (r & st' & E & Hst');
      [lia|].
    exists r, st'. now split.
Qed.

(** A result obtained within some depth is the result at every larger
    depth: the bound only cuts a recursion that would go deeper. *)
Lemma resolve_loop_mono (f g : str -> JsSet.t -> M (option str)) :
  (forall n rs st x, f n rs st = Some x -> g n rs st = Some x) ->
  forall resolving matches rv st x,
    resolve_loop f resolving matches rv st = Some x ->
    resolve_loop g resolving matches rv st = Some x.
Proof.
  intros Hfg resolving matches.
  induction matches as [|m rest IH]; intros rv st x; simpl; [easy|].
  unfold bind. destruct (f _ _ st) as [[nested st1]|] eqn:E; [|discriminate].
  rewrite (Hfg _ _ _ _ E). destruct nested as [nested|]; [apply IH|].
  destruct (group2 m) as [fb|]; [|apply IH]. destruct (truthy fb); apply IH.
Qed.

Lemma resolveVariable_mono depth :
  forall depth' result varName resolving st x,
    depth <= depth' ->
    resolveVariable depth result varName resolving st = Some x ->
    resolveVariable depth' result varName resolving st = Some x.
Proof.
  induction depth as [|depth IH]; intros depth' result varName resolving st x Hle;
    simpl; [discriminate|].
  destruct depth' as [|depth']; [lia|]. simpl.
  destruct (JsSet.has resolving varName); [easy|].
  destruct (JsMap.get (variableMap st) varName) as [value|]; [|easy].
  destruct (JsMap.get (variableCache st) _) as [cached|]; [easy|].
  destruct (resolve_loop (resolveVariable depth result) _ _ _ st) as [[rv st1]|] eqn:E;
    [|discriminate].
  apply resolve_loop_mono with (g := resolveVariable depth' result) in E.
  - now rewrite E.
  - intros n rs st0 y. apply IH. lia.
Qed.

Lemma detect_loop_mono (f g : str -> JsSet.t -> M bool) :
  (forall n p st x, f n p st = Some x -> g n p st = Some x) ->
  forall varName newPath matches st x,
    detect_loop f varName newPath matches st = Some x ->
    detect_loop g varName newPath matches st = Some x.
Proof.
  intros Hfg varName newPath matches.
  induction matches as [|m rest IH]; intros st x; simpl; [easy|].
  unfold bind. destruct (f _ _ st) as [[found st1]|] eqn:E; [|discriminate].
  rewrite (Hfg _ _ _ _ E). destruct found; [easy | apply IH].
Qed.

Lemma detectCircular_mono depth :
  forall depth' varName path st x,
    depth <= depth' ->
    detectCircular depth varName path st = Some x ->
    detectCircular depth' varName path st = Some x.
Proof.
  induction depth as [|depth IH]; intros depth' varName path st x Hle;
    simpl; [discriminate|].
  destruct depth' as [|depth']; [lia|]. simpl.
  destruct (JsSet.has path varName); [easy|].
  destruct (JsMap.get (variableMap st) varName) as [value|]; [|easy].
  apply detect_loop_mono. intros n p st0 y. apply IH. lia.
Qed.

(** From an empty path the bound of the store is enough. *)
Lemma resolveVariable_returns (result : bool) (varName : str) (st : state) :
  exists r st',
    resolveVariable (depth_bound st) result varName JsSet.empty st = Some (r, st')
    /\ variableMap st' = variableMap st.
Proof.
  apply resolveVariable_total.
  - constructor.
  - intros x [].
  - unfold depth_bound. simpl. lia.
Qed.

Lemma detectCircular_returns (varName : str) (st : state) :
  exists r st',
    detectCircular (depth_bound st) varName JsSet.empty st = Some (r, st')
    /\ variableMap st' = variableMap st.
Proof.
  apply detectCircular_total.
  - constructor.
  - intros x [].
  - unfold depth_bound. simpl. lia.
Qed.

Lemma detect_all_returns (names : list str) :
  forall st, exists st',
    detect_all names st = Some (tt, st') /\ detect_frame st st'.
Proof.
  induction names as [|n rest IH]; intros st; cbn [detect_all].
  - exists st. split; [reflexivity | apply detect_frame_refl].
  - unfold bind.
    destruct (detectCircular_returns n st) as (r & st1 & E & _). rewrite E.
    apply detectCircular_frame in E.
    destruct (IH st1) as (st' & -> & F). exists st'. split; [reflexivity|].
    eapply detect_frame_trans; eassumption.
Qed.

Lemma rewrite_step_returns (v : str) (m : rmatch) (lv : loop_vars) (st : state) :
  exists lv' st', rewrite_step v m lv st = Some (lv', st') /\ resolve_frame st st'.
Proof.
  unfold rewrite_step. destruct (JsSet.has (circularRefs st) _).
  - eexists _, _. split; [reflexivity | apply resolve_frame_refl].
  - destruct (resolveVariable_returns true (trim (group1 m)) st) as (r & st' & E & _).
    rewrite E. apply resolveVariable_frame in E.
    destruct r as [rv|]; [destruct (truthy rv)|]; eexists _, _; split;
      try reflexivity; assumption.
Qed.

Lemma rewrite_loop_returns (v : str) (matches : list rmatch) :
  forall lv st, exists lv' st',
    rewrite_loop v matches lv st = Some (lv', st') /\ resolve_frame st st'.
Proof.
  induction matches as [|m rest IH]; intros lv st; simpl.
  - exists lv, st. split; [reflexivity | apply resolve_frame_refl].
  - unfold bind. destruct (rewrite_step_returns v m lv st) as (lv1 & st1 & -> & F1).
    destruct (IH lv1 st1) as (lv' & st' & -> & F). exists lv', st'.
    split; [reflexivity|]. eapply resolve_frame_trans; eassumption.
Qed.

Lemma rewrite_decl_returns (d : decl) (st : state) :
  exists d' st', rewrite_decl d st = Some (d', st') /\ resolve_frame st st'.
Proof.
  unfold rewrite_decl, bind.
  destruct (rewrite_loop_returns (value d) (exec_all (value d)) (mkLoop [] 0 false) st)
    as (lv & st' & -> & F).
  eexists _, _. split; [reflexivity | assumption].
Qed.

Lemma walkDecls_returns (r : root) :
  forall st, exists r' st', walkDecls r st = Some (r', st') /\ resolve_frame st st'.
Proof.
  induction r as [|d rest IH]; intros st; simpl.
  - exists [], st. split; [reflexivity | apply resolve_frame_refl].
  - unfold bind. destruct (rewrite_decl_returns d st) as (d' & st1 & -> & F1).
    destruct (IH st1) as (r' & st' & -> & F). eexists _, _.
    split; [reflexivity|]. eapply resolve_frame_trans; eassumption.
Qed.

Lemma process_returns (e : env) (fallbacks : list str) (r : root) (st : state) :
  exists r' st', process e fallbacks r st = Some (r', st').
Proof.
  unfold process, bind.
  match goal with |- context [detect_all ?ns ?s] =>
    destruct (detect_all_returns ns s) as (st1 & -> & _) end.
  destruct (walkDecls_returns r st1) as (r' & st' & -> & _).
  now exists r', st'.
Qed.

Lemma Once_returns (e : env) (v : js_value) (r : root) (st : state) :
  exists r' st', Once e v r st = Some (r', st').
Proof.
  unfold Once. destruct (as_array (fallbacks_of v)) as [fallbacks|].
  - destruct (length fallbacks =? 0); [now eexists _, _ | apply process_returns].
  - now eexists _, _.
Qed.

(** ** The end-to-end example *)

(** C1.  With the single source [:root{--size:16px;--pad:var(--size);}]
    (parsed: the declarations [--size: 16px] and [--pad: var(--size)])
    and the target [.b{padding:var(--pad);}] (parsed: the declaration
    [padding: var(--pad)]), the run leaves one declaration
    [padding: var(--pad, 16px)], that is the document
    [.b{padding:var(--pad, 16px);}]: [--pad] is resolved through
    [--size], and the fallback follows a comma and a space.  No warning
    is emitted, whatever the caches held before. *)
Theorem end_to_end_example (e : env) (source : str)
    (files : JsMap.t root) (variables : JsMap.t str) :
  read_parse e (path_resolve e (base_dir e) source) = Parsed size_pad_sheet ->
  exists st',
    run e (JsArray [source]) [decl_of "padding" "var(--pad)"] files variables
    = Some ([decl_of "padding" "var(--pad, 16px)"], st')
    /\ warnings st' = [].
Proof.
  intros Hload.
  unfold run, Once, fallbacks_of, as_array. cbn [length Nat.eqb].
  unfold process, load_fallbacks, cleared. cbn [fold_left].
  unfold load_fallback, loadCssFile.
  cbn [fileCache set_fileCache set_variableCache set_variableMap initial_state
       JsMap.get JsMap.empty].
  rewrite Hload.
  eexists. vm_compute. split; reflexivity.
Qed.

Lemma end_to_end_example_witness :
  exists st',
    run (env_of [("vars.css"%string, size_pad_sheet)]) (JsArray [lit "vars.css"])
        [decl_of "padding" "var(--pad)"] [] []
    = Some ([decl_of "padding" "var(--pad, 16px)"], st')
    /\ warnings st' = [].
Proof.
  apply (@end_to_end_example (env_of [("vars.css"%string, size_pad_sheet)]) (lit "vars.css") [] []).
  vm_compute. reflexivity.
Defined.

(** ** Termination *)

(** C4.  For every store (every merged mapping, acyclic or not) the
    resolver and the detector, started on any name with an empty path,
    return within a nesting of calls of the size of the mapping plus
    one, and a larger allowance gives the same result: a name already
    on the path ends the descent, and a path holds each key at most
    once.  Hence the whole transform returns for every input. *)
Theorem termination_within_mapping_size (st : state) :
  (forall result varName extra, exists r st',
      resolveVariable (depth_bound st) result varName JsSet.empty st = Some (r, st')
      /\ resolveVariable (depth_bound st + extra) result varName JsSet.empty st
         = Some (r, st'))
  /\ (forall varName extra, exists r st',
      detectCircular (depth_bound st) varName JsSet.empty st = Some (r, st')
      /\ detectCircular (depth_bound st + extra) varName JsSet.empty st
         = Some (r, st'))
  /\ (forall e option_value r, exists r' st',
      Once e option_value r st = Some (r', st')).
Proof.
  repeat split.
  - intros result varName extra.
    destruct (resolveVariable_returns result varName st) as (r & st' & E & _).
    exists r, st'. split; [exact E|].
    eapply resolveVariable_mono; [|exact E]. lia.
  - intros varName extra.
    destruct (detectCircular_returns varName st) as (r & st' & E & _).
    exists r, st'. split; [exact E|].
    eapply detectCircular_mono; [|exact E]. lia.
  - intros e option_value r. apply Once_returns.
Qed.

(** On the cycle [--a: var(--b); --b: var(--a);] the detector reports
    the cycle and the resolver, called on [--a] with an empty path,
    returns after one warning. *)
Example cycle_terminates :
  (exists st', detectCircular (depth_bound cycle_state) (lit "--a") JsSet.empty cycle_state
               = Some (true, st'))
  /\ (exists r st', resolveVariable (depth_bound cycle_state) true (lit "--a")
                      JsSet.empty cycle_state = Some (r, st')
                    /\ warnings st' = [circular_message (lit "--a")]).
Proof.
  split.
  - eexists. vm_compute. reflexivity.
  - eexists _, _. vm_compute. split; reflexivity.
Qed.

(** ** Invalid configuration *)

(** C8.  When the [fallbacks] option is absent, [null] or anything that
    is not an array, the transform returns the document as it received
    it, every declaration untouched, after one warning; it changes
    nothing else in the store, and this is the very outcome of a run
    with an empty list of fallbacks. *)
Theorem invalid_fallbacks_leave_document (e : env) (v : js_value) (r : root)
    (st : state) :
  not_a_sequence v = true ->
  Once e v r st = Some (r, warn (lit "Fallbacks must be an array of file paths") st)
  /\ Once e v r st = Once e (JsArray []) r st.
Proof.
  intros Hv. destruct v; try discriminate; split; reflexivity.
Qed.

Lemma invalid_fallbacks_leave_document_witness :
  Once (env_of []) JsNull [decl_of "color" "var(--color)"] (initial_state [] [])
  = Some ([decl_of "color" "var(--color)"],
          warn (lit "Fallbacks must be an array of file paths") (initial_state [] []))
  /\ Once (env_of []) JsNull [decl_of "color" "var(--color)"] (initial_state [] [])
     = Once (env_of []) (JsArray []) [decl_of "color" "var(--color)"] (initial_state [] []).
Proof.
  apply (@invalid_fallbacks_leave_document (env_of []) JsNull
           [decl_of "color" "var(--color)"] (initial_state [] [])).
  reflexivity.
Defined.

(** ** The merged mapping is frozen *)

Lemma detect_all_frame (names : list str) (st st' : state) :
  detect_all names st = Some (tt, st') -> detect_frame st st'.
Proof.
  intros H. destruct (detect_all_returns names st) as (st1 & E & F).
  rewrite E in H. now injection H as <-.
Qed.

(** C9.  Once the sources are merged, nothing writes the mapping: in
    every store, a walk of the detector, a call of the resolver, the
    rewriting of a declaration (also one that declares a custom
    property) and the rewriting of a whole document each return with
    the mapping they started with; and a whole run ends with the
    mapping exactly as the merge of the sources left it. *)
Theorem merged_mapping_is_frozen (st : state) :
  (forall varName, exists r st',
      detectCircular (depth_bound st) varName JsSet.empty st = Some (r, st')
      /\ variableMap st' = variableMap st)
  /\ (forall result varName, exists r st',
      resolveVariable (depth_bound st) result varName JsSet.empty st = Some (r, st')
      /\ variableMap st' = variableMap st)
  /\ (forall d, exists d' st',
      rewrite_decl d st = Some (d', st') /\ variableMap st' = variableMap st)
  /\ (forall r, exists r' st',
      walkDecls r st = Some (r', st') /\ variableMap st' = variableMap st)
  /\ (forall e fallbacks r, exists r' st',
      process e fallbacks r st = Some (r', st')
      /\ variableMap st' = variableMap (load_fallbacks e fallbacks (cleared st))).
Proof.
  repeat split.
  - intros varName. apply detectCircular_returns.
  - intros result varName. apply resolveVariable_returns.
  - intros d. destruct (rewrite_decl_returns d st) as (d' & st' & E & F & _).
    now exists d', st'.
  - intros r. destruct (walkDecls_returns r st) as (r' & st' & E & F & _).
    now exists r', st'.
  - intros e fallbacks r. unfold process, bind.
    match goal with |- context [detect_all ?ns ?s] =>
      destruct (detect_all_returns ns s) as (st1 & -> & F1 & _) end.
    destruct (walkDecls_returns r st1) as (r' & st' & -> & F2 & _).
    exists r', st'. split; [reflexivity|]. rewrite F2, F1. reflexivity.
Qed.

(** ** The pattern *)

Lemma strip_prefix_spec (p s r : str) : strip_prefix p s = Some r <-> s = p ++ r.
Proof.
  revert s; induction p as [|x p IH]; intros s; simpl.
  - split; congruence.
  - destruct s as [|y s]; [split; discriminate|].
    destruct (N.eqb x y) eqn:E.
    + apply N.eqb_eq in E. subst y. rewrite IH. split; congruence.
    + apply N.eqb_neq in E. split; [discriminate | congruence].
Qed.

Lemma span_spec (p : code_unit -> bool) (s run rest : str) :
  span p s = (run, rest) ->
  s = run ++ rest /\ forallb p run = true /\
  match rest with [] => True | c :: _ => p c = false end.
Proof.
  revert run rest; induction s as [|c s IH]; intros run rest; simpl.
  - intros H. injection H as <- <-. now repeat split.
  - destruct (p c) eqn:E.
    + destruct (span p s) as [run' rest'] eqn:Es. intros H. injection H as <- <-.
      destruct (IH _ _ eq_refl) as (-> & Hall & Hrest).
      repeat split; [simpl; now rewrite E | assumption].
    + intros H. injection H as <- <-. now repeat split.
Qed.

Lemma span_app (p : code_unit -> bool) (run : str) (c : code_unit) (rest : str) :
  forallb p run = true -> p c = false -> span p (run ++ c :: rest) = (run, c :: rest).
Proof.
  intros Hall Hc. induction run as [|x run IH]; simpl.
  - now rewrite Hc.
  - simpl in Hall. apply andb_true_iff in Hall as [-> Hall]. now rewrite IH.
Qed.

Lemma rparen_not_in_name_class : in_name_class RPAREN = false.
Proof. reflexivity. Qed.

Lemma comma_not_in_name_class : in_name_class COMMA = false.
Proof. reflexivity. Qed.

Lemma rparen_not_in_fallback_class : in_fallback_class RPAREN = false.
Proof. reflexivity. Qed.

(** [match_at] finds exactly the prefix of the text that the pattern
    denotes; there is at most one, so the order in which a backtracking
    matcher tries the alternatives plays no part. *)
Lemma match_at_spec (s full g1 : str) (g2 : option str) :
  match_at s = Some (full, g1, g2) <->
  var_call full g1 g2 /\ exists rest, s = full ++ rest.
Proof.
  unfold match_at. split.
  - destruct (strip_prefix (lit "var(") s) as [s1|] eqn:E1; [|discriminate].
    apply strip_prefix_spec in E1. subst s.
    destruct (span in_name_class s1) as [name s2] eqn:E2.
    apply span_spec in E2 as (-> & Hname & Hs2).
    destruct name as [|n name]; [discriminate|].
    destruct s2 as [|c s3]; [discriminate|].
    destruct (N.eqb c RPAREN) eqn:Ec.
    + apply N.eqb_eq in Ec. subst c. intros H. injection H as <- <- <-. split.
      * apply (call_plain (name := n :: name)); [discriminate | assumption].
      * exists s3. simpl. now rewrite <- ?app_assoc.
    + destruct (span in_fallback_class s3) as [fb s4] eqn:E3.
      apply span_spec in E3 as (-> & Hfb & Hs4).
      destruct fb as [|f fb]; [discriminate|].
      destruct s4 as [|c4 s5]; [discriminate|].
      intros H. injection H as <- <- <-.
      assert (c = COMMA) as ->.
      { unfold in_name_class in Hs2. rewrite Ec in Hs2. simpl in Hs2.
        rewrite andb_true_r in Hs2. apply negb_false_iff, N.eqb_eq in Hs2. exact Hs2. }
      assert (c4 = RPAREN) as ->.
      { unfold in_fallback_class in Hs4. now apply negb_false_iff, N.eqb_eq in Hs4. }
      split.
      * apply (call_fallback (name := n :: name) (fb := f :: fb));
          [discriminate | assumption | discriminate | assumption].
      * exists s5. simpl. rewrite <- ?app_assoc. simpl. rewrite <- ?app_assoc.
        reflexivity.
  - intros [Hcall [rest ->]]. destruct Hcall as [name Hne Hall | name fb Hne Hall Hfne Hfall].
    + replace (strip_prefix (lit "var(") ((lit "var(" ++ name ++ [RPAREN]) ++ rest))
        with (Some (name ++ RPAREN :: rest)).
      2:{ symmetry. apply strip_prefix_spec. now rewrite <- !app_assoc. }
      rewrite span_app by (assumption || reflexivity).
      destruct name; [contradiction|]. reflexivity.
    + replace (strip_prefix (lit "var(")
                 ((lit "var(" ++ name ++ COMMA :: fb ++ [RPAREN]) ++ rest))
        with (Some (name ++ COMMA :: fb ++ RPAREN :: rest)).
      2:{ symmetry. apply strip_prefix_spec. rewrite <- !app_assoc. simpl.
          now rewrite <- !app_assoc. }
      rewrite span_app by (assumption || reflexivity).
      destruct name; [contradiction|].
      replace (N.eqb COMMA RPAREN) with false by reflexivity.
      rewrite span_app by (assumption || reflexivity).
      destruct fb; [contradiction|]. reflexivity.
Qed.

Lemma match_at_prefix (s full g1 : str) (g2 : option str) :
  match_at s = Some (full, g1, g2) ->
  exists rest, s = full ++ rest /\ 1 <= length full.
Proof.
  intros H. apply match_at_spec in H as [Hcall [rest ->]].
  exists rest. split; [reflexivity|].
  destruct Hcall; rewrite length_app; simpl; lia.
Qed.

(** ** The matches of a value, in order *)

Lemma scan_skip (s : str) :
  forall skip idx, scan skip idx s = scan 0 (idx + skip) (skipn skip s).
Proof.
  induction s as [|c s IH]; intros skip idx.
  - destruct skip; reflexivity.
  - destruct skip as [|k].
    + now rewrite Nat.add_0_r.
    + cbn [scan skipn]. rewrite IH. f_equal. lia.
Qed.

Lemma search_index (s : str) :
  forall idx m, search idx s = Some m -> idx <= index m.
Proof.
  induction s as [|c s IH]; intros idx m; cbn [search]; [discriminate|].
  destruct (match_at (c :: s)) as [[[full g1] g2]|].
  - intros H. injection H as <-. simpl. lia.
  - intros H. apply IH in H. lia.
Qed.

(** The list of matches is the one the loop obtains by calling [exec]
    again and again, each search starting where the last match ended. *)
Lemma scan_search (s : str) :
  forall idx,
    scan 0 idx s =
    match search idx s with
    | None => []
    | Some m =>
        m :: scan 0 (index m + length (fullMatch m))
                  (skipn (index m + length (fullMatch m) - idx) s)
    end.
Proof.
  induction s as [|c s IH]; intros idx; cbn [scan search]; [reflexivity|].
  destruct (match_at (c :: s)) as [[[full g1] g2]|] eqn:E.
  - apply match_at_prefix in E as (rest & _ & Hlen). cbn [index fullMatch].
    f_equal. rewrite scan_skip.
    replace (idx + length full - idx) with (S (length full - 1)) by lia.
    cbn [skipn]. f_equal. lia.
  - rewrite IH. destruct (search (S idx) s) as [m|] eqn:Es; [|reflexivity].
    apply search_index in Es.
    replace (index m + length (fullMatch m) - idx)
      with (S (index m + length (fullMatch m) - S idx)) by lia.
    reflexivity.
Qed.

Lemma exec_from_unfold (v : str) (i : nat) :
  i <= length v ->
  exec_from v i =
  match exec v i with
  | None => []
  | Some m => m :: exec_from v (index m + length (fullMatch m))
  end.
Proof.
  intros Hi. unfold exec, exec_from.
  replace (length v <? i) with false by (symmetry; apply Nat.ltb_ge; exact Hi).
  rewrite scan_search. destruct (search i (skipn i v)) as [m|] eqn:Es; [|reflexivity].
  apply search_index in Es. rewrite skipn_skipn.
  replace (index m + length (fullMatch m) - i + i)
    with (index m + length (fullMatch m)) by lia.
  reflexivity.
Qed.

Lemma exec_all_from_start (v : str) : exec_all v = exec_from v 0.
Proof. reflexivity. Qed.

Lemma aligned_weaken (v : str) (matches : list rmatch) (from from' : nat) :
  from' <= from -> aligned v from matches -> aligned v from' matches.
Proof.
  destruct matches as [|m rest]; simpl; [easy|].
  intros Hle (H1 & H2 & H3 & H4). repeat split; try assumption. lia.
Qed.

Lemma scan_aligned (v s : str) :
  forall pre skip,
    v = pre ++ s -> aligned v (length pre + skip) (scan skip (length pre) s).
Proof.
  induction s as [|c s IH]; intros pre skip Hv; cbn [scan]; [exact I|].
  assert (Hv' : v = (pre ++ [c]) ++ s) by (now rewrite <- app_assoc).
  assert (Hlen : length (pre ++ [c]) = S (length pre))
    by (rewrite length_app; simpl; lia).
  destruct skip as [|k].
  - destruct (match_at (c :: s)) as [[[full g1] g2]|] eqn:E.
    + apply match_at_prefix in E as (rest & Hs & Hfull).
      cbn [aligned index fullMatch]. repeat split.
      * lia.
      * unfold slice. rewrite Hv, Hs.
        rewrite skipn_app, skipn_all, Nat.sub_diag. cbn [skipn app].
        replace (length pre + length full - length pre) with (length full + 0) by lia.
        rewrite firstn_app_2. cbn [firstn]. apply app_nil_r.
      * rewrite Hv, Hs, !length_app. lia.
      * specialize (IH (pre ++ [c]) (length full - 1) Hv').
        rewrite Hlen in IH.
        replace (S (length pre) + (length full - 1)) with (length pre + length full)
          in IH by lia.
        exact IH.
    + specialize (IH (pre ++ [c]) 0 Hv'). rewrite Hlen in IH.
      eapply aligned_weaken; [|exact IH]. lia.
  - specialize (IH (pre ++ [c]) k Hv'). rewrite Hlen in IH.
    replace (length pre + S k) with (S (length pre) + k) by lia. exact IH.
Qed.

Lemma exec_all_aligned (v : str) : aligned v 0 (exec_all v).
Proof. apply (@scan_aligned v v [] 0). reflexivity. Qed.

Lemma aligned_app (v : str) (ms1 : list rmatch) :
  forall from m ms2,
    aligned v from (ms1 ++ m :: ms2) ->
    aligned v (index m) (m :: ms2).
Proof.
  induction ms1 as [|m1 ms1 IH]; intros from m ms2; cbn [app aligned].
  - intros (H1 & H2 & H3 & H4). repeat split; try assumption. lia.
  - intros (H1 & H2 & H3 & H4). eapply IH. exact H4.
Qed.

(** ** The loop of the rewriter *)

(** What the loop has accumulated does not influence what it appends. *)
Lemma rewrite_step_acc (v : str) (m : rmatch) (nv : str) (li : nat) (md : bool)
    (st : state) :
  rewrite_step v m (mkLoop nv li md) st =
  match rewrite_step v m (mkLoop [] li false) st with
  | None => None
  | Some (lv, st') =>
      Some (mkLoop (nv ++ newValue lv) (lastIndex lv) (md || modified lv), st')
  end.
Proof.
  unfold rewrite_step. cbn [newValue lastIndex modified app].
  destruct (JsSet.has (circularRefs st) _).
  - cbn [newValue lastIndex modified]. now rewrite orb_false_r, app_assoc.
  - destruct (resolveVariable _ _ _ _ st) as [[[rv|] st']|]; [| |reflexivity].
    + destruct (truthy rv); cbn [newValue lastIndex modified];
        now rewrite ?orb_false_r, ?orb_true_r, app_assoc.
    + cbn [newValue lastIndex modified]. now rewrite orb_false_r, app_assoc.
Qed.

Lemma rewrite_loop_acc (v : str) (matches : list rmatch) :
  forall nv li md st,
    rewrite_loop v matches (mkLoop nv li md) st =
    match rewrite_loop v matches (mkLoop [] li false) st with
    | None => None
    | Some (lv, st') =>
        Some (mkLoop (nv ++ newValue lv) (lastIndex lv) (md || modified lv), st')
    end.
Proof.
  induction matches as [|m rest IH]; intros nv li md st; cbn [rewrite_loop].
  - unfold ret. cbn [newValue lastIndex modified].
    now rewrite app_nil_r, orb_false_r.
  - unfold bind. rewrite rewrite_step_acc.
    destruct (rewrite_step v m (mkLoop [] li false) st) as [[[nv1 li1 md1] st1]|];
      [|reflexivity].
    cbn [newValue lastIndex modified].
    rewrite IH. rewrite (IH nv1 li1 md1).
    destruct (rewrite_loop v rest (mkLoop [] li1 false) st1) as [[[nv2 li2 md2] st2]|];
      [|reflexivity].
    cbn [newValue lastIndex modified]. now rewrite app_assoc, orb_assoc.
Qed.

Lemma rewrite_loop_app (v : str) (ms1 ms2 : list rmatch) :
  forall lv st,
    rewrite_loop v (ms1 ++ ms2) lv st =
    match rewrite_loop v ms1 lv st with
    | None => None
    | Some (lv1, st1) => rewrite_loop v ms2 lv1 st1
    end.
Proof.
  induction ms1 as [|m ms1 IH]; intros lv st; cbn [app rewrite_loop]; [reflexivity|].
  unfold bind. destruct (rewrite_step v m lv st) as [[lv' st']|]; [apply IH | reflexivity].
Qed.

Lemma finish_eq (v : str) (lv : loop_vars) :
  finish v lv = newValue lv ++ skipn (lastIndex lv) v.
Proof.
  unfold finish, slice_from. destruct (lastIndex lv <? length v) eqn:E; [reflexivity|].
  apply Nat.ltb_ge in E. now rewrite skipn_all2, app_nil_r.
Qed.

Lemma slice_slice (v : str) (a b c : nat) :
  a <= b -> b <= c -> slice v a b ++ slice v b c = slice v a c.
Proof.
  intros Hab Hbc. unfold slice.
  replace (skipn b v) with (skipn (b - a) (skipn a v))
    by (rewrite skipn_skipn; f_equal; lia).
  replace (c - a) with ((b - a) + (c - b)) by lia.
  generalize (skipn a v) as l. generalize (b - a) as n. generalize (c - b) as k.
  intros k n. induction n as [|n IH]; intros l; [reflexivity|].
  destruct l as [|x l]; cbn [firstn skipn Nat.add app].
  - now rewrite firstn_nil.
  - now rewrite IH.
Qed.

(** While no occurrence has been rewritten, the text accumulated is the
    text read so far. *)
Lemma rewrite_loop_unmodified (v : str) (matches : list rmatch) :
  forall li st lv st',
    aligned v li matches -> li <= length v ->
    rewrite_loop v matches (mkLoop [] li false) st = Some (lv, st') ->
    modified lv = false ->
    newValue lv = slice v li (lastIndex lv)
    /\ li <= lastIndex lv /\ lastIndex lv <= length v.
Proof.
  induction matches as [|m rest IH]; intros li st lv st' Hal Hli; cbn [rewrite_loop].
  - unfold ret. intros H _. injection H as <-. cbn [newValue lastIndex].
    unfold slice. rewrite Nat.sub_diag. now repeat split.
  - destruct Hal as (H1 & H2 & H3 & H4). unfold bind.
    destruct (rewrite_step v m (mkLoop [] li false) st) as [[[nv1 li1 md1] st1]|] eqn:Es;
      [|discriminate].
    rewrite rewrite_loop_acc.
    destruct (rewrite_loop v rest (mkLoop [] li1 false) st1) as [[lv2 st2]|] eqn:El;
      [|discriminate].
    intros H Hmod. injection H as <- <-. cbn [newValue lastIndex modified] in *.
    apply orb_false_iff in Hmod as [-> Hmod2].
    assert (nv1 = slice v li (index m) ++ fullMatch m
            /\ li1 = index m + length (fullMatch m)) as [-> ->].
    { unfold rewrite_step in Es. cbn [newValue lastIndex modified app] in Es.
      destruct (JsSet.has (circularRefs st) _).
      - injection Es as <- <- _. now split.
      - destruct (resolveVariable _ _ _ _ st) as [[[rv|] st0]|]; [| |discriminate].
        + destruct (truthy rv); [discriminate|]. injection Es as <- <- _. now split.
        + injection Es as <- <- _. now split. }
    destruct (IH _ _ _ _ H4 H3 El Hmod2) as (-> & Hle & Hlen).
    repeat split; [|lia|assumption].
    remember (length (fullMatch m)) as len eqn:Hlen'.
    rewrite <- H2, <- app_assoc, slice_slice by lia.
    rewrite slice_slice by lia. reflexivity.
Qed.

(** The value of a declaration after the callback is the text the loop
    accumulated, completed by what follows the last match, whether the
    assignment took place or not. *)
Lemma rewrite_decl_value (d d' : decl) (st st' : state) :
  rewrite_decl d st = Some (d', st') ->
  exists lv,
    rewrite_loop (value d) (exec_all (value d)) (mkLoop [] 0 false) st = Some (lv, st')
    /\ prop d' = prop d /\ value d' = finish (value d) lv.
Proof.
  unfold rewrite_decl, bind, ret.
  destruct (rewrite_loop _ _ _ st) as [[lv st1]|] eqn:El; [|discriminate].
  intros H. injection H as <- <-. exists lv. split; [reflexivity|].
  destruct (modified lv) eqn:Hmod; [now split|]. split; [reflexivity|].
  destruct (@rewrite_loop_unmodified _ _ _ _ _ _ (exec_all_aligned (value d))
              (Nat.le_0_l _) El Hmod) as (Hnv & _ & Hlen).
  rewrite finish_eq, Hnv. unfold slice. rewrite Nat.sub_0_r. cbn [skipn].
  symmetry. apply firstn_skipn.
Qed.

Lemma scan_var_call (s : str) :
  forall skip idx m,
    In m (scan skip idx s) -> var_call (fullMatch m) (group1 m) (group2 m).
Proof.
  induction s as [|c s IH]; intros skip idx m; cbn [scan]; [intros []|].
  destruct skip as [|k]; [|apply IH].
  destruct (match_at (c :: s)) as [[[full g1] g2]|] eqn:E; [|apply IH].
  intros [<- | H]; [|eapply IH; exact H].
  apply match_at_spec in E as [Hcall _]. exact Hcall.
Qed.

Lemma rewrite_step_lastIndex (v : str) (m : rmatch) (lv lv' : loop_vars)
    (st st' : state) :
  rewrite_step v m lv st = Some (lv', st') ->
  lastIndex lv' = index m + length (fullMatch m).
Proof.
  unfold rewrite_step. destruct (JsSet.has (circularRefs st) _).
  - intros H. now injection H as <- _.
  - destruct (resolveVariable _ _ _ _ st) as [[[rv|] st0]|]; [| |discriminate].
    + destruct (truthy rv); intros H; now injection H as <- _.
    + intros H. now injection H as <- _.
Qed.

(** The place of one occurrence in the value that the callback leaves:
    after the text written before it comes what the step wrote for it,
    then the text written for the rest of the value. *)
Lemma occurrence_output (d : decl) (st : state) (m : rmatch) (after : list rmatch)
    (lv1 : loop_vars) (st1 : state) (lv2 : loop_vars) (st2 : state) (out : str) :
  reaches st (value d) m after lv1 st1 ->
  rewrite_step (value d) m lv1 st1 = Some (lv2, st2) ->
  newValue lv2 = text_before (value d) lv1 m ++ out ->
  exists tail st3 d',
    text_after (value d) m after st2 = Some (tail, st3)
    /\ rewrite_decl d st = Some (d', st3)
    /\ prop d' = prop d
    /\ value d' = text_before (value d) lv1 m ++ out ++ tail.
Proof.
  intros (before & Hall & Hbefore) Hstep Hout.
  pose proof (rewrite_step_lastIndex _ _ _ _ Hstep) as Hli.
  unfold text_after.
  destruct (rewrite_loop_returns (value d) after
              (mkLoop [] (index m + length (fullMatch m)) false) st2)
    as (lvt & st3 & Et & _).
  rewrite Et.
  assert (Hloop : rewrite_loop (value d) (exec_all (value d)) (mkLoop [] 0 false) st
                  = Some (mkLoop (newValue lv2 ++ newValue lvt) (lastIndex lvt)
                                 (modified lv2 || modified lvt), st3)).
  { rewrite Hall, rewrite_loop_app, Hbefore. cbn [rewrite_loop]. unfold bind.
    rewrite Hstep. destruct lv2 as [nv2 li2 md2]. cbn [lastIndex] in Hli. subst li2.
    rewrite rewrite_loop_acc, Et. reflexivity. }
  destruct (rewrite_decl_returns d st) as (d' & st' & Ed & _).
  destruct (rewrite_decl_value _ _ Ed) as (lv & El & Hprop & Hval).
  rewrite Hloop in El. injection El as <- <-.
  exists (finish (value d) lvt), st3, d'. repeat split; try assumption.
  rewrite Hval, !finish_eq. cbn [newValue lastIndex]. rewrite Hout.
  now rewrite <- !app_assoc.
Qed.

Lemma rewrite_loop_frame (v : str) (matches : list rmatch) (lv lv' : loop_vars)
    (st st' : state) :
  rewrite_loop v matches lv st = Some (lv', st') -> resolve_frame st st'.
Proof.
  intros H. destruct (rewrite_loop_returns v matches lv st) as (lv1 & st1 & E & F).
  rewrite E in H. now injection H as _ <-.
Qed.

Lemma reaches_frame (st : state) (v : str) (m : rmatch) (after : list rmatch)
    (lv : loop_vars) (st1 : state) :
  reaches st v m after lv st1 -> resolve_frame st st1.
Proof. intros (before & _ & H). eapply rewrite_loop_frame; exact H. Qed.

Lemma reaches_var_call (st : state) (v : str) (m : rmatch) (after : list rmatch)
    (lv : loop_vars) (st1 : state) :
  reaches st v m after lv st1 -> var_call (fullMatch m) (group1 m) (group2 m).
Proof.
  intros (before & Hall & _). apply (@scan_var_call v 0 0). fold (exec_all v).
  rewrite Hall. apply in_elt.
Qed.

(** ** Unknown variables *)

(** The resolver returns [null] for a name without an entry, whatever
    the path and the cache. *)
Lemma resolveVariable_unknown (depth : nat) (result : bool) (varName : str)
    (resolving : JsSet.t) (st : state) :
  JsMap.get (variableMap st) varName = None ->
  exists st', resolveVariable (S depth) result varName resolving st = Some (None, st').
Proof.
  intros Hget. cbn [resolveVariable].
  destruct (JsSet.has resolving varName); [now eexists|].
  rewrite Hget. now eexists.
Qed.

(** C7.  Take any occurrence [var(name)] or [var(name, fallback)] that
    the rewriter finds in a declaration, in a store built from any
    configuration, whose trimmed name has no entry in the merged
    mapping.  The resolver returns [null] for that name (from any path,
    with any cache), and in the value the callback leaves, the text of
    the occurrence, its fallback included, stands unchanged between the
    text written for what precedes it and the text written for what
    follows it; the store is the same before and after the occurrence. *)
Theorem unknown_variable_unchanged (d : decl) (st : state) (m : rmatch)
    (after : list rmatch) (lv1 : loop_vars) (st1 : state) :
  reaches st (value d) m after lv1 st1 ->
  JsMap.get (variableMap st) (trim (group1 m)) = None ->
  (forall depth result resolving st0,
      variableMap st0 = variableMap st ->
      exists st0',
        resolveVariable (S depth) result (trim (group1 m)) resolving st0
        = Some (None, st0'))
  /\ exists tail st3 d',
      text_after (value d) m after st1 = Some (tail, st3)
      /\ rewrite_decl d st = Some (d', st3)
      /\ prop d' = prop d
      /\ value d' = text_before (value d) lv1 m ++ fullMatch m ++ tail.
Proof.
  intros Hreach Hget. split.
  - intros depth result resolving st0 Hst0. apply resolveVariable_unknown.
    now rewrite Hst0.
  - destruct (reaches_frame Hreach) as (Hmap & _).
    assert (Hstep : rewrite_step (value d) m lv1 st1
                    = Some (mkLoop (text_before (value d) lv1 m ++ fullMatch m)
                                   (index m + length (fullMatch m)) (modified lv1), st1)).
    { unfold rewrite_step, text_before.
      destruct (JsSet.has (circularRefs st1) _); [reflexivity|].
      unfold depth_bound. cbn [resolveVariable JsSet.has JsSet.empty existsb].
      rewrite Hmap, Hget. reflexivity. }
    eapply occurrence_output; [exact Hreach | exact Hstep | reflexivity].
Qed.

Lemma unknown_variable_unchanged_witness :
  exists st3 d',
    rewrite_decl (decl_of "color" "1px var(--never-defined, red) solid")
                 (state_of [("--known", "blue")]%string) = Some (d', st3)
    /\ value d' = lit "1px var(--never-defined, red) solid".
Proof.
  pose (d := decl_of "color" "1px var(--never-defined, red) solid").
  pose (st := state_of [("--known", "blue")]%string).
  pose (m := mkMatch (lit "var(--never-defined, red)") (lit "--never-defined")
                     (Some (lit " red")) 4).
  destruct (@unknown_variable_unchanged d st m [] (mkLoop [] 0 false) st)
    as (_ & tail & st3 & d' & Htail & Hdecl & _ & Hval).
  - exists []. split; reflexivity.
  - reflexivity.
  - exists st3, d'. split; [exact Hdecl|].
    rewrite Hval. vm_compute in Htail. injection Htail as <- _. reflexivity.
Defined.

(** ** Occurrences whose name resolves *)

(** What the step of the loop writes for an occurrence once the resolver
    has answered. *)
Lemma rewrite_step_resolved (v : str) (m : rmatch) (lv1 : loop_vars)
    (st1 st2 : state) (resolved : str) :
  JsSet.has (circularRefs st1) (trim (group1 m)) = false ->
  resolveVariable (depth_bound st1) true (trim (group1 m)) JsSet.empty st1
  = Some (Some resolved, st2) ->
  rewrite_step v m lv1 st1 =
  Some (if truthy resolved
        then mkLoop (text_before v lv1 m ++ with_fallback (trim (group1 m)) resolved)
                    (index m + length (fullMatch m)) true
        else mkLoop (text_before v lv1 m ++ fullMatch m)
                    (index m + length (fullMatch m)) (modified lv1),
        st2).
Proof.
  intros Hcirc Hres. unfold rewrite_step, text_before. rewrite Hcirc, Hres.
  now destruct (truthy resolved).
Qed.

(** The claim C6 as stated fails when the resolver returns the empty
    string: with [--e:;] in the mapping, [--e] is not circular and
    resolves to a string, the empty one, yet [var(--e, red)] keeps the
    fallback of its author instead of becoming [var(--e, )]. *)
Lemma empty_resolution_keeps_author_fallback :
  exists st2 st3 d',
    JsSet.has (circularRefs empty_value_state) (lit "--e") = false
    /\ resolveVariable (depth_bound empty_value_state) true (lit "--e") JsSet.empty
         empty_value_state = Some (Some [], st2)
    /\ rewrite_decl (decl_of "color" "var(--e, red)") empty_value_state = Some (d', st3)
    /\ value d' = lit "var(--e, red)"
    /\ value d' <> with_fallback (lit "--e") [].
Proof.
  eexists _, _, _. repeat split; try (vm_compute; reflexivity).
  vm_compute. discriminate.
Qed.

(** C6 (amended).  Take any occurrence [var(name, fallback)] that the
    rewriter finds in a declaration (its fallback then holds no closing
    parenthesis), whose trimmed name is not in the set of circular
    names and for which the resolver returns a string that is not
    empty.  In the value the callback leaves, the whole occurrence, the
    fallback of the author included, is replaced by
    [var(name, resolved)]: that text stands between the text written
    for what precedes the occurrence and the text written for what
    follows it. *)
Theorem computed_fallback_replaces_author_fallback (d : decl) (st : state)
    (m : rmatch) (after : list rmatch) (lv1 : loop_vars) (st1 st2 : state)
    (fallback resolved : str) :
  reaches st (value d) m after lv1 st1 ->
  group2 m = Some fallback ->
  JsSet.has (circularRefs st) (trim (group1 m)) = false ->
  resolveVariable (depth_bound st1) true (trim (group1 m)) JsSet.empty st1
  = Some (Some resolved, st2) ->
  resolved <> [] ->
  fullMatch m = lit "var(" ++ group1 m ++ COMMA :: fallback ++ [RPAREN]
  /\ forallb in_fallback_class fallback = true
  /\ exists tail st3 d',
      text_after (value d) m after st2 = Some (tail, st3)
      /\ rewrite_decl d st = Some (d', st3)
      /\ prop d' = prop d
      /\ value d' = text_before (value d) lv1 m
                    ++ with_fallback (trim (group1 m)) resolved ++ tail.
Proof.
  intros Hreach Hfb Hcirc Hres Hne.
  pose proof (reaches_var_call Hreach) as Hcall. rewrite Hfb in Hcall.
  split; [inversion Hcall; subst; reflexivity|].
  split; [inversion Hcall; subst; assumption|].
  - destruct (reaches_frame Hreach) as (_ & Hc & _). rewrite <- Hc in Hcirc.
    pose proof (@rewrite_step_resolved (value d) m lv1 _ _ _ Hcirc Hres) as Hstep.
    destruct resolved as [|c resolved]; [contradiction|]. cbn [truthy] in Hstep.
    eapply occurrence_output; [exact Hreach | exact Hstep | reflexivity].
Qed.

Lemma computed_fallback_replaces_author_fallback_witness :
  exists st3 d',
    rewrite_decl (decl_of "color" "var(--x, red)")
                 (state_of [("--x", "blue")]%string) = Some (d', st3)
    /\ value d' = lit "var(--x, blue)".
Proof.
  pose (d := decl_of "color" "var(--x, red)").
  pose (st := state_of [("--x", "blue")]%string).
  pose (m := mkMatch (lit "var(--x, red)") (lit "--x") (Some (lit " red")) 0).
  pose (st2 := set_variableCache [(lit "--x--x,blue", lit "blue")] st).
  destruct (@computed_fallback_replaces_author_fallback d st m []
              (mkLoop [] 0 false) st st2 (lit " red") (lit "blue"))
    as (_ & _ & tail & st3 & d' & Htail & Hdecl & _ & Hval).
  - exists []. split; reflexivity.
  - reflexivity.
  - reflexivity.
  - reflexivity.
  - discriminate.
  - exists st3, d'. split; [exact Hdecl|].
    rewrite Hval. vm_compute in Htail. injection Htail as <- _. reflexivity.
Defined.

(** ** The empty string as a resolved value *)

(** C10.  When the resolver returns the empty string for an occurrence
    (whose name is not in the set of circular names), the step of the
    loop does what it does when the resolver returns [null]: it appends
    the occurrence as it was, inserts no fallback and leaves the mark
    [modified] as it found it; in the value the callback leaves, the
    occurrence stands unchanged. *)
Theorem empty_resolution_is_unresolved (d : decl) (st : state) (m : rmatch)
    (after : list rmatch) (lv1 : loop_vars) (st1 st2 : state) :
  reaches st (value d) m after lv1 st1 ->
  JsSet.has (circularRefs st1) (trim (group1 m)) = false ->
  resolveVariable (depth_bound st1) true (trim (group1 m)) JsSet.empty st1
  = Some (Some [], st2) ->
  rewrite_step (value d) m lv1 st1
  = Some (mkLoop (text_before (value d) lv1 m ++ fullMatch m)
                 (index m + length (fullMatch m)) (modified lv1), st2)
  /\ exists tail st3 d',
      text_after (value d) m after st2 = Some (tail, st3)
      /\ rewrite_decl d st = Some (d', st3)
      /\ prop d' = prop d
      /\ value d' = text_before (value d) lv1 m ++ fullMatch m ++ tail.
Proof.
  intros Hreach Hcirc Hres.
  pose proof (@rewrite_step_resolved (value d) m lv1 _ _ _ Hcirc Hres) as Hstep.
  cbn [truthy] in Hstep. split; [exact Hstep|].
  eapply occurrence_output; [exact Hreach | exact Hstep | reflexivity].
Qed.

Lemma empty_resolution_is_unresolved_witness :
  exists st3,
    rewrite_decl (decl_of "margin" "0 var(--e) 0") empty_value_state
    = Some (decl_of "margin" "0 var(--e) 0", st3).
Proof.
  pose (d := decl_of "margin" "0 var(--e) 0").
  pose (m := mkMatch (lit "var(--e)") (lit "--e") None 2).
  pose (st2 := set_variableCache [(lit "--e--e,", [])] empty_value_state).
  destruct (@empty_resolution_is_unresolved d empty_value_state m []
              (mkLoop [] 0 false) empty_value_state st2)
    as (_ & tail & st3 & d' & Htail & Hdecl & Hprop & Hval).
  - exists []. split; reflexivity.
  - reflexivity.
  - reflexivity.
  - exists st3. subst d. rewrite Hdecl. do 2 f_equal.
    destruct d' as [p v]. cbn [prop value] in Hprop, Hval. subst p v.
    vm_compute in Htail. injection Htail as <- _. reflexivity.
Defined.

(** ** What the detector adds *)

Lemma detect_loop_outcome (detect : str -> JsSet.t -> M bool) (vm : JsMap.t str)
    (varName : str) (newPath : JsSet.t) :
  (forall n st r st', variableMap st = vm ->
     detect n newPath st = Some (r, st') -> walk_outcome vm n newPath st r st') ->
  forall matches st r st',
    variableMap st = vm ->
    detect_loop detect varName newPath matches st = Some (r, st') ->
    if r then
      exists ref chain hit,
        In ref (map (fun m => trim (group1 m)) matches)
        /\ descent vm ref newPath chain hit
        /\ circularRefs st' = JsSet.add (add_chain chain (circularRefs st)) varName
        /\ warnings st' = warnings st ++ [circular_message hit]
    else
      st' = st
      /\ forall ref chain hit,
           In ref (map (fun m => trim (group1 m)) matches) ->
           ~ descent vm ref newPath chain hit.
Proof.
  intros Hdet matches.
  induction matches as [|m rest IH]; intros st r st' Hst; cbn [detect_loop map].
  - unfold ret. intros H. injection H as <- <-. split; [reflexivity|].
    intros ref chain hit [].
  - unfold bind. destruct (detect _ _ st) as [[found st1]|] eqn:E; [|discriminate].
    apply Hdet in E; [|exact Hst]. destruct found.
    + intros H. injection H as <- <-.
      destruct E as (chain & hit & Hd & Hc & Hw).
      exists (trim (group1 m)), chain, hit. cbn [circularRefs warnings set_circularRefs].
      repeat split; [now left | exact Hd | now rewrite Hc | exact Hw].
    + destruct E as [-> Hno]. intros H. apply IH in H; [|exact Hst].
      destruct r.
      * destruct H as (ref & chain & hit & Hin & Hrest).
        exists ref, chain, hit. split; [now right | exact Hrest].
      * destruct H as [-> Hno']. split; [reflexivity|].
        intros ref chain hit [<- | Hin]; [apply Hno | now apply Hno'].
Qed.

Lemma detectCircular_outcome depth :
  forall varName path st r st',
    detectCircular depth varName path st = Some (r, st') ->
    walk_outcome (variableMap st) varName path st r st'.
Proof.
  induction depth as [|depth IH]; intros varName path st r st';
    cbn [detectCircular]; [discriminate|].
  destruct (JsSet.has path varName) eqn:Hhas.
  - intros H. injection H as <- <-. exists [varName], varName.
    repeat split. now constructor.
  - destruct (JsMap.get (variableMap st) varName) as [v|] eqn:Hget.
    + intros H.
      apply detect_loop_outcome with (vm := variableMap st) in H;
        [| intros n st0 r0 st0' Hst0 E; rewrite <- Hst0; now apply IH | reflexivity].
      destruct r.
      * destruct H as (ref & chain & hit & Hin & Hd & Hc & Hw).
        exists (varName :: chain), hit. repeat split; [|exact Hc|exact Hw].
        eapply descent_follow; eassumption.
      * destruct H as [-> Hno]. split; [reflexivity|].
        intros chain hit Hd. inversion Hd; subst; [congruence|].
        rewrite Hget in *. match goal with H : Some _ = Some _ |- _ =>
          injection H as <- end.
        eapply Hno; eassumption.
    + intros H. injection H as <- <-. split; [reflexivity|].
      intros chain hit Hd. inversion Hd; subst; congruence.
Qed.

Lemma add_chain_In (chain : list str) (s : JsSet.t) (n : str) :
  In n (add_chain chain s) <-> In n chain \/ In n s.
Proof.
  induction chain as [|x chain IH]; cbn [add_chain fold_right].
  - simpl. tauto.
  - fold (add_chain chain s). rewrite set_add_In, IH. simpl.
    split; [intros [[H|H]|H] | intros [[H|H]|H]]; auto.
Qed.

(** *** Descents and cycles of the reference graph *)

Lemma ref_walk_app (vm : JsMap.t str) (x y z : str) (w1 w2 : list str) :
  ref_walk vm x w1 y -> ref_walk vm y w2 z -> ref_walk vm x (w1 ++ w2) z.
Proof.
  induction 1 as [x | x y' w y Hr Hw IH]; intros H2; [exact H2|].
  cbn [app]. econstructor; [exact Hr | now apply IH].
Qed.

Lemma ref_walk_last (vm : JsMap.t str) (x z : str) (w : list str) :
  ref_walk vm x w z -> exists a, x :: w = a ++ [z].
Proof.
  induction 1 as [x | x y w z Hr Hw [a Ha]].
  - now exists [].
  - exists (x :: a). cbn [app]. now rewrite Ha.
Qed.

Lemma clos_trans_ref_walk (vm : JsMap.t str) (x y : str) :
  clos_trans str (refers_to vm) x y ->
  exists w, w <> [] /\ ref_walk vm x w y.
Proof.
  induction 1 as [x y Hr | x y z _ (w1 & Hn1 & H1) _ (w2 & Hn2 & H2)].
  - exists [y]. split; [discriminate|]. econstructor; [exact Hr | constructor].
  - exists (w1 ++ w2). split.
    + destruct w1; [contradiction | discriminate].
    + eapply ref_walk_app; eassumption.
Qed.

Lemma clos_refl_trans_ref_walk (vm : JsMap.t str) (x y : str) :
  clos_refl_trans str (refers_to vm) x y -> exists w, ref_walk vm x w y.
Proof.
  induction 1 as [x y Hr | x | x y z _ (w1 & H1) _ (w2 & H2)].
  - exists [y]. econstructor; [exact Hr | constructor].
  - exists []. constructor.
  - exists (w1 ++ w2). eapply ref_walk_app; eassumption.
Qed.

Lemma ref_walk_clos (vm : JsMap.t str) (x z : str) (w : list str) :
  ref_walk vm x w z -> clos_refl_trans str (refers_to vm) x z.
Proof.
  induction 1 as [x | x y w z Hr Hw IH]; [apply rt_refl|].
  eapply rt_trans; [apply rt_step; exact Hr | exact IH].
Qed.

(** A walk along references that meets a name twice, or a name of the
    path, contains a descent. *)
Lemma ref_walk_descent (vm : JsMap.t str) (w : list str) :
  forall x z path,
    NoDup path -> ref_walk vm x w z -> ~ NoDup (path ++ x :: w) ->
    exists chain hit, descent vm x path chain hit.
Proof.
  induction w as [|y w IH]; intros x z path Hnd Hw Hdup.
  - destruct (JsSet.has path x) eqn:Hhas.
    + exists [x], x. now constructor.
    + exfalso. apply Hdup. apply set_has_not_In in Hhas.
      apply NoDup_app; [assumption | repeat constructor; easy |].
      intros n Hn [<- | []]. contradiction.
  - destruct (JsSet.has path x) eqn:Hhas.
    + exists [x], x. now constructor.
    + inversion Hw as [|x' y' w' z' (v & Hget & Hin) Hw']; subst.
      destruct (IH y z (JsSet.add path x)) as (chain & hit & Hd).
      * rewrite (set_add_fresh _ _ Hhas). apply set_has_not_In in Hhas.
        apply NoDup_app; [assumption | repeat constructor; easy |].
        intros n Hn [<- | []]. contradiction.
      * exact Hw'.
      * rewrite (set_add_fresh _ _ Hhas), <- app_assoc. exact Hdup.
      * exists (x :: chain), hit. eapply descent_follow; eassumption.
Qed.

Lemma leads_to_cycle_descent (vm : JsMap.t str) (x : str) :
  leads_to_cycle vm x -> exists chain hit, descent vm x JsSet.empty chain hit.
Proof.
  intros (y & Hxy & Hyy).
  apply clos_refl_trans_ref_walk in Hxy as (w1 & H1).
  apply clos_trans_ref_walk in Hyy as (w2 & Hne & H2).
  apply (@ref_walk_descent vm (w1 ++ w2) x y []); [constructor | |].
  - eapply ref_walk_app; eassumption.
  - cbn [app]. destruct (ref_walk_last H1) as (a & Ha).
    destruct (ref_walk_last H2) as (b & Hb).
    destruct b as [|b0 b]; [destruct w2; [contradiction | discriminate]|].
    cbn [app] in Hb. injection Hb as _ Hb.
    rewrite app_comm_cons, Ha, Hb, <- app_assoc. cbn [app].
    intros Hnd. apply NoDup_remove_2 in Hnd. apply Hnd.
    rewrite in_app_iff. right. rewrite in_app_iff. right. now left.
Qed.

Lemma step_then_reach (vm : JsMap.t str) (x y z : str) :
  refers_to vm x y -> clos_refl_trans str (refers_to vm) y z ->
  clos_trans str (refers_to vm) x z.
Proof.
  intros Hxy Hyz. apply clos_rt_rtn1 in Hyz.
  induction Hyz as [|u z Huz _ IH]; [now apply t_step|].
  eapply t_trans; [exact IH | now apply t_step].
Qed.

(** A descent ends at a name of the path, or at a name that is on a
    cycle, which the start of the descent leads to. *)
Lemma descent_leads (vm : JsMap.t str) (x : str) (path : JsSet.t)
    (chain : list str) (hit : str) :
  descent vm x path chain hit ->
  clos_refl_trans str (refers_to vm) x hit /\ (In hit path \/ on_cycle vm hit).
Proof.
  induction 1 as [x path Hhas | x path v ref chain hit Hhas Hget Hin Hd [IH1 IH2]].
  - split; [apply rt_refl|]. left. now apply set_has_In.
  - assert (Hr : refers_to vm x ref) by (now exists v).
    split; [eapply rt_trans; [apply rt_step; exact Hr | exact IH1]|].
    destruct IH2 as [Hp | Hc]; [|now right].
    apply set_add_In in Hp as [Hp | ->]; [now left|]. right.
    eapply step_then_reach; eassumption.
Qed.

(** From an empty path, a descent exists exactly for the names that are
    on a cycle or lead to one. *)
Lemma descent_iff_leads_to_cycle (vm : JsMap.t str) (x : str) :
  (exists chain hit, descent vm x JsSet.empty chain hit) <-> leads_to_cycle vm x.
Proof.
  split; [|apply leads_to_cycle_descent].
  intros (chain & hit & Hd). apply descent_leads in Hd as [Hreach [[] | Hc]].
  now exists hit.
Qed.

(** Every name of a descent has an entry or is on the path, and leads to
    the name met again. *)
Lemma descent_chain (vm : JsMap.t str) (x : str) (path : JsSet.t)
    (chain : list str) (hit : str) :
  descent vm x path chain hit ->
  forall n, In n chain ->
    (In n (JsMap.keys vm) \/ In n path)
    /\ clos_refl_trans str (refers_to vm) n hit.
Proof.
  induction 1 as [x path Hhas | x path v ref chain hit Hhas Hget Hin Hd IH];
    intros n Hn.
  - destruct Hn as [<- | []]. split; [|apply rt_refl].
    right. now apply set_has_In.
  - pose proof (map_get_In_keys _ _ Hget) as Hkey.
    destruct Hn as [<- | Hn].
    + split; [now left|].
      apply rt_trans with ref; [|apply (descent_leads Hd)].
      apply rt_step. exists v. now split.
    + destruct (IH n Hn) as [[Hk | Hp] Hreach]; split; auto.
      apply set_add_In in Hp as [Hp | ->]; auto.
Qed.

Lemma descent_head (vm : JsMap.t str) (x : str) (path : JsSet.t)
    (chain : list str) (hit : str) :
  descent vm x path chain hit -> In x chain.
Proof. destruct 1; now left. Qed.

(** The set of circular names after the walks from the given names. *)
Lemma detect_all_outcome (names : list str) :
  forall st,
    exists st',
      detect_all names st = Some (tt, st')
      /\ variableMap st' = variableMap st
      /\ (forall n, In n (circularRefs st) -> In n (circularRefs st'))
      /\ (forall n, In n names -> leads_to_cycle (variableMap st) n ->
                    In n (circularRefs st'))
      /\ (forall n, In n (circularRefs st') ->
                    In n (circularRefs st)
                    \/ (In n (JsMap.keys (variableMap st))
                        /\ leads_to_cycle (variableMap st) n)).
Proof.
  induction names as [|x rest IH]; intros st; cbn [detect_all].
  - exists st. repeat split; auto. intros n [].
  - unfold bind.
    destruct (detectCircular_returns x st) as (r & st1 & E & Hmap). rewrite E.
    apply detectCircular_outcome in E. unfold walk_outcome in E.
    destruct (IH st1) as (st' & -> & Hmap' & Hmono & Hcomplete & Hsound).
    rewrite Hmap in *. exists st'. split; [reflexivity|]. split; [assumption|].
    destruct r.
    + destruct E as (chain & hit & Hd & Hc & _).
      assert (Hadd : forall n, In n (circularRefs st1) <->
                               In n chain \/ In n (circularRefs st))
        by (intros n; rewrite Hc; apply add_chain_In).
      repeat split.
      * intros n Hn. apply Hmono, Hadd. now right.
      * intros n [<- | Hn] Hl; [|now apply Hcomplete].
        apply Hmono, Hadd. left. eapply descent_head; exact Hd.
      * intros n Hn. apply Hsound in Hn as [Hn | Hn]; [|now right].
        apply Hadd in Hn as [Hn | Hn]; [|now left]. right.
        destruct (descent_chain Hd n Hn) as [[Hk | []] Hreach].
        split; [exact Hk|]. exists hit. split; [exact Hreach|].
        destruct (descent_leads Hd) as [_ [[] | Hcyc]]. exact Hcyc.
    + destruct E as [-> Hno]. repeat split.
      * exact Hmono.
      * intros n [<- | Hn] Hl; [|now apply Hcomplete].
        exfalso. apply leads_to_cycle_descent in Hl as (chain & hit & Hd).
        now apply Hno in Hd.
      * exact Hsound.
Qed.

Lemma map_get_In (V : Type) (m : JsMap.t V) (k : str) (v : V) :
  JsMap.get m k = Some v -> In (k, v) m.
Proof.
  induction m as [|[k' v'] m IH]; simpl; [discriminate|].
  destruct (str_eqb k' k) eqn:E.
  - apply str_eqb_eq in E. intros H. injection H as <-. left. now subst.
  - intros H. right. now apply IH.
Qed.

Lemma tail_state_targets (x y : str) :
  clos_trans str (refers_to (variableMap tail_state)) x y ->
  y = lit "--a" \/ y = lit "--b".
Proof.
  induction 1 as [x y (v & Hget & Hin) | x y z _ _ _ IH]; [|exact IH].
  apply map_get_In in Hget.
  destruct Hget as [H | [H | [H | []]]]; injection H as _ <-;
    vm_compute in Hin; destruct Hin as [<- | []]; auto.
Qed.

(** The claim C3 as stated fails: in
    [--c: var(--a); --a: var(--b); --b: var(--a);] the variable [--c]
    refers to [--a], which is on a cycle, and is on no cycle itself;
    the walk from [--c] meets [--a] again and adds [--c] as well. *)
Lemma variable_leading_into_cycle_is_added :
  exists st',
    detectCircular (depth_bound tail_state) (lit "--c") JsSet.empty tail_state
    = Some (true, st')
    /\ refers_to (variableMap tail_state) (lit "--c") (lit "--a")
    /\ on_cycle (variableMap tail_state) (lit "--a")
    /\ ~ on_cycle (variableMap tail_state) (lit "--c")
    /\ circularRefs st' = [lit "--a"; lit "--b"; lit "--c"].
Proof.
  eexists. split; [vm_compute; reflexivity|]. split; [|split; [|split]].
  - exists (lit "var(--a)"). split; [reflexivity | vm_compute; now left].
  - apply t_trans with (lit "--b"); apply t_step.
    + exists (lit "var(--b)"). split; [reflexivity | vm_compute; now left].
    + exists (lit "var(--a)"). split; [reflexivity | vm_compute; now left].
  - intros H. apply tail_state_targets in H as [H | H]; vm_compute in H; discriminate.
  - reflexivity.
Qed.

(** C3 (amended).  A walk of the detector from any variable, in any
    store, returns.  It reports a cycle exactly when the variable is on
    a cycle or leads to one, that is when, following references, the
    walk comes down to a name already on its path; it then adds to the
    set every name of that descent, from the variable the walk started
    at down to the name met again (each call whose nested walk reports
    a cycle adds its own name), so a variable that only leads into a
    cycle is added too; and it warns once, naming the name met again.
    A walk that reports nothing changes nothing. *)
Theorem detector_adds_whole_path (st : state) (varName : str) :
  exists r st',
    detectCircular (depth_bound st) varName JsSet.empty st = Some (r, st')
    /\ (r = true <-> leads_to_cycle (variableMap st) varName)
    /\ if r then
         exists chain hit,
           descent (variableMap st) varName JsSet.empty chain hit
           /\ circularRefs st' = add_chain chain (circularRefs st)
           /\ (forall n, In n chain -> In n (circularRefs st'))
           /\ warnings st' = warnings st ++ [circular_message hit]
       else st' = st.
Proof.
  destruct (detectCircular_returns varName st) as (r & st' & E & _).
  exists r, st'. split; [exact E|].
  apply detectCircular_outcome in E. unfold walk_outcome in E.
  rewrite <- descent_iff_leads_to_cycle. destruct r.
  - destruct E as (chain & hit & Hd & Hc & Hw). split.
    + split; [intros _; now exists chain, hit | reflexivity].
    + exists chain, hit. repeat split; try assumption.
      intros n Hn. rewrite Hc. apply add_chain_In. now left.
  - destruct E as [-> Hno]. split; [|reflexivity].
    split; [discriminate|]. intros (chain & hit & Hd). now apply Hno in Hd.
Qed.

(** After the walks from every key of the mapping, started with an
    empty set as [Once] does, the set of circular names holds exactly
    the variables of the mapping that are on a cycle or lead to one. *)
Lemma circular_names_after_detection (st : state) :
  exists st',
    detect_all (JsMap.keys (variableMap st)) (set_circularRefs JsSet.empty st)
    = Some (tt, st')
    /\ forall n,
         In n (circularRefs st') <->
         In n (JsMap.keys (variableMap st)) /\ leads_to_cycle (variableMap st) n.
Proof.
  destruct (detect_all_outcome (JsMap.keys (variableMap st))
              (set_circularRefs JsSet.empty st))
    as (st' & E & _ & _ & Hcomplete & Hsound).
  exists st'. split; [exact E|]. intros n. split.
  - intros Hn. apply Hsound in Hn as [[] | Hn]. exact Hn.
  - intros [Hk Hl]. now apply Hcomplete.
Qed.

(** ** The resolver and circular names *)

(** The claim C2 as stated fails: for [--a: var(--b); --b: var(--a);]
    the detection puts [--a], which is on a cycle, in the set of
    circular names, and the resolver called on [--a] returns the string
    [var(--a)]. *)
Lemma resolver_returns_string_for_circular_name :
  exists st1 st2,
    detect_all (JsMap.keys (variableMap cycle_state)) cycle_state = Some (tt, st1)
    /\ In (lit "--a") (circularRefs st1)
    /\ on_cycle (variableMap st1) (lit "--a")
    /\ resolveVariable (depth_bound st1) true (lit "--a") JsSet.empty st1
       = Some (Some (lit "var(--a)"), st2).
Proof.
  eexists _, _. split; [vm_compute; reflexivity|]. split; [now left|]. split.
  - apply t_trans with (lit "--b"); apply t_step.
    + exists (lit "var(--b)"). split; [reflexivity | vm_compute; now left].
    + exists (lit "var(--a)"). split; [reflexivity | vm_compute; now left].
  - vm_compute. reflexivity.
Qed.

Lemma set_has_add (s : JsSet.t) (k : str) : JsSet.has (JsSet.add s k) k = true.
Proof. apply set_has_In, set_add_In. now right. Qed.

(** C2 (amended).  The resolver does not consult the set of circular
    names.  It returns [null], after a circular-reference warning on
    the [Result] it was given, for every name that is on the resolution
    path of the call.  Called with an empty path it returns, and
    returns [null] only for a name without an entry: for a name that
    has one, circular or not, it returns a string.  Names of the set of
    circular names do not reach the resolver from the rewriter: the
    step of the loop appends such an occurrence as it was, calls
    nothing and leaves the store as it is, and the occurrence stands
    unchanged in the value the callback leaves. *)
Theorem resolver_null_on_path_rewriter_skips_circular :
  (forall depth result varName resolving st,
      resolveVariable (S depth) result varName (JsSet.add resolving varName) st
      = Some (None, if result then warn (circular_message varName) st else st))
  /\ (forall result varName st, exists r st',
      resolveVariable (depth_bound st) result varName JsSet.empty st = Some (r, st')
      /\ (r = None <-> JsMap.get (variableMap st) varName = None))
  /\ (forall d st m after lv1 st1,
      reaches st (value d) m after lv1 st1 ->
      JsSet.has (circularRefs st) (trim (group1 m)) = true ->
      rewrite_step (value d) m lv1 st1
      = Some (mkLoop (text_before (value d) lv1 m ++ fullMatch m)
                     (index m + length (fullMatch m)) (modified lv1), st1)
      /\ exists tail st3 d',
          text_after (value d) m after st1 = Some (tail, st3)
          /\ rewrite_decl d st = Some (d', st3)
          /\ prop d' = prop d
          /\ value d' = text_before (value d) lv1 m ++ fullMatch m ++ tail).
Proof.
  split; [|split].
  - intros depth result varName resolving st. cbn [resolveVariable].
    now rewrite set_has_add.
  - intros result varName st.
    destruct (resolveVariable_returns result varName st) as (r & st' & E & _).
    exists r, st'. split; [exact E|].
    unfold depth_bound in E. cbn [resolveVariable JsSet.has JsSet.empty existsb] in E.
    destruct (JsMap.get (variableMap st) varName) as [v|].
    + destruct (JsMap.get (variableCache st) _) as [cached|].
      * injection E as <- _. split; discriminate.
      * destruct (resolve_loop _ _ _ _ st) as [[rv st1]|]; [|discriminate].
        injection E as <- _. split; discriminate.
    + injection E as <- _. now split.
  - intros d st m after lv1 st1 Hreach Hcirc.
    destruct (reaches_frame Hreach) as (_ & Hc & _). rewrite <- Hc in Hcirc.
    assert (Hstep : rewrite_step (value d) m lv1 st1
                    = Some (mkLoop (text_before (value d) lv1 m ++ fullMatch m)
                                   (index m + length (fullMatch m)) (modified lv1), st1)).
    { unfold rewrite_step, text_before. now rewrite Hcirc. }
    split; [exact Hstep|].
    eapply occurrence_output; [exact Hreach | exact Hstep | reflexivity].
Qed.

Lemma resolver_null_on_path_rewriter_skips_circular_witness :
  exists st3,
    rewrite_decl (decl_of "color" "var(--a)")
      (set_circularRefs [lit "--a"; lit "--b"] cycle_state)
    = Some (decl_of "color" "var(--a)", st3).
Proof.
  pose (d := decl_of "color" "var(--a)").
  pose (st := set_circularRefs [lit "--a"; lit "--b"] cycle_state).
  pose (m := mkMatch (lit "var(--a)") (lit "--a") None 0).
  destruct resolver_null_on_path_rewriter_skips_circular as (_ & _ & Hskip).
  destruct (Hskip d st m [] (mkLoop [] 0 false) st)
    as (_ & tail & st3 & d' & Htail & Hdecl & Hprop & Hval).
  - exists []. split; reflexivity.
  - reflexivity.
  - exists st3. subst d st m. rewrite Hdecl. do 2 f_equal.
    destruct d' as [p v]. cbn [prop value] in Hprop, Hval. subst p v.
    vm_compute in Htail. injection Htail as <- _. reflexivity.
Defined.

(** ** Running the transform on its own output *)

(** C5 (the code departs from it).  With [--c: rgba(0,0,0,.5)] in the
    source, a first run turns [color: var(--c)] into
    [color: var(--c, rgba(0,0,0,.5))]; a second run with the same
    configuration, on that output and with the caches the first run
    left, matches the occurrence only up to the first closing
    parenthesis and writes [color: var(--c, rgba(0,0,0,.5)))], one
    closing parenthesis more: the second run is no no-op. *)
Theorem second_run_appends_parenthesis :
  exists st1 st2,
    run rgba_env (JsArray [lit "vars.css"]) [decl_of "color" "var(--c)"] [] []
    = Some ([decl_of "color" "var(--c, rgba(0,0,0,.5))"], st1)
    /\ run rgba_env (JsArray [lit "vars.css"])
         [decl_of "color" "var(--c, rgba(0,0,0,.5))"]
         (fileCache st1) (variableCache st1)
       = Some ([decl_of "color" "var(--c, rgba(0,0,0,.5)))"], st2)
    /\ decl_of "color" "var(--c, rgba(0,0,0,.5)))"
       <> decl_of "color" "var(--c, rgba(0,0,0,.5))".
Proof.
  eexists _, _. split; [vm_compute; reflexivity|]. split; [vm_compute; reflexivity|].
  vm_compute. discriminate.
Qed.

(** * Further properties of the code *)

(** ** [Map] lookups after [set] *)

Lemma map_get_set_same (V : Type) (m : JsMap.t V) (k : str) (v : V) :
  JsMap.get (JsMap.set m k v) k = Some v.
Proof.
  induction m as [|[k' v'] m IH]; simpl.
  - now rewrite str_eqb_refl.
  - destruct (str_eqb k' k) eqn:E; simpl; rewrite E; [reflexivity | exact IH].
Qed.

Lemma map_get_set_other (V : Type) (m : JsMap.t V) (k k' : str) (v : V) :
  k <> k' -> JsMap.get (JsMap.set m k v) k' = JsMap.get m k'.
Proof.
  intros Hne. induction m as [|[k0 v0] m IH]; simpl.
  - apply str_eqb_neq in Hne. now rewrite Hne.
  - destruct (str_eqb k0 k) eqn:E; simpl.
    + apply str_eqb_eq in E. subst k0. apply str_eqb_neq in Hne. now rewrite Hne.
    + destruct (str_eqb k0 k'); [reflexivity | exact IH].
Qed.

Lemma map_get_set (V : Type) (m : JsMap.t V) (k k' : str) (v : V) :
  JsMap.get (JsMap.set m k v) k' = if str_eqb k k' then Some v else JsMap.get m k'.
Proof.
  destruct (str_eqb k k') eqn:E.
  - apply str_eqb_eq in E. subst. apply map_get_set_same.
  - apply str_eqb_neq in E. now apply map_get_set_other.
Qed.

Lemma map_keys_set (V : Type) (m : JsMap.t V) (k : str) (v : V) :
  JsMap.keys (JsMap.set m k v)
  = if JsMap.has m k then JsMap.keys m else JsMap.keys m ++ [k].
Proof.
  unfold JsMap.has, JsMap.keys. induction m as [|[k' v'] m IH]; [reflexivity|].
  cbn [JsMap.set JsMap.get]. destruct (str_eqb k' k) eqn:E; cbn [map fst]; [reflexivity|].
  rewrite IH. now destruct (JsMap.get m k).
Qed.

Lemma map_has_In_keys (V : Type) (m : JsMap.t V) (k : str) :
  JsMap.has m k = true <-> In k (JsMap.keys m).
Proof.
  unfold JsMap.has. induction m as [|[k' v'] m IH]; simpl; [split; [discriminate | easy]|].
  destruct (str_eqb k' k) eqn:E.
  - apply str_eqb_eq in E. split; auto.
  - apply str_eqb_neq in E. rewrite IH. split; [now right | intros [H | H]; easy].
Qed.

Lemma map_set_NoDup (V : Type) (m : JsMap.t V) (k : str) (v : V) :
  NoDup (JsMap.keys m) -> NoDup (JsMap.keys (JsMap.set m k v)).
Proof.
  intros Hnd. rewrite map_keys_set. destruct (JsMap.has m k) eqn:E; [assumption|].
  apply NoDup_app; [assumption | repeat constructor; easy |].
  intros x Hx [<- | []]. apply map_has_In_keys in Hx. congruence.
Qed.

(** ** [extractVariables] *)

Lemma extract_fold_get (r : root) :
  forall acc k,
    JsMap.get
      (fold_left
         (fun variables d =>
            if startsWith (prop d) (lit "--")
            then JsMap.set variables (prop d) (value d)
            else variables) r acc) k
    = match last_declared r k with
      | Some v => Some v
      | None => JsMap.get acc k
      end.
Proof.
  induction r as [|d rest IH]; intros acc k; cbn [fold_left last_declared]; [reflexivity|].
  rewrite IH. destruct (last_declared rest k) as [v|]; [reflexivity|].
  unfold is_custom. destruct (startsWith (prop d) (lit "--")); cbn [andb]; [|reflexivity].
  rewrite map_get_set. now destruct (str_eqb (prop d) k).
Qed.

Lemma extract_fold_NoDup (r : root) :
  forall acc,
    NoDup (JsMap.keys acc) ->
    NoDup (JsMap.keys
             (fold_left
                (fun variables d =>
                   if startsWith (prop d) (lit "--")
                   then JsMap.set variables (prop d) (value d)
                   else variables) r acc)).
Proof.
  induction r as [|d rest IH]; intros acc Hnd; cbn [fold_left]; [assumption|].
  apply IH. destruct (startsWith (prop d) (lit "--")); [now apply map_set_NoDup | assumption].
Qed.

Lemma extractVariables_NoDup (r : root) : NoDup (JsMap.keys (extractVariables r)).
Proof. apply extract_fold_NoDup. constructor. Qed.

Lemma last_declared_custom (r : root) (k v : str) :
  last_declared r k = Some v -> startsWith k (lit "--") = true.
Proof.
  induction r as [|d rest IH]; cbn [last_declared]; [discriminate|].
  destruct (last_declared rest k) as [v'|]; [intros H; now apply IH|].
  unfold is_custom. destruct (startsWith (prop d) (lit "--")) eqn:E; cbn [andb]; [|discriminate].
  destruct (str_eqb (prop d) k) eqn:Ek; [|discriminate].
  apply str_eqb_eq in Ek. now subst.
Qed.

Lemma extractVariables_get (r : root) (k : str) :
  JsMap.get (extractVariables r) k = last_declared r k.
Proof.
  unfold extractVariables. rewrite extract_fold_get. now destruct (last_declared r k).
Qed.

(** X1.  In the mapping that [extractVariables] builds from a sheet, a
    name is bound to the value of its last declaration in document
    order among the declarations of custom properties; other
    declarations are left out, so every key starts with [--], and no
    key occurs twice. *)
Theorem extractVariables_last_declaration_wins (r : root) :
  (forall k, JsMap.get (extractVariables r) k = last_declared r k)
  /\ NoDup (JsMap.keys (extractVariables r))
  /\ (forall k, In k (JsMap.keys (extractVariables r)) ->
                startsWith k (lit "--") = true).
Proof.
  split; [apply extractVariables_get|]. split; [apply extractVariables_NoDup|].
  intros k Hk. apply map_has_In_keys in Hk. unfold JsMap.has in Hk.
  rewrite extractVariables_get in Hk. destruct (last_declared r k) as [v|] eqn:E; [|discriminate].
  eapply last_declared_custom; exact E.
Qed.

(** ** Merging a sheet into the mapping *)

Lemma merge_fold_get (fv : JsMap.t str) :
  forall vm k,
    NoDup (JsMap.keys fv) ->
    JsMap.get (merge_into vm fv) k
    = match JsMap.get fv k with
      | Some v => Some v
      | None => JsMap.get vm k
      end.
Proof.
  unfold merge_into, JsMap.entries.
  induction fv as [|[k0 v0] rest IH]; intros vm k Hnd; cbn [fold_left JsMap.get fst snd];
    [reflexivity|].
  inversion Hnd as [|? ? Hnotin Hnd']; subst.
  rewrite IH by assumption. rewrite map_get_set.
  destruct (str_eqb k0 k) eqn:E; [|reflexivity].
  apply str_eqb_eq in E. subst k0.
  destruct (JsMap.get rest k) as [v|] eqn:Eg; [|reflexivity].
  apply map_get_In_keys in Eg. contradiction.
Qed.

Lemma merge_into_extracted_get (vm : JsMap.t str) (r : root) (k : str) :
  JsMap.get (merge_into vm (extractVariables r)) k
  = match last_declared r k with
    | Some v => Some v
    | None => JsMap.get vm k
    end.
Proof.
  rewrite merge_fold_get by apply extractVariables_NoDup.
  now rewrite extractVariables_get.
Qed.

(** X2.  Merging the variables extracted from a sheet into the mapping
    (the [forEach] of [Once]) overrides the entries of the names the
    sheet declares, with the sheet's last declaration of each, and
    keeps every other entry. *)
Theorem merge_overrides_declared_names (vm : JsMap.t str) (r : root) (k : str) :
  JsMap.get (merge_into vm (extractVariables r)) k
  = match last_declared r k with
    | Some v => Some v
    | None => JsMap.get vm k
    end.
Proof.
  rewrite merge_fold_get by apply extractVariables_NoDup.
  now rewrite extractVariables_get.
Qed.

(** ** Loading the configured sources *)

Lemma cleared_cache_agrees (e : env) (st : state) : cache_agrees e (cleared st).
Proof. intros p r H. discriminate. Qed.

(** What [loadCssFile] returns when the cache holds nothing that the
    file system does not say. *)
Lemma loadCssFile_agrees (e : env) (p : str) (st : state) :
  cache_agrees e st ->
  match read_parse e p with
  | Parsed r => fst (loadCssFile e p st) = inl r
  | Threw message => loadCssFile e p st = (inr message, st)
  end
  /\ cache_agrees e (snd (loadCssFile e p st))
  /\ variableMap (snd (loadCssFile e p st)) = variableMap st
  /\ warnings (snd (loadCssFile e p st)) = warnings st
  /\ circularRefs (snd (loadCssFile e p st)) = circularRefs st.
Proof.
  intros Hag. unfold loadCssFile.
  destruct (JsMap.get (fileCache st) p) as [r|] eqn:Ec.
  - rewrite (Hag _ _ Ec). now repeat split.
  - destruct (read_parse e p) as [r|message] eqn:Er; cbn [fst snd]; repeat split; auto.
    intros p' r'. cbn [fileCache set_fileCache]. rewrite map_get_set.
    destruct (str_eqb p p') eqn:E.
    + apply str_eqb_eq in E. subst p'. intros H. now injection H as <-.
    + apply Hag.
Qed.

Lemma load_fallback_agrees (e : env) (p : str) (st : state) :
  cache_agrees e st ->
  cache_agrees e (load_fallback e p st)
  /\ (forall k,
        JsMap.get (variableMap (load_fallback e p st)) k
        = match source_value e p k with
          | Some v => Some v
          | None => JsMap.get (variableMap st) k
          end)
  /\ warnings (load_fallback e p st)
     = warnings st ++ load_warnings e [p]
  /\ circularRefs (load_fallback e p st) = circularRefs st.
Proof.
  intros Hag. unfold load_fallback, source_value. cbn [load_warnings].
  fold (absolute_path e p).
  destruct (loadCssFile_agrees (absolute_path e p) Hag) as (Hres & Hag' & Hmap & Hw & Hc).
  destruct (loadCssFile e (absolute_path e p) st) as [[fallbackRoot | message] st'] eqn:El;
    cbn [fst snd] in *;
    destruct (read_parse e (absolute_path e p)) as [r | msg]; try discriminate.
  - injection Hres as ->. repeat split.
    + exact Hag'.
    + intros k. cbn [variableMap set_variableMap].
      rewrite Hmap. apply merge_into_extracted_get.
    + cbn [warnings set_variableMap]. now rewrite Hw, app_nil_r.
    + cbn [circularRefs set_variableMap]. exact Hc.
  - injection Hres as -> ->. repeat split; auto.
Qed.

Lemma load_fallbacks_agrees (e : env) (fallbacks : list str) :
  forall st,
    cache_agrees e st ->
    cache_agrees e (load_fallbacks e fallbacks st)
    /\ (forall k,
          JsMap.get (variableMap (load_fallbacks e fallbacks st)) k
          = match configured_value e fallbacks k with
            | Some v => Some v
            | None => JsMap.get (variableMap st) k
            end)
    /\ warnings (load_fallbacks e fallbacks st)
       = warnings st ++ load_warnings e fallbacks
    /\ circularRefs (load_fallbacks e fallbacks st) = circularRefs st.
Proof.
  unfold load_fallbacks.
  induction fallbacks as [|p rest IH]; intros st Hag; cbn [fold_left].
  - repeat split; auto. cbn [load_warnings]. now rewrite app_nil_r.
  - destruct (load_fallback_agrees p Hag) as (Hag1 & Hget1 & Hw1 & Hc1).
    destruct (IH _ Hag1) as (Hag2 & Hget2 & Hw2 & Hc2).
    repeat split.
    + exact Hag2.
    + intros k. rewrite Hget2, Hget1. cbn [configured_value].
      now destruct (configured_value e rest k).
    + rewrite Hw2, Hw1, <- app_assoc. f_equal. cbn [load_warnings].
      now destruct (read_parse e (absolute_path e p)).
    + now rewrite Hc2.
Qed.

(** X3.  The mapping a run builds from the configured sources binds a
    name to the value that the last source, in configured order, that
    loads and declares the name gives it (the last declaration in that
    source); a name that no loadable source declares has no entry.  A
    source that fails to load takes no part, and what the caches and the
    mapping held before the run plays none. *)
Theorem merged_mapping_last_source_wins (e : env) (fallbacks : list str)
    (st : state) (k : str) :
  JsMap.get (variableMap (load_fallbacks e fallbacks (cleared st))) k
  = configured_value e fallbacks k.
Proof.
  destruct (@load_fallbacks_agrees e fallbacks (cleared st) (@cleared_cache_agrees e st))
    as (_ & Hget & _).
  rewrite Hget. now destruct (configured_value e fallbacks k).
Qed.

(** X4.  Loading the configured sources adds one warning for each
    source that fails to load, in configured order, with the text
    [Error processing fallback file <path>: <message>], and none for a
    source that loads; it adds nothing to the set of circular names. *)
Theorem failing_sources_warn_once_each (e : env) (fallbacks : list str)
    (st : state) :
  warnings (load_fallbacks e fallbacks (cleared st))
  = warnings st ++ load_warnings e fallbacks
  /\ circularRefs (load_fallbacks e fallbacks (cleared st)) = circularRefs st.
Proof.
  destruct (@load_fallbacks_agrees e fallbacks (cleared st) (@cleared_cache_agrees e st))
    as (_ & _ & Hw & Hc).
  split; assumption.
Qed.

(** X5.  [loadCssFile] caches what it parses: once a path has been
    loaded, loading it again returns the same root and leaves the store
    as it is, without reading the file; a path whose loading throws
    leaves the store unchanged, so nothing is cached for it. *)
Theorem loadCssFile_caches_parsed_roots (e : env) (p : str) (st : state) :
  match loadCssFile e p st with
  | (inl r, st1) => loadCssFile e p st1 = (inl r, st1)
                    /\ JsMap.get (fileCache st1) p = Some r
  | (inr _, st1) => st1 = st
  end.
Proof.
  unfold loadCssFile at 1.
  destruct (JsMap.get (fileCache st) p) as [r|] eqn:Ec.
  - unfold loadCssFile. now rewrite Ec.
  - destruct (read_parse e p) as [r|message]; [|reflexivity].
    unfold loadCssFile. cbn [fileCache set_fileCache].
    now rewrite map_get_set_same.
Qed.

(** ** Declarations the rewriter leaves alone *)

Lemma rewrite_step_kept (v : str) (m : rmatch) (lv : loop_vars) (st : state) :
  JsMap.get (variableMap st) (trim (group1 m)) = None
  \/ JsSet.has (circularRefs st) (trim (group1 m)) = true ->
  exists lv', rewrite_step v m lv st = Some (lv', st) /\ modified lv' = modified lv.
Proof.
  intros H. unfold rewrite_step.
  destruct (JsSet.has (circularRefs st) _) eqn:Hc; [now eexists|].
  destruct H as [Hget | H]; [|discriminate].
  unfold depth_bound. cbn [resolveVariable JsSet.has JsSet.empty existsb].
  rewrite Hget. now eexists.
Qed.

Lemma rewrite_loop_kept (v : str) (matches : list rmatch) :
  forall lv st,
    (forall m, In m matches ->
       JsMap.get (variableMap st) (trim (group1 m)) = None
       \/ JsSet.has (circularRefs st) (trim (group1 m)) = true) ->
    exists lv', rewrite_loop v matches lv st = Some (lv', st)
                /\ modified lv' = modified lv.
Proof.
  induction matches as [|m rest IH]; intros lv st H; cbn [rewrite_loop].
  - now exists lv.
  - unfold bind.
    destruct (@rewrite_step_kept v m lv st) as (lv1 & -> & Hmod); [apply H; now left|].
    destruct (IH lv1 st) as (lv' & -> & Hmod'); [intros m' Hm'; apply H; now right|].
    exists lv'. split; [reflexivity | congruence].
Qed.

Lemma rewrite_decl_kept (d : decl) (st : state) :
  (forall m, In m (exec_all (value d)) ->
     JsMap.get (variableMap st) (trim (group1 m)) = None
     \/ JsSet.has (circularRefs st) (trim (group1 m)) = true) ->
  rewrite_decl d st = Some (d, st).
Proof.
  intros H. unfold rewrite_decl, bind, ret.
  destruct (@rewrite_loop_kept (value d) (exec_all (value d)) (mkLoop [] 0 false) st H)
    as (lv & -> & Hmod).
  cbn [modified] in Hmod. now rewrite Hmod.
Qed.

Lemma walkDecls_kept (r : root) (st : state) :
  (forall d m, In d r -> In m (exec_all (value d)) ->
     JsMap.get (variableMap st) (trim (group1 m)) = None
     \/ JsSet.has (circularRefs st) (trim (group1 m)) = true) ->
  walkDecls r st = Some (r, st).
Proof.
  induction r as [|d rest IH]; intros H; cbn [walkDecls]; [reflexivity|].
  unfold bind, ret.
  rewrite rewrite_decl_kept by (intros m Hm; apply (H d m); [now left | exact Hm]).
  rewrite IH by (intros d' m Hd Hm; apply (H d' m); [right; exact Hd | exact Hm]).
  reflexivity.
Qed.

(** X6.  A document in which every occurrence names a variable that has
    no entry in the mapping or that is in the set of circular names
    (in particular a document without any [var()]) is returned as it
    is by the rewriter, no declaration assigned, and the store is left
    as it was: no cache entry, no warning. *)
Theorem document_without_resolvable_names_untouched (r : root) (st : state) :
  (forall d m, In d r -> In m (exec_all (value d)) ->
     JsMap.get (variableMap st) (trim (group1 m)) = None
     \/ JsSet.has (circularRefs st) (trim (group1 m)) = true) ->
  walkDecls r st = Some (r, st).
Proof.
  induction r as [|d rest IH]; intros H; cbn [walkDecls]; [reflexivity|].
  unfold bind, ret.
  rewrite rewrite_decl_kept by (intros m Hm; apply (H d m); [now left | exact Hm]).
  rewrite IH by (intros d' m Hd Hm; apply (H d' m); [right; exact Hd | exact Hm]).
  reflexivity.
Qed.

Lemma document_without_resolvable_names_untouched_witness :
  walkDecls [decl_of "color" "blue"; decl_of "margin" "var(--gap) var(--a, 1px)"]
            (set_circularRefs [lit "--a"; lit "--b"] cycle_state)
  = Some ([decl_of "color" "blue"; decl_of "margin" "var(--gap) var(--a, 1px)"],
          set_circularRefs [lit "--a"; lit "--b"] cycle_state).
Proof.
  apply document_without_resolvable_names_untouched.
  intros d m [<- | [<- | []]] Hm; vm_compute in Hm.
  - destruct Hm.
  - destruct Hm as [<- | [<- | []]]; [left | right]; vm_compute; reflexivity.
Defined.

(** The rewriter assigns values only: the declarations keep their
    number, their order and their properties. *)
Lemma rewrite_decl_prop (d : decl) (st : state) :
  exists d' st', rewrite_decl d st = Some (d', st') /\ prop d' = prop d.
Proof.
  destruct (rewrite_decl_returns d st) as (d' & st' & E & _).
  exists d', st'. split; [exact E|].
  now destruct (rewrite_decl_value _ _ E) as (_ & _ & Hp & _).
Qed.

(** X7.  The rewriter changes values only: for every document and every
    store it returns a document with as many declarations, in the same
    order and with the same properties. *)
Theorem rewriter_keeps_properties (r : root) :
  forall st, exists r' st',
    walkDecls r st = Some (r', st') /\ map prop r' = map prop r.
Proof.
  induction r as [|d rest IH]; intros st; cbn [walkDecls].
  - now exists [], st.
  - unfold bind, ret. destruct (rewrite_decl_prop d st) as (d' & st1 & -> & Hp).
    destruct (IH st1) as (r' & st' & -> & Hr).
    exists (d' :: r'), st'. split; [reflexivity|]. cbn [map]. now rewrite Hp, Hr.
Qed.

(** ** Runs that find nothing to resolve *)

Lemma process_unfold (e : env) (fallbacks : list str) (r : root) (st : state) :
  exists st3,
    detect_all (JsMap.keys (variableMap (load_fallbacks e fallbacks (cleared st))))
      (set_circularRefs JsSet.empty (load_fallbacks e fallbacks (cleared st)))
    = Some (tt, st3)
    /\ variableMap st3 = variableMap (load_fallbacks e fallbacks (cleared st))
    /\ process e fallbacks r st = walkDecls r st3.
Proof.
  destruct (detect_all_outcome
              (JsMap.keys (variableMap (load_fallbacks e fallbacks (cleared st))))
              (set_circularRefs JsSet.empty (load_fallbacks e fallbacks (cleared st))))
    as (st3 & E & Hmap & _).
  exists st3. split; [exact E|]. split; [exact Hmap|].
  unfold process, bind. cbn [variableMap set_circularRefs] in *. now rewrite E.
Qed.

(** X8.  When no configured source that loads declares any of the names
    the document refers to, the run returns the document as it received
    it, whatever else the sources declare. *)
Theorem sources_without_the_names_leave_document (e : env) (fallbacks : list str)
    (r : root) (st : state) :
  (forall d m, In d r -> In m (exec_all (value d)) ->
     configured_value e fallbacks (trim (group1 m)) = None) ->
  exists st', Once e (JsArray fallbacks) r st = Some (r, st').
Proof.
  intros H. unfold Once, fallbacks_of, as_array.
  destruct (length fallbacks =? 0); [now eexists|].
  destruct (process_unfold e fallbacks r st) as (st3 & _ & Hmap & ->).
  exists st3. apply walkDecls_kept. intros d m Hd Hm. left.
  rewrite Hmap.
  destruct (@load_fallbacks_agrees e fallbacks (cleared st) (@cleared_cache_agrees e st))
    as (_ & Hget & _).
  rewrite Hget, (H d m Hd Hm). reflexivity.
Qed.

Lemma sources_without_the_names_leave_document_witness :
  exists st',
    Once rgba_env (JsArray [lit "vars.css"; lit "missing.css"])
         [decl_of "color" "var(--color, red)"] (initial_state [] [])
    = Some ([decl_of "color" "var(--color, red)"], st').
Proof.
  apply sources_without_the_names_leave_document.
  intros d m [<- | []] Hm. vm_compute in Hm. destruct Hm as [<- | []].
  vm_compute. reflexivity.
Defined.

Lemma load_fallbacks_all_throw (e : env) (fallbacks : list str) :
  forall st,
    cache_agrees e st ->
    (forall p, In p fallbacks ->
       exists message, read_parse e (absolute_path e p) = Threw message) ->
    variableMap (load_fallbacks e fallbacks st) = variableMap st.
Proof.
  unfold load_fallbacks.
  induction fallbacks as [|p rest IH]; intros st Hag Hall; cbn [fold_left]; [reflexivity|].
  destruct (Hall p (or_introl eq_refl)) as (message & Hthrow).
  destruct (load_fallback_agrees p Hag) as (Hag1 & _).
  rewrite IH; [|exact Hag1 | intros p' Hp'; apply Hall; now right].
  unfold load_fallback. fold (absolute_path e p).
  destruct (loadCssFile_agrees (absolute_path e p) Hag) as (Hres & _).
  rewrite Hthrow in Hres. now rewrite Hres.
Qed.

(** X9.  When every configured source fails to load, the run returns the
    document as it received it; the mapping is empty, and the warnings
    of the run are those of the sources, one each in configured order:
    nothing is thrown and nothing else is reported. *)
Theorem missing_sources_leave_document (e : env) (fallbacks : list str)
    (r : root) (st : state) :
  fallbacks <> [] ->
  (forall p, In p fallbacks ->
     exists message, read_parse e (absolute_path e p) = Threw message) ->
  exists st',
    Once e (JsArray fallbacks) r st = Some (r, st')
    /\ variableMap st' = []
    /\ warnings st' = warnings st ++ load_warnings e fallbacks.
Proof.
  intros Hne Hall. unfold Once, fallbacks_of, as_array.
  destruct fallbacks as [|p ps]; [contradiction|]. cbn [length Nat.eqb].
  pose proof (@load_fallbacks_all_throw e (p :: ps) (cleared st)
                (@cleared_cache_agrees e st) Hall) as Hmap.
  change (variableMap (cleared st)) with (@nil (str * str)) in Hmap.
  destruct (@load_fallbacks_agrees e (p :: ps) (cleared st) (@cleared_cache_agrees e st))
    as (_ & _ & Hw & _).
  change (warnings (cleared st)) with (warnings st) in Hw.
  destruct (process_unfold e (p :: ps) r st) as (st3 & Edet & _ & ->).
  rewrite Hmap in Edet. cbn [JsMap.keys map detect_all] in Edet. unfold ret in Edet.
  injection Edet as <-.
  rewrite walkDecls_kept.
  - eexists. split; [reflexivity|]. split; [exact Hmap | exact Hw].
  - intros d m _ _. left.
    change (JsMap.get (variableMap (load_fallbacks e (p :: ps) (cleared st)))
              (trim (group1 m)) = None).
    rewrite Hmap. reflexivity.
Qed.

Lemma missing_sources_leave_document_witness :
  exists st',
    Once (env_of []) (JsArray [lit "non-existent.css"])
         [decl_of "color" "var(--color)"] (initial_state [] [])
    = Some ([decl_of "color" "var(--color)"], st')
    /\ variableMap st' = []
    /\ warnings st' =
       [lit "Error processing fallback file non-existent.css: ENOENT: no such file or directory"].
Proof.
  apply (@missing_sources_leave_document (env_of []) [lit "non-existent.css"]
           [decl_of "color" "var(--color)"] (initial_state [] [])).
  - discriminate.
  - intros p _. now eexists.
Defined.

(** ** The cache of resolved values *)

(** X10.  A value the resolver has returned for a name is memoized: any
    later call for that name, from any path that does not hold the
    name and with any depth allowance, returns the same value and
    leaves the store as it is.  The cache does not record the path
    under which the value was computed. *)
Theorem resolved_values_are_memoized (depth : nat) (result : bool) (n : str)
    (resolving : JsSet.t) (st : state) (v : str) (st1 : state) :
  resolveVariable depth result n resolving st = Some (Some v, st1) ->
  forall depth' result' resolving',
    JsSet.has resolving' n = false ->
    resolveVariable (S depth') result' n resolving' st1 = Some (Some v, st1).
Proof.
  intros E depth' result' resolving' Hfresh.
  pose proof (resolveVariable_frame _ _ _ _ _ E) as (Hmap & _).
  destruct depth as [|depth]; [discriminate|]. cbn [resolveVariable] in E |- *.
  rewrite Hfresh, Hmap.
  destruct (JsSet.has resolving n); [discriminate|].
  destruct (JsMap.get (variableMap st) n) as [value|]; [|discriminate].
  destruct (JsMap.get (variableCache st) (cache_key n (variableMap st))) as [cached|] eqn:Ec.
  - injection E as <- <-. now rewrite Ec.
  - destruct (resolve_loop _ _ _ _ st) as [[rv st']|]; [|discriminate].
    injection E as <- <-. cbn [variableCache set_variableCache].
    now rewrite map_get_set_same.
Qed.

Lemma resolved_values_are_memoized_witness :
  exists st1,
    resolveVariable 3 true (lit "--a") JsSet.empty chain_state
    = Some (Some (lit "10px"), st1)
    /\ resolveVariable 1 false (lit "--a") [lit "--b"] st1
       = Some (Some (lit "10px"), st1).
Proof.
  eexists. split; [vm_compute; reflexivity|].
  eapply (@resolved_values_are_memoized 3 true (lit "--a") JsSet.empty chain_state).
  - vm_compute. reflexivity.
  - reflexivity.
Defined.

(** ** Chains of references *)

Lemma scan_skip_all (s : str) :
  forall skip idx, length s <= skip -> scan skip idx s = [].
Proof.
  induction s as [|c s IH]; intros skip idx Hlen; [reflexivity|].
  destruct skip as [|k]; [simpl in Hlen; lia|].
  cbn [scan]. apply IH. simpl in Hlen. lia.
Qed.

(** A value that is one call and nothing else has that call as its only
    match. *)
Lemma exec_all_single_call (full g1 : str) (g2 : option str) :
  var_call full g1 g2 -> exec_all full = [mkMatch full g1 g2 0].
Proof.
  intros Hcall.
  assert (Hm : match_at full = Some (full, g1, g2)).
  { apply match_at_spec. split; [exact Hcall | exists []; now rewrite app_nil_r]. }
  unfold exec_all. destruct full as [|c rest] eqn:Ef.
  - inversion Hcall.
  - cbn [scan]. rewrite Hm. f_equal. apply scan_skip_all. simpl. lia.
Qed.

Lemma exec_all_link (n : str) :
  n <> [] -> forallb in_name_class n = true ->
  exec_all (link n) = [mkMatch (link n) n None 0].
Proof. intros Hne Hcl. apply exec_all_single_call. now constructor. Qed.

Lemma getSubstitution_dollar_free (matched before after t : str) :
  dollar_free t = true -> getSubstitution matched before after t = t.
Proof.
  induction t as [|c t IH]; cbn [getSubstitution dollar_free forallb]; [reflexivity|].
  intros H. apply andb_true_iff in H as [Hc Ht]. apply negb_true_iff in Hc.
  rewrite Hc. f_equal. now apply IH.
Qed.

Lemma indexOf_self (s : str) : indexOf s s = Some 0.
Proof.
  assert (H : strip_prefix s s = Some []) by (apply strip_prefix_spec; now rewrite app_nil_r).
  destruct s; cbn [indexOf]; now rewrite H.
Qed.

Lemma replace_whole (s t : str) : dollar_free t = true -> replace s s t = t.
Proof.
  intros Ht. unfold replace. rewrite indexOf_self. cbn [firstn Nat.add].
  rewrite skipn_all, app_nil_r. cbn [app]. now apply getSubstitution_dollar_free.
Qed.

Lemma reference_chain_keys (vm : JsMap.t str) (terminal : str) (names : list str) :
  reference_chain vm names terminal -> incl names (JsMap.keys vm).
Proof.
  induction names as [|n rest IH]; [intros []|].
  cbn [reference_chain]. destruct rest as [|n' rest'].
  - intros H x [<- | []]. eapply map_get_In_keys; exact H.
  - intros [Hget Hrest] x [<- | Hx]; [eapply map_get_In_keys; exact Hget|].
    now apply IH.
Qed.

Lemma chain_resolves (result : bool) (terminal : str) (names : list str) :
  exec_all terminal = [] -> dollar_free terminal = true ->
  forall depth resolving st,
    reference_chain (variableMap st) names terminal ->
    NoDup names -> Forall plain_name names ->
    (forall n, In n names -> ~ In n resolving) ->
    (forall n, In n names ->
       JsMap.get (variableCache st) (cache_key n (variableMap st)) = None) ->
    length names <= depth ->
    exists st',
      resolveVariable depth result (hd [] names) resolving st
      = Some (Some terminal, st')
      /\ warnings st' = warnings st.
Proof.
  intros Hterm Hdollar.
  induction names as [|n rest IH]; intros depth resolving st Hchain Hnd Hplain Hfresh Hmiss Hlen;
    [destruct Hchain|].
  destruct depth as [|depth]; [simpl in Hlen; lia|].
  cbn [hd resolveVariable].
  replace (JsSet.has resolving n) with false
    by (symmetry; apply set_has_not_In, Hfresh; now left).
  rewrite (Hmiss n (or_introl eq_refl)).
  cbn [reference_chain] in Hchain. destruct rest as [|n' rest'].
  - rewrite Hchain, Hterm. cbn [resolve_loop]. unfold ret. now eexists.
  - destruct Hchain as [Hget Hrest]. rewrite Hget.
    inversion Hnd as [|? ? Hnotin Hnd']; subst.
    inversion Hplain as [|? ? _ Hplain']; subst.
    inversion Hplain' as [|? ? (Hne & Hclass & Htrim) _]; subst.
    rewrite (exec_all_link Hne Hclass). cbn [resolve_loop group1 fullMatch]. unfold bind.
    rewrite Htrim.
    destruct (IH depth (JsSet.add resolving n) st Hrest Hnd' Hplain') as (st1 & E & Hw).
    + intros x Hx Hin. apply set_add_In in Hin as [Hin | ->].
      * apply (Hfresh x); [now right | exact Hin].
      * contradiction.
    + intros x Hx. apply Hmiss. now right.
    + simpl in Hlen |- *. lia.
    + cbn [hd] in E. rewrite E. unfold ret.
      rewrite replace_whole by exact Hdollar. cbn [resolve_loop]. unfold ret.
      eexists. split; [reflexivity | exact Hw].
Qed.

(** X11.  Transitive resolution: when the mapping declares a first name
    as a reference to a second, the second as a reference to a third,
    and so on down to a last name whose value holds no reference (and
    no dollar sign), the names being distinct and none of them in the
    cache yet, the resolver returns that last value for the first name,
    however long the chain is, and emits no warning. *)
Theorem chain_resolves_to_terminal_value (result : bool) (st : state)
    (names : list str) (terminal : str) :
  reference_chain (variableMap st) names terminal ->
  NoDup names -> Forall plain_name names ->
  exec_all terminal = [] -> dollar_free terminal = true ->
  (forall n, In n names ->
     JsMap.get (variableCache st) (cache_key n (variableMap st)) = None) ->
  exists st',
    resolveVariable (depth_bound st) result (hd [] names) JsSet.empty st
    = Some (Some terminal, st')
    /\ warnings st' = warnings st.
Proof.
  intros Hchain Hnd Hplain Hterm Hdollar Hmiss.
  apply chain_resolves; try assumption.
  - intros n _ [].
  - pose proof (path_fits Hnd (reference_chain_keys _ _ _ Hchain)) as Hfit.
    rewrite map_keys_length in Hfit. unfold depth_bound. lia.
Qed.

Lemma chain_resolves_to_terminal_value_witness :
  exists st',
    resolveVariable (depth_bound chain_state) true (lit "--a") JsSet.empty chain_state
    = Some (Some (lit "10px"), st')
    /\ warnings st' = warnings chain_state.
Proof.
  apply (@chain_resolves_to_terminal_value true chain_state
           [lit "--a"; lit "--b"; lit "--c"] (lit "10px")).
  - repeat split.
  - repeat constructor; simpl; intuition discriminate.
  - repeat constructor; try discriminate; reflexivity.
  - reflexivity.
  - reflexivity.
  - intros n _. reflexivity.
Defined.

(** ** The warnings of a run *)

Lemma resolve_loop_quiet (resolve : str -> JsSet.t -> M (option str))
    (vm : JsMap.t str) (resolving : JsSet.t) (matches : list rmatch) :
  (forall m st r st',
     In m matches -> variableMap st = vm ->
     resolve (trim (group1 m)) resolving st = Some (r, st') ->
     warnings st' = warnings st /\ variableMap st' = vm) ->
  forall rv st rv' st',
    variableMap st = vm ->
    resolve_loop resolve resolving matches rv st = Some (rv', st') ->
    warnings st' = warnings st /\ variableMap st' = vm.
Proof.
  induction matches as [|m rest IH]; intros Hres rv st rv' st' Hst; cbn [resolve_loop].
  - unfold ret. intros H. injection H as _ <-. now split.
  - unfold bind. destruct (resolve _ _ st) as [[nested st1]|] eqn:E; [|discriminate].
    destruct (Hres m st nested st1 (or_introl eq_refl) Hst E) as [Hw1 Hm1].
    assert (Hrest : forall rv0, resolve_loop resolve resolving rest rv0 st1 = Some (rv', st') ->
                                warnings st' = warnings st /\ variableMap st' = vm).
    { intros rv0 H. apply IH in H; [|intros; eapply Hres; eauto; now right | exact Hm1].
      destruct H as [Hw Hm]. split; [congruence | exact Hm]. }
    destruct nested as [nested|]; [apply Hrest|].
    destruct (group2 m) as [fb|]; [|apply Hrest].
    destruct (truthy fb); apply Hrest.
Qed.

(** Started on a name from which no descent to a name of the path
    exists, the resolver emits no warning. *)
Lemma resolveVariable_quiet depth :
  forall result n resolving st r st',
    (forall chain hit, ~ descent (variableMap st) n resolving chain hit) ->
    resolveVariable depth result n resolving st = Some (r, st') ->
    warnings st' = warnings st /\ variableMap st' = variableMap st.
Proof.
  induction depth as [|depth IH]; intros result n resolving st r st' Hno;
    cbn [resolveVariable]; [discriminate|].
  destruct (JsSet.has resolving n) eqn:Hhas.
  { exfalso. eapply Hno. apply descent_revisit. exact Hhas. }
  destruct (JsMap.get (variableMap st) n) as [v|] eqn:Hget.
  2:{ intros H. injection H as _ <-. now split. }
  destruct (JsMap.get (variableCache st) _) as [cached|].
  { intros H. injection H as _ <-. now split. }
  destruct (resolve_loop _ _ _ _ st) as [[rv st1]|] eqn:E; [|discriminate].
  intros H. injection H as _ <-. cbn [warnings variableMap set_variableCache].
  eapply resolve_loop_quiet with (vm := variableMap st) in E; [exact E | | reflexivity].
  intros m st0 r0 st0' Hm Hst0 E0. rewrite <- Hst0.
  eapply IH; [|exact E0].
  intros chain hit Hd. rewrite Hst0 in Hd.
  eapply Hno. eapply descent_follow; [exact Hhas | exact Hget | | exact Hd].
  unfold references. apply in_map_iff. now exists m.
Qed.


Lemma no_descent_outside_circular_names (st : state) (n : str) :
  circular_names_complete st ->
  JsSet.has (circularRefs st) n = false ->
  forall chain hit, ~ descent (variableMap st) n JsSet.empty chain hit.
Proof.
  intros Hcomplete Hout chain hit Hd.
  apply set_has_not_In in Hout. apply Hout. apply Hcomplete.
  - inversion Hd; subst; [discriminate|]. eapply map_get_In_keys; eassumption.
  - apply descent_iff_leads_to_cycle. now exists chain, hit.
Qed.

Lemma rewrite_step_quiet (v : str) (m : rmatch) (lv lv' : loop_vars) (st st' : state) :
  circular_names_complete st ->
  rewrite_step v m lv st = Some (lv', st') ->
  warnings st' = warnings st.
Proof.
  intros Hcomplete. unfold rewrite_step.
  destruct (JsSet.has (circularRefs st) _) eqn:Hc.
  - intros H. now injection H as _ <-.
  - destruct (resolveVariable _ _ _ _ st) as [[r st1]|] eqn:E; [|discriminate].
    apply resolveVariable_quiet in E as [Hw _];
      [|now apply no_descent_outside_circular_names].
    destruct r as [rv|]; [destruct (truthy rv)|]; intros H; injection H as _ <-; exact Hw.
Qed.

Lemma circular_names_complete_frame (st st' : state) :
  resolve_frame st st' -> circular_names_complete st -> circular_names_complete st'.
Proof.
  intros (Hm & Hc & _) H n. rewrite Hm, Hc. apply H.
Qed.

Lemma rewrite_loop_quiet (v : str) (matches : list rmatch) :
  forall lv st lv' st',
    circular_names_complete st ->
    rewrite_loop v matches lv st = Some (lv', st') ->
    warnings st' = warnings st.
Proof.
  induction matches as [|m rest IH]; intros lv st lv' st' Hcomplete; cbn [rewrite_loop].
  - unfold ret. intros H. now injection H as _ <-.
  - unfold bind. destruct (rewrite_step v m lv st) as [[lv1 st1]|] eqn:E; [|discriminate].
    intros H. pose proof (rewrite_step_quiet _ _ _ Hcomplete E) as Hw1.
    destruct (rewrite_step_returns v m lv st) as (lv1' & st1' & E' & F).
    rewrite E in E'. injection E' as <- <-.
    apply IH in H; [congruence | eapply circular_names_complete_frame; eassumption].
Qed.

Lemma walkDecls_quiet (r : root) :
  forall st r' st',
    circular_names_complete st ->
    walkDecls r st = Some (r', st') ->
    warnings st' = warnings st.
Proof.
  induction r as [|d rest IH]; intros st r' st' Hcomplete; cbn [walkDecls].
  - unfold ret. intros H. now injection H as _ <-.
  - unfold bind, ret. destruct (rewrite_decl d st) as [[d' st1]|] eqn:E; [|discriminate].
    destruct (walkDecls rest st1) as [[rest' st2]|] eqn:Er; [|discriminate].
    intros H. injection H as _ <-.
    destruct (rewrite_decl_returns d st) as (d0 & st0 & E0 & F).
    rewrite E in E0. injection E0 as <- <-.
    apply IH in Er; [|eapply circular_names_complete_frame; eassumption].
    unfold rewrite_decl, bind, ret in E.
    destruct (rewrite_loop _ _ _ st) as [[lv stl]|] eqn:El; [|discriminate].
    injection E as _ <-. apply rewrite_loop_quiet in El; [congruence | exact Hcomplete].
Qed.

(** X12.  In a run every warning comes from the loading of the sources
    or from the detection of circular references: the rewriting of the
    document adds none, whatever the document, because the resolver is
    only started on names that neither are on a cycle nor lead to one.
    The warnings of a run are those of the run on the empty document. *)
Theorem rewriting_adds_no_warning (e : env) (fallbacks : list str) (r : root)
    (st : state) :
  exists st0 r' st',
    process e fallbacks [] st = Some ([], st0)
    /\ process e fallbacks r st = Some (r', st')
    /\ warnings st' = warnings st0.
Proof.
  destruct (detect_all_outcome
              (JsMap.keys (variableMap (load_fallbacks e fallbacks (cleared st))))
              (set_circularRefs JsSet.empty (load_fallbacks e fallbacks (cleared st))))
    as (st3 & E & Hmap & _ & Hcomplete & _).
  assert (Hun : forall r0, process e fallbacks r0 st = walkDecls r0 st3).
  { intros r0. unfold process, bind.
    change (variableMap (set_circularRefs JsSet.empty
                           (load_fallbacks e fallbacks (cleared st))))
      with (variableMap (load_fallbacks e fallbacks (cleared st))).
    now rewrite E. }
  destruct (walkDecls_returns r st3) as (r' & st' & Er & _).
  exists st3, r', st'. rewrite !Hun. split; [reflexivity|]. split; [exact Er|].
  eapply walkDecls_quiet; [|exact Er].
  intros n Hn Hl. rewrite Hmap in Hn, Hl. now apply Hcomplete.
Qed.

(** ** What a run takes from earlier runs *)

Lemma load_fallback_circularRefs (e : env) (p : str) (c : JsSet.t) (st : state) :
  load_fallback e p (set_circularRefs c st)
  = set_circularRefs c (load_fallback e p st).
Proof.
  unfold load_fallback, loadCssFile. cbn [fileCache set_circularRefs].
  destruct (JsMap.get (fileCache st) _) as [r|]; [reflexivity|].
  destruct (read_parse e _) as [r|message]; reflexivity.
Qed.

Lemma load_fallbacks_circularRefs (e : env) (fallbacks : list str) (c : JsSet.t) :
  forall st,
    load_fallbacks e fallbacks (set_circularRefs c st)
    = set_circularRefs c (load_fallbacks e fallbacks st).
Proof.
  unfold load_fallbacks.
  induction fallbacks as [|p rest IH]; intros st; cbn [fold_left]; [reflexivity|].
  now rewrite load_fallback_circularRefs, IH.
Qed.

Lemma process_fresh_store (e : env) (fallbacks : list str) (r : root) (st : state) :
  process e fallbacks r st
  = process e fallbacks r (mkState [] [] [] [] (warnings st)).
Proof.
  unfold process.
  change (cleared st)
    with (set_circularRefs (circularRefs st) (mkState [] [] [] [] (warnings st))).
  change (cleared (mkState [] [] [] [] (warnings st)))
    with (mkState [] [] [] [] (warnings st)).
  rewrite load_fallbacks_circularRefs. reflexivity.
Qed.

(** X13.  A run takes nothing from the runs before it: whatever the two
    module-level caches hold when it starts, the document it returns
    and the warnings it emits are those of a run started with empty
    caches. *)
Theorem run_ignores_earlier_caches (e : env) (option_value : js_value) (r : root)
    (files : JsMap.t root) (variables : JsMap.t str) :
  option_map (fun out => (fst out, warnings (snd out)))
             (run e option_value r files variables)
  = option_map (fun out => (fst out, warnings (snd out)))
               (run e option_value r [] []).
Proof.
  unfold run, Once. destruct (as_array (fallbacks_of option_value)) as [fallbacks|];
    [|reflexivity].
  destruct (length fallbacks =? 0); [reflexivity|].
  rewrite process_fresh_store. symmetry. rewrite process_fresh_store. reflexivity.
Qed.

(** ** What the scan of a value finds *)

(** X14.  The matches the loops see in a value are calls of the shape
    [var(name)] or [var(name,fallback)], the name not empty and without
    comma or closing parenthesis, the fallback not empty and without
    closing parenthesis (so a fallback such as [rgba(0,0,0,.5)] is cut
    at its first closing parenthesis); each match is the text of the
    value at its index, and the matches follow one another without
    overlapping. *)
Theorem matches_are_calls_in_order (v : str) :
  Forall (fun m => var_call (fullMatch m) (group1 m) (group2 m)) (exec_all v)
  /\ aligned v 0 (exec_all v).
Proof.
  split; [|apply exec_all_aligned].
  apply Forall_forall. intros m Hm. apply (@scan_var_call v 0 0). exact Hm.
Qed.

Lemma match_at_nil : match_at [] = None.
Proof. reflexivity. Qed.

Lemma scan_covers (s : str) :
  forall skip idx j full g1 g2,
    skip <= j ->
    match_at (skipn j s) = Some (full, g1, g2) ->
    exists m, In m (scan skip idx s)
              /\ index m <= idx + j < index m + length (fullMatch m).
Proof.
  induction s as [|c s IH]; intros skip idx j full g1 g2 Hj Hm.
  - rewrite skipn_nil in Hm. discriminate.
  - cbn [scan]. destruct skip as [|k].
    + destruct (match_at (c :: s)) as [[[full0 g10] g20]|] eqn:E0.
      * destruct (Nat.lt_ge_cases j (length full0)) as [Hlt | Hge].
        -- eexists. split; [now left|]. cbn [index fullMatch]. lia.
        -- apply match_at_prefix in E0 as (rest & _ & Hlen).
           destruct j as [|j']; [lia|]. cbn [skipn] in Hm.
           destruct (IH (length full0 - 1) (S idx) j' full g1 g2) as (m & Hin & Hr);
             [lia | exact Hm |].
           exists m. split; [now right | lia].
      * destruct j as [|j']; [cbn [skipn] in Hm; congruence|]. cbn [skipn] in Hm.
        destruct (IH 0 (S idx) j' full g1 g2) as (m & Hin & Hr); [lia | exact Hm |].
        exists m. split; [exact Hin | lia].
    + destruct j as [|j']; [lia|]. cbn [skipn] in Hm.
      destruct (IH k (S idx) j' full g1 g2) as (m & Hin & Hr); [lia | exact Hm |].
      exists m. split; [exact Hin | lia].
Qed.

(** X15.  The scan misses no call: wherever in a value the pattern
    matches, that position lies within one of the matches the loop
    sees (it is the start of one, or it is inside an earlier match, as
    a call written in the fallback of another call is). *)
Theorem every_call_lies_in_a_match (v : str) (i : nat) (full g1 : str)
    (g2 : option str) :
  match_at (skipn i v) = Some (full, g1, g2) ->
  exists m, In m (exec_all v) /\ index m <= i < index m + length (fullMatch m).
Proof.
  intros Hm. destruct (@scan_covers v 0 0 i full g1 g2) as (m & Hin & Hr);
    [lia | exact Hm |].
  exists m. split; [exact Hin | lia].
Qed.

Lemma every_call_lies_in_a_match_witness :
  exists m,
    In m (exec_all (lit "var(--a, var(--b))"))
    /\ index m <= 9 < index m + length (fullMatch m).
Proof.
  apply (@every_call_lies_in_a_match (lit "var(--a, var(--b))") 9
           (lit "var(--b)") (lit "--b") None).
  reflexivity.
Defined.

(** ** A value with one reference *)

Lemma search_var_call (s : str) :
  forall idx m,
    search idx s = Some m -> var_call (fullMatch m) (group1 m) (group2 m).
Proof.
  induction s as [|c s IH]; intros idx m; cbn [search]; [discriminate|].
  destruct (match_at (c :: s)) as [[[full g1] g2]|] eqn:E; [|apply IH].
  intros H. injection H as <-. cbn [fullMatch group1 group2].
  now apply match_at_spec in E as [Hc _].
Qed.

Lemma search_first_occurrence (s : str) :
  forall idx m,
    search idx s = Some m ->
    indexOf s (fullMatch m) = Some (index m - idx) /\ idx <= index m.
Proof.
  induction s as [|c s IH]; intros idx m; cbn [search]; [discriminate|].
  destruct (match_at (c :: s)) as [[[full g1] g2]|] eqn:E.
  - intros H. injection H as <-. cbn [fullMatch index].
    apply match_at_prefix in E as (rest & Hs & _).
    assert (Hp : strip_prefix full (c :: s) = Some rest) by now apply strip_prefix_spec.
    cbn [indexOf]. rewrite Hp. rewrite Nat.sub_diag. now split.
  - intros H. pose proof H as Hs. apply IH in H as [Hidx Hle]. split; [|lia].
    cbn [indexOf].
    destruct (strip_prefix (fullMatch m) (c :: s)) as [rest|] eqn:Hp.
    + exfalso. apply strip_prefix_spec in Hp.
      pose proof (search_var_call _ _ Hs) as Hcall.
      assert (match_at (c :: s) = Some (fullMatch m, group1 m, group2 m))
        by (apply match_at_spec; split; [exact Hcall | now exists rest]).
      congruence.
    + rewrite Hidx. cbn [option_map]. f_equal. lia.
Qed.

(** The text of the first match of a value occurs first at the index of
    that match: [replace] finds it there. *)
Lemma first_match_replaced_in_place (v : str) (m : rmatch) (rest : list rmatch)
    (t : str) :
  exec_all v = m :: rest -> replace v (fullMatch m) t = splice v m t.
Proof.
  intros H. unfold exec_all in H. rewrite scan_search in H.
  destruct (search 0 v) as [m0|] eqn:Es; [|discriminate].
  injection H as -> _.
  apply search_first_occurrence in Es as [Hidx _]. rewrite Nat.sub_0_r in Hidx.
  unfold replace, splice. now rewrite Hidx.
Qed.

(** X16.  For a variable whose value holds exactly one reference, the
    resolver returns the value with that reference replaced where it
    lies, the text before and after it kept: by the resolved value of
    the referenced name when it has one, else by the trimmed fallback
    of the reference when it carries one, and left as it is otherwise.
    The text put in is read as a replacement text of [replace]. *)
Theorem single_reference_is_replaced_in_place (depth : nat) (result : bool)
    (n : str) (resolving : JsSet.t) (st : state) (v : str) (m : rmatch)
    (nested : option str) (st1 : state) :
  JsSet.has resolving n = false ->
  JsMap.get (variableMap st) n = Some v ->
  JsMap.get (variableCache st) (cache_key n (variableMap st)) = None ->
  exec_all v = [m] ->
  resolveVariable depth result (trim (group1 m)) (JsSet.add resolving n) st
  = Some (nested, st1) ->
  exists st',
    resolveVariable (S depth) result n resolving st
    = Some (Some (match nested, group2 m with
                  | Some s, _ => splice v m s
                  | None, Some fallback => splice v m (trim fallback)
                  | None, None => v
                  end), st')
    /\ warnings st' = warnings st1.
Proof.
  intros Hfresh Hget Hmiss Hone Hnested.
  cbn [resolveVariable]. rewrite Hfresh, Hget, Hmiss, Hone.
  cbn [resolve_loop]. unfold bind. rewrite Hnested.
  assert (Hcall : var_call (fullMatch m) (group1 m) (group2 m)).
  { apply (@scan_var_call v 0 0). fold (exec_all v). rewrite Hone. now left. }
  destruct nested as [s|].
  - unfold ret. rewrite (@first_match_replaced_in_place v m [] _ Hone). now eexists.
  - destruct (group2 m) as [fallback|] eqn:Hg.
    + assert (truthy fallback = true) as ->
        by (inversion Hcall; subst; destruct fallback; [contradiction | reflexivity]).
      unfold ret. rewrite (@first_match_replaced_in_place v m [] _ Hone). now eexists.
    + unfold ret. now eexists.
Qed.

Lemma single_reference_is_replaced_in_place_witness :
  exists st',
    resolveVariable 2 true (lit "--border") JsSet.empty border_state
    = Some (Some (lit "1px solid red"), st')
    /\ warnings st' = [].
Proof.
  pose (m := mkMatch (lit "var(--tone, red )") (lit "--tone") (Some (lit " red ")) 10).
  destruct (@single_reference_is_replaced_in_place 1 true (lit "--border") JsSet.empty
              border_state (lit "1px solid var(--tone, red )") m None border_state)
    as (st' & E & Hw); try reflexivity.
  exists st'. split; [exact E | exact Hw].
Defined.

(** ** The warnings of the detection *)

(** X17.  The walks of the detection, one from each of the given names
    (in a run: the keys of the mapping, in its order), emit one warning
    for each name that is on a cycle or leads to one, and none for any
    other name; each warning names a variable that is on a cycle and
    that the name walked from leads to. *)
Theorem detection_warns_once_per_circular_name (names : list str) :
  forall st, exists st' hits,
    detect_all names st = Some (tt, st')
    /\ warnings st' = warnings st ++ map circular_message hits
    /\ walk_reports (variableMap st) names hits.
Proof.
  induction names as [|x rest IH]; intros st; cbn [detect_all].
  - exists st, []. cbn [map]. rewrite app_nil_r. repeat split. constructor.
  - unfold bind.
    destruct (detectCircular_returns x st) as (r & st1 & E & Hmap). rewrite E.
    apply detectCircular_outcome in E. unfold walk_outcome in E.
    destruct (IH st1) as (st' & hits & -> & Hw & Hrep). rewrite Hmap in Hrep.
    destruct r.
    + destruct E as (chain & hit & Hd & _ & Hw1).
      exists st', (hit :: hits). split; [reflexivity|]. split.
      * rewrite Hw, Hw1, <- app_assoc. reflexivity.
      * destruct (descent_leads Hd) as [Hreach [[] | Hcyc]].
        now constructor.
    + destruct E as [-> Hno]. exists st', hits. split; [reflexivity|].
      split; [exact Hw|]. apply reports_none; [|exact Hrep].
      intros Hl. apply leads_to_cycle_descent in Hl as (chain & hit & Hd).
      now apply Hno in Hd.
Qed.

(** ** The resolver reports real cycles only *)

Lemma detector_silent_not_leading (st st' : state) (n : str) :
  detectCircular (depth_bound st) n JsSet.empty st = Some (false, st') ->
  ~ leads_to_cycle (variableMap st) n.
Proof.
  intros E Hl. apply detectCircular_outcome in E as [_ Hno].
  apply leads_to_cycle_descent in Hl as (chain & hit & Hd). now apply Hno in Hd.
Qed.

(** X18.  The resolver warns about a circular reference only when there
    is one: started on a name that neither is on a cycle nor leads to
    one, it returns without any warning, whatever the cache holds and
    however the references fan out (a variable referred to twice, or
    reached along two chains, is not taken for a cycle, since each
    nested call works on its own copy of the path). *)
Theorem resolver_warns_only_on_real_cycles (result : bool) (n : str) (st : state) :
  ~ leads_to_cycle (variableMap st) n ->
  exists r st',
    resolveVariable (depth_bound st) result n JsSet.empty st = Some (r, st')
    /\ warnings st' = warnings st.
Proof.
  intros Hno. destruct (resolveVariable_returns result n st) as (r & st' & E & _).
  exists r, st'. split; [exact E|].
  eapply resolveVariable_quiet; [|exact E].
  intros chain hit Hd. apply Hno. apply descent_iff_leads_to_cycle. now exists chain, hit.
Qed.

Lemma resolver_warns_only_on_real_cycles_witness :
  exists st',
    resolveVariable (depth_bound diamond_state) true (lit "--a") JsSet.empty diamond_state
    = Some (Some (lit "1px 1px"), st')
    /\ warnings st' = [].
Proof.
  destruct (@resolver_warns_only_on_real_cycles true (lit "--a") diamond_state)
    as (r & st' & E & Hw).
  - eapply detector_silent_not_leading. vm_compute. reflexivity.
  - exists st'. split; [|exact Hw].
    rewrite E. f_equal. f_equal. vm_compute in E. now injection E as <- _.
Defined.

(** ** From the sources to the rewritten declaration *)

Lemma load_fallbacks_variableCache (e : env) (fallbacks : list str) :
  forall st, variableCache (load_fallbacks e fallbacks st) = variableCache st.
Proof.
  unfold load_fallbacks.
  induction fallbacks as [|p rest IH]; intros st; cbn [fold_left]; [reflexivity|].
  rewrite IH. unfold load_fallback, loadCssFile.
  destruct (JsMap.get (fileCache st) _) as [r|]; [reflexivity|].
  destruct (read_parse e _) as [r|message]; reflexivity.
Qed.




(** ** The cache is transparent *)

Lemma expand_loop_mono (f g : str -> option (option str)) :
  (forall n x, f n = Some x -> g n = Some x) ->
  forall matches rv x,
    expand_loop f matches rv = Some x -> expand_loop g matches rv = Some x.
Proof.
  intros Hfg matches.
  induction matches as [|m rest IH]; intros rv x; cbn [expand_loop]; [easy|].
  destruct (f (trim (group1 m))) as [r|] eqn:E; [|discriminate].
  rewrite (Hfg _ _ E). destruct r as [nested|]; [apply IH|].
  destruct (group2 m) as [fb|]; [|apply IH]. destruct (truthy fb); apply IH.
Qed.

Lemma expand_mono (vm : JsMap.t str) (depth : nat) :
  forall depth' n x,
    depth <= depth' -> expand depth vm n = Some x -> expand depth' vm n = Some x.
Proof.
  induction depth as [|depth IH]; intros depth' n x Hle; cbn [expand]; [discriminate|].
  destruct depth' as [|depth']; [lia|]. cbn [expand].
  destruct (JsMap.get vm n) as [v|]; [|easy].
  destruct (expand_loop (expand depth vm) (exec_all v) v) as [rv|] eqn:E; [|discriminate].
  intros H. apply expand_loop_mono with (g := expand depth' vm) in E.
  - now rewrite E.
  - intros n0 y. apply IH. lia.
Qed.

Lemma cache_key_injective (vm : JsMap.t str) (n n' : str) :
  cache_key n vm = cache_key n' vm -> n = n'.
Proof. unfold cache_key. apply app_inv_tail. Qed.

Lemma resolve_loop_expands (resolve : str -> JsSet.t -> M (option str))
    (vm : JsMap.t str) (resolving : JsSet.t) (matches : list rmatch) :
  (forall m st r st',
     In m matches -> variableMap st = vm -> cache_coherent st ->
     resolve (trim (group1 m)) resolving st = Some (r, st') ->
     (exists d, expand d vm (trim (group1 m)) = Some r)
     /\ cache_coherent st' /\ variableMap st' = vm) ->
  forall rv st rv' st',
    variableMap st = vm -> cache_coherent st ->
    resolve_loop resolve resolving matches rv st = Some (rv', st') ->
    (exists d, expand_loop (expand d vm) matches rv = Some rv')
    /\ cache_coherent st' /\ variableMap st' = vm.
Proof.
  induction matches as [|m rest IH]; intros Hres rv st rv' st' Hst Hco; cbn [resolve_loop].
  - unfold ret. intros H. injection H as <- <-. split; [now exists 0 | now split].
  - unfold bind. destruct (resolve _ _ st) as [[nested st1]|] eqn:E; [|discriminate].
    destruct (Hres m st nested st1 (or_introl eq_refl) Hst Hco E) as ((d1 & Hd1) & Hco1 & Hm1).
    assert (Hrest : forall rv0,
               resolve_loop resolve resolving rest rv0 st1 = Some (rv', st') ->
               (exists d, expand d vm (trim (group1 m)) = Some nested
                          /\ expand_loop (expand d vm) rest rv0 = Some rv')
               /\ cache_coherent st' /\ variableMap st' = vm).
    { intros rv0 H.
      apply IH in H; [|intros; eapply Hres; eauto; now right | exact Hm1 | exact Hco1].
      destruct H as ((d2 & Hd2) & Hco' & Hm'). split; [|now split].
      exists (Nat.max d1 d2). split.
      - eapply expand_mono; [|exact Hd1]. lia.
      - eapply expand_loop_mono; [|exact Hd2].
        intros n0 y. apply expand_mono. lia. }
    destruct nested as [nested|].
    + intros H. apply Hrest in H as ((d & Hd & Hl) & Hco' & Hm').
      split; [|now split]. exists d. cbn [expand_loop]. now rewrite Hd.
    + destruct (group2 m) as [fb|] eqn:Hg; [destruct (truthy fb) eqn:Ht|];
        intros H; apply Hrest in H as ((d & Hd & Hl) & Hco' & Hm');
        (split; [|now split]); exists d; cbn [expand_loop]; rewrite Hd, Hg;
        try rewrite Ht; exact Hl.
Qed.

Lemma resolveVariable_expands depth :
  forall result n resolving st r st',
    (forall chain hit, ~ descent (variableMap st) n resolving chain hit) ->
    cache_coherent st ->
    resolveVariable depth result n resolving st = Some (r, st') ->
    (exists d, expand d (variableMap st) n = Some r)
    /\ cache_coherent st' /\ variableMap st' = variableMap st.
Proof.
  induction depth as [|depth IH]; intros result n resolving st r st' Hno Hco;
    cbn [resolveVariable]; [discriminate|].
  destruct (JsSet.has resolving n) eqn:Hhas.
  { exfalso. eapply Hno. apply descent_revisit. exact Hhas. }
  destruct (JsMap.get (variableMap st) n) as [v|] eqn:Hget.
  2:{ intros H. injection H as <- <-. split; [|now split].
      exists 1. cbn [expand]. now rewrite Hget. }
  destruct (JsMap.get (variableCache st) _) as [cached|] eqn:Hc.
  { intros H. injection H as <- <-. split; [|now split]. now apply Hco. }
  destruct (resolve_loop _ _ _ _ st) as [[rv st1]|] eqn:E; [|discriminate].
  intros H. injection H as <- <-.
  eapply resolve_loop_expands with (vm := variableMap st) in E; [| |reflexivity|exact Hco].
  - destruct E as ((d & Hd) & Hco1 & Hm1).
    assert (Hex : expand (S d) (variableMap st) n = Some (Some rv))
      by (cbn [expand]; now rewrite Hget, Hd).
    split; [now exists (S d)|]. split; [|exact Hm1].
    intros n0 c. cbn [variableCache variableMap set_variableCache]. rewrite Hm1.
    rewrite map_get_set.
    destruct (str_eqb (cache_key n (variableMap st)) (cache_key n0 (variableMap st))) eqn:Ek.
    + apply str_eqb_eq, cache_key_injective in Ek. subst n0.
      intros H. injection H as <-. now exists (S d).
    + intros H. specialize (Hco1 n0 c). rewrite Hm1 in Hco1. now apply Hco1.
  - intros m st0 r0 st0' Hm Hst0 Hco0 E0. rewrite <- Hst0.
    eapply IH; [|exact Hco0|exact E0].
    intros chain hit Hd. rewrite Hst0 in Hd.
    eapply Hno. eapply descent_follow; [exact Hhas | exact Hget | | exact Hd].
    unfold references. apply in_map_iff. now exists m.
Qed.

(** X20.  The cache is transparent: when the cache holds nothing but
    expansions (as the empty cache of a fresh run does), the resolver
    started on a name that neither is on a cycle nor leads to one
    returns exactly what the resolution without cache returns, and
    leaves a cache that again holds nothing but expansions. *)
Theorem cache_is_transparent (result : bool) (n : str) (st : state) :
  cache_coherent st ->
  ~ leads_to_cycle (variableMap st) n ->
  exists r st' d,
    resolveVariable (depth_bound st) result n JsSet.empty st = Some (r, st')
    /\ expand d (variableMap st) n = Some r
    /\ cache_coherent st'.
Proof.
  intros Hco Hno. destruct (resolveVariable_returns result n st) as (r & st' & E & _).
  apply resolveVariable_expands in E as H; [|
    intros chain hit Hd; apply Hno, descent_iff_leads_to_cycle; now exists chain, hit
    | exact Hco].
  destruct H as ((d & Hd) & Hco' & _). now exists r, st', d.
Qed.

Lemma cache_is_transparent_witness :
  exists st' d,
    resolveVariable (depth_bound diamond_state) true (lit "--a") JsSet.empty diamond_state
    = Some (Some (lit "1px 1px"), st')
    /\ expand d (variableMap diamond_state) (lit "--a") = Some (Some (lit "1px 1px"))
    /\ cache_coherent st'.
Proof.
  destruct (@cache_is_transparent true (lit "--a") diamond_state)
    as (r & st' & d & E & Hd & Hco).
  - intros n c H. discriminate.
  - eapply detector_silent_not_leading. vm_compute. reflexivity.
  - assert (r = Some (lit "1px 1px")) as ->
      by (vm_compute in E; now injection E as <- _).
    now exists st', d.
Defined.

(** ** [trim] *)

Lemma trim_start_suffix (s : str) : exists ws, s = ws ++ trim_start s.
Proof.
  induction s as [|c s [ws IH]]; [now exists []|]. cbn [trim_start].
  destruct (is_white_space c); [|now exists []].
  exists (c :: ws). cbn [app]. now rewrite <- IH.
Qed.

Lemma trim_start_head (s : str) :
  match trim_start s with [] => True | c :: _ => is_white_space c = false end.
Proof.
  induction s as [|c s IH]; [exact I|]. cbn [trim_start].
  destruct (is_white_space c) eqn:E; [exact IH | exact E].
Qed.

Lemma trim_start_fixed (s : str) :
  match s with [] => True | c :: _ => is_white_space c = false end ->
  trim_start s = s.
Proof. destruct s as [|c s]; [reflexivity|]. cbn [trim_start]. now intros ->. Qed.

(** A trimmed text is a piece of the text: [before ++ trim s ++ after]. *)
Lemma trim_piece (s : str) : exists before after, s = before ++ trim s ++ after.
Proof.
  unfold trim, trim_end.
  destruct (trim_start_suffix s) as [ws Hs].
  destruct (trim_start_suffix (rev (trim_start s))) as [ws' Ht].
  exists ws, (rev ws'). rewrite Hs at 1. f_equal.
  rewrite <- rev_app_distr, <- Ht. now rewrite rev_involutive.
Qed.

Lemma trim_forallb (p : code_unit -> bool) (s : str) :
  forallb p s = true -> forallb p (trim s) = true.
Proof.
  intros H. destruct (trim_piece s) as (before & after & Hs).
  rewrite Hs, !forallb_app in H.
  apply andb_true_iff in H as [_ H]. now apply andb_true_iff in H as [H _].
Qed.

Lemma trim_idempotent (s : str) : trim (trim s) = trim s.
Proof.
  unfold trim at 2 3. unfold trim_end.
  set (t := trim_start s). set (u := trim_start (rev t)).
  assert (Hu : trim_start u = u) by (apply trim_start_fixed, trim_start_head).
  assert (Hr : trim_start (rev u) = rev u).
  { apply trim_start_fixed.
    destruct (trim_start_suffix (rev t)) as [ws Ht]. fold u in Ht.
    assert (Ht' : t = rev u ++ rev ws)
      by (rewrite <- rev_app_distr, <- Ht; now rewrite rev_involutive).
    pose proof (trim_start_head s) as Hh. fold t in Hh. rewrite Ht' in Hh.
    destruct (rev u) as [|c r]; [exact I | exact Hh]. }
  unfold trim, trim_end. rewrite Hr, rev_involutive, Hu. reflexivity.
Qed.

(** ** The rewriter in closed form *)

Lemma expand_loop_total (f : str -> option (option str)) (matches : list rmatch) :
  (forall m, In m matches -> exists r, f (trim (group1 m)) = Some r) ->
  forall rv, exists rv', expand_loop f matches rv = Some rv'.
Proof.
  induction matches as [|m rest IH]; intros H rv; cbn [expand_loop]; [now exists rv|].
  destruct (H m (or_introl eq_refl)) as [r ->].
  pose proof (IH (fun m' Hm' => H m' (or_intror Hm'))) as IH'.
  destruct r as [nested|]; [apply IH'|].
  destruct (group2 m) as [fb|]; [destruct (truthy fb)|]; apply IH'.
Qed.

(** The expansion of a name from which no descent comes back to the
    path needs no more depth than the mapping has entries left. *)
Lemma expand_total (vm : JsMap.t str) (depth : nat) :
  forall n path,
    NoDup path -> incl path (JsMap.keys vm) ->
    length vm < depth + length path ->
    (forall chain hit, ~ descent vm n path chain hit) ->
    exists r, expand depth vm n = Some r.
Proof.
  induction depth as [|depth IH]; intros n path Hnd Hincl Hlen Hno.
  - pose proof (path_fits Hnd Hincl) as Hfit. rewrite map_keys_length in Hfit.
    simpl in Hlen. lia.
  - cbn [expand]. destruct (JsMap.get vm n) as [v|] eqn:Hget; [|now exists None].
    assert (Hhas : JsSet.has path n = false).
    { destruct (JsSet.has path n) eqn:E; [|reflexivity].
      exfalso. eapply Hno. now apply descent_revisit. }
    destruct (path_extend n Hnd Hincl Hhas (map_get_In_keys _ _ Hget))
      as (Hnd' & Hincl' & Hlen').
    destruct (@expand_loop_total (expand depth vm) (exec_all v)) with (rv := v)
      as [rv' ->]; [|now exists (Some rv')].
    intros m Hm. apply (IH _ (JsSet.add path n)); [assumption | assumption | lia |].
    intros chain hit Hd. eapply Hno.
    eapply descent_follow; [exact Hhas | exact Hget | | exact Hd].
    unfold references. apply in_map_iff. now exists m.
Qed.

Lemma expand_at_bound (st : state) (n : str) (r : option str) (d : nat) :
  (forall chain hit, ~ descent (variableMap st) n JsSet.empty chain hit) ->
  expand d (variableMap st) n = Some r ->
  expand (depth_bound st) (variableMap st) n = Some r.
Proof.
  intros Hno Hd.
  destruct (@expand_total (variableMap st) (depth_bound st) n JsSet.empty)
    as [r0 H0]; [constructor | intros x [] | unfold depth_bound; simpl; lia | exact Hno |].
  pose proof (@expand_mono (variableMap st) d (Nat.max d (depth_bound st)) n r
                (Nat.le_max_l _ _) Hd) as H1.
  pose proof (@expand_mono (variableMap st) (depth_bound st)
                (Nat.max d (depth_bound st)) n r0 (Nat.le_max_r _ _) H0) as H2.
  congruence.
Qed.

Lemma fallback_for_frame (st st' : state) :
  resolve_frame st st' -> fallback_for st' = fallback_for st.
Proof.
  intros (Hm & Hc & _). unfold fallback_for, depth_bound. now rewrite Hm, Hc.
Qed.

Lemma rewrite_step_text (v : str) (m : rmatch) (lv : loop_vars) (st : state) :
  cache_coherent st -> circular_names_complete st ->
  exists md st',
    rewrite_step v m lv st
    = Some (mkLoop (newValue lv ++ slice v (lastIndex lv) (index m)
                    ++ occurrence_text (fallback_for st) m)
                   (index m + length (fullMatch m)) md, st')
    /\ cache_coherent st' /\ resolve_frame st st'.
Proof.
  intros Hco Hcomplete. unfold rewrite_step, occurrence_text, fallback_for.
  destruct (JsSet.has (circularRefs st) (trim (group1 m))) eqn:Hc.
  - eexists _, st. rewrite <- app_assoc.
    split; [reflexivity|]. split; [exact Hco | apply resolve_frame_refl].
  - pose proof (no_descent_outside_circular_names Hcomplete Hc) as Hno.
    destruct (resolveVariable_returns true (trim (group1 m)) st) as (r & st' & E & _).
    rewrite E. pose proof (resolveVariable_frame _ _ _ _ _ E) as F.
    apply resolveVariable_expands in E as ((d & Hd) & Hco' & _); [|exact Hno|exact Hco].
    rewrite (@expand_at_bound st _ _ _ Hno Hd).
    destruct r as [rv|]; [destruct (truthy rv)|]; eexists _, st'; rewrite <- app_assoc;
      (split; [reflexivity|]); now split.
Qed.

Lemma slice_one (pre : str) (c : code_unit) (rest : str) :
  slice (pre ++ c :: rest) (length pre) (S (length pre)) = [c].
Proof.
  unfold slice. rewrite skipn_app, skipn_all, Nat.sub_diag. cbn [app skipn].
  replace (S (length pre) - length pre) with 1 by lia. reflexivity.
Qed.

(** The loop over the matches of a value writes what [render] says. *)
Lemma rewrite_loop_render (v s : str) :
  forall pre skip lv st,
    v = pre ++ s ->
    cache_coherent st -> circular_names_complete st ->
    match skip with
    | O => lastIndex lv <= length pre
    | S _ => lastIndex lv = length pre + skip
    end ->
    exists lv' st',
      rewrite_loop v (scan skip (length pre) s) lv st = Some (lv', st')
      /\ finish v lv'
         = newValue lv
           ++ match skip with
              | O => slice v (lastIndex lv) (length pre)
              | S _ => []
              end
           ++ render (fallback_for st) skip s
      /\ cache_coherent st' /\ resolve_frame st st'.
Proof.
  induction s as [|c s IH]; intros pre skip lv st Hv Hco Hcomplete Hli.
  - cbn [scan rewrite_loop render]. exists lv, st. split; [reflexivity|].
    split; [|split; [exact Hco | apply resolve_frame_refl]].
    rewrite finish_eq, !app_nil_r. rewrite app_nil_r in Hv. subst pre. f_equal.
    destruct skip as [|k].
    + unfold slice. rewrite firstn_all2; [reflexivity|]. rewrite length_skipn. lia.
    + rewrite skipn_all2; [reflexivity | lia].
  - assert (Hv' : v = (pre ++ [c]) ++ s) by (now rewrite <- app_assoc).
    assert (Hlen : length (pre ++ [c]) = S (length pre))
      by (rewrite length_app; simpl; lia).
    destruct skip as [|k]; cbn [scan render].
    + destruct (match_at (c :: s)) as [[[full g1] g2]|] eqn:Em.
      * cbn [rewrite_loop]. unfold bind.
        destruct (@rewrite_step_text v (mkMatch full g1 g2 (length pre)) lv st Hco Hcomplete)
          as (md & st1 & -> & Hco1 & F1).
        cbn [index fullMatch].
        apply match_at_prefix in Em as (rest & _ & Hfull).
        destruct (IH (pre ++ [c]) (length full - 1)
                    (mkLoop (newValue lv ++ slice v (lastIndex lv) (length pre)
                             ++ occurrence_text (fallback_for st)
                                  (mkMatch full g1 g2 (length pre)))
                            (length pre + length full) md) st1 Hv' Hco1
                    (circular_names_complete_frame F1 Hcomplete))
          as (lv' & st' & E & Hfin & Hco' & F').
        { cbn [lastIndex]. rewrite Hlen. destruct (length full - 1) eqn:El; lia. }
        rewrite Hlen in E. exists lv', st'. split; [exact E|].
        split; [|split; [exact Hco' | eapply resolve_frame_trans; eassumption]].
        rewrite Hfin. cbn [newValue lastIndex]. rewrite (fallback_for_frame F1).
        rewrite <- !app_assoc. do 2 f_equal.
        unfold occurrence_text. cbn [group1 fullMatch]. f_equal.
        destruct (length full - 1) eqn:El; [|reflexivity].
        unfold slice. replace (length (pre ++ [c]) - (length pre + length full)) with 0 by lia.
        reflexivity.
      * destruct (IH (pre ++ [c]) 0 lv st Hv' Hco Hcomplete) as (lv' & st' & E & Hfin & Hco' & F').
        { rewrite Hlen. lia. }
        rewrite Hlen in E. exists lv', st'. split; [exact E|].
        split; [|now split]. rewrite Hfin, Hlen. f_equal.
        rewrite <- (@slice_slice v (lastIndex lv) (length pre) (S (length pre))) by lia.
        rewrite <- app_assoc. f_equal. rewrite Hv at 1. now rewrite slice_one.
    + destruct (IH (pre ++ [c]) k lv st Hv' Hco Hcomplete) as (lv' & st' & E & Hfin & Hco' & F').
      { rewrite Hlen. destruct k; lia. }
      rewrite Hlen in E. exists lv', st'. split; [exact E|].
      split; [|now split]. rewrite Hfin. f_equal.
      destruct k as [|k]; [|reflexivity].
      unfold slice. replace (length (pre ++ [c]) - lastIndex lv) with 0 by lia. reflexivity.
Qed.

Lemma rewrite_decl_render (d : decl) (st : state) :
  cache_coherent st -> circular_names_complete st ->
  exists st',
    rewrite_decl d st = Some (rendered (fallback_for st) d, st')
    /\ cache_coherent st' /\ resolve_frame st st'.
Proof.
  intros Hco Hcomplete.
  destruct (@rewrite_loop_render (value d) (value d) [] 0 (mkLoop [] 0 false) st
              eq_refl Hco Hcomplete (Nat.le_refl _))
    as (lv & st' & E & Hfin & Hco' & F).
  destruct (rewrite_decl_returns d st) as (d' & st0 & Ed & _).
  destruct (rewrite_decl_value _ _ Ed) as (lv0 & E0 & Hprop & Hval).
  cbn [length] in E. unfold exec_all in E0. rewrite E in E0. injection E0 as <- <-.
  exists st'. split; [|now split]. rewrite Ed. do 2 f_equal.
  destruct d' as [p w]. cbn [prop value] in Hprop, Hval. unfold rendered.
  rewrite Hprop, Hval, Hfin. reflexivity.
Qed.

Lemma walkDecls_render (r : root) :
  forall st,
    cache_coherent st -> circular_names_complete st ->
    exists st',
      walkDecls r st = Some (map (rendered (fallback_for st)) r, st')
      /\ cache_coherent st' /\ resolve_frame st st'.
Proof.
  induction r as [|d rest IH]; intros st Hco Hcomplete; cbn [walkDecls map].
  - exists st. split; [reflexivity|]. split; [exact Hco | apply resolve_frame_refl].
  - unfold bind, ret.
    destruct (rewrite_decl_render d Hco Hcomplete) as (st1 & -> & Hco1 & F1).
    destruct (IH st1 Hco1 (circular_names_complete_frame F1 Hcomplete))
      as (st' & -> & Hco' & F').
    rewrite (fallback_for_frame F1). exists st'. split; [reflexivity|].
    split; [exact Hco' | eapply resolve_frame_trans; eassumption].
Qed.

(** ** The shape of calls *)

Lemma name_class_fallback_class (s : str) :
  forallb in_name_class s = true -> forallb in_fallback_class s = true.
Proof.
  induction s as [|c s IH]; cbn [forallb]; [easy|].
  intros H. apply andb_true_iff in H as [Hc Hs]. rewrite (IH Hs), andb_true_r.
  unfold in_name_class in Hc. now apply andb_true_iff in Hc as [_ Hc].
Qed.

(** A call is [var(], a text without closing parenthesis that starts
    with a code unit of a name, and [)]. *)
Lemma var_call_shape (f g1 : str) (g2 : option str) :
  var_call f g1 g2 ->
  exists body,
    f = lit "var(" ++ body ++ [RPAREN]
    /\ forallb in_fallback_class body = true
    /\ match body with c :: _ => in_name_class c = true | [] => False end.
Proof.
  intros [name Hne Hall | name fb Hne Hall Hfne Hfall].
  - exists name. split; [reflexivity|]. split; [now apply name_class_fallback_class|].
    destruct name as [|c name]; [contradiction|].
    cbn [forallb] in Hall. now apply andb_true_iff in Hall as [Hc _].
  - exists (name ++ COMMA :: fb). split; [now rewrite <- app_assoc|]. split.
    + rewrite forallb_app. cbn [forallb].
      now rewrite (name_class_fallback_class _ Hall), Hfall.
    + destruct name as [|c name]; [contradiction|].
      cbn [forallb app] in *. now apply andb_true_iff in Hall as [Hc _].
Qed.

Lemma var_call_name (f g1 : str) (g2 : option str) :
  var_call f g1 g2 -> forallb in_name_class g1 = true.
Proof. now intros [name Hne Hall | name fb Hne Hall Hfne Hfall]. Qed.

Lemma first_stop_unique (q : code_unit -> bool) (a : str) :
  forall a' c c' b b',
    forallb q a = true -> forallb q a' = true -> q c = false -> q c' = false ->
    a ++ c :: b = a' ++ c' :: b' -> a = a' /\ c = c' /\ b = b'.
Proof.
  induction a as [|x a IH]; intros [|x' a'] c c' b b' Ha Ha' Hc Hc' H;
    cbn [app forallb] in *.
  - injection H as -> ->. auto.
  - injection H as -> _. apply andb_true_iff in Ha' as [Hx _]. congruence.
  - injection H as -> _. apply andb_true_iff in Ha as [Hx _]. congruence.
  - injection H as -> H. apply andb_true_iff in Ha as [_ Ha].
    apply andb_true_iff in Ha' as [_ Ha'].
    destruct (IH a' c c' b b' Ha Ha' Hc Hc' H) as (-> & -> & ->). auto.
Qed.

(** A match at the head of a text ends at the first closing
    parenthesis of the text. *)
Lemma match_at_upto (a b full g1 : str) (g2 : option str) :
  forallb in_fallback_class a = true ->
  match_at (a ++ RPAREN :: b) = Some (full, g1, g2) ->
  full = a ++ [RPAREN].
Proof.
  intros Ha H. apply match_at_spec in H as [Hcall [rest Hs]].
  destruct (var_call_shape Hcall) as (body & -> & Hbody & _).
  replace ((lit "var(" ++ body ++ [RPAREN]) ++ rest)
    with ((lit "var(" ++ body) ++ RPAREN :: rest) in Hs
    by (now rewrite <- !app_assoc).
  apply first_stop_unique with (q := in_fallback_class) in Hs as (-> & _ & _);
    try reflexivity; [exact Ha|].
  rewrite forallb_app, Hbody. reflexivity.
Qed.

Lemma match_at_none_iff (a b : str) :
  forallb in_fallback_class a = true ->
  match_at (a ++ RPAREN :: b) = None
  <-> forall g1 g2, ~ var_call (a ++ [RPAREN]) g1 g2.
Proof.
  intros Ha. split.
  - intros Hn g1 g2 Hcall.
    assert (E : match_at (a ++ RPAREN :: b) = Some (a ++ [RPAREN], g1, g2)).
    { apply match_at_spec. split; [exact Hcall|]. exists b. now rewrite <- app_assoc. }
    congruence.
  - intros Hno. destruct (match_at (a ++ RPAREN :: b)) as [[[full g1] g2]|] eqn:E;
      [|reflexivity].
    pose proof (@match_at_upto _ _ _ _ _ Ha E) as ->.
    apply match_at_spec in E as [Hcall _]. exfalso. eapply Hno. exact Hcall.
Qed.

(** What stands before a call, when the whole is a call again. *)
Lemma call_gap (g o o1 a1 : str) (o2 a2 : option str) :
  g <> [] -> var_call o o1 o2 -> var_call (g ++ o) a1 a2 -> opens_call g.
Proof.
  intros Hg Ho Ha.
  destruct (var_call_shape Ho) as (bo & Eo & _ & _).
  destruct (var_call_shape Ha) as (B & E & HB & Hhead).
  rewrite Eo in E.
  destruct g as [|c0 [|c1 [|c2 [|c3 g']]]]; [contradiction| | | |];
    vm_compute (lit "var(") in E; cbn [app] in E; try (injection E; discriminate).
  injection E as -> -> -> -> E.
  assert (EB : B = g' ++ 118%N :: 97%N :: 114%N :: 40%N :: bo).
  { apply app_inv_tail with (l := [RPAREN]). rewrite <- E, <- app_assoc. reflexivity. }
  subst B. exists g'. split; [reflexivity|].
  rewrite forallb_app in HB. apply andb_true_iff in HB as [HB _]. split; [exact HB|].
  destruct g' as [|c g']; [exact I|]. cbn [app] in Hhead. now intros ->.
Qed.

(** After such a text, every call completes a call. *)
Lemma gap_call (g f f1 : str) (f2 : option str) :
  opens_call g -> var_call f f1 f2 -> exists b1 b2, var_call (g ++ f) b1 b2.
Proof.
  intros (g' & -> & Hg' & Hhead) Hf.
  destruct (span in_name_class g') as [a b] eqn:Es.
  apply span_spec in Es as (-> & Ha & Hb).
  destruct b as [|c b].
  - rewrite app_nil_r in *.
    destruct Hf as [name Hne Hall | name fb Hne Hall Hfne Hfall].
    + exists (a ++ lit "var(" ++ name), None.
      replace ((lit "var(" ++ a) ++ lit "var(" ++ name ++ [RPAREN])
        with (lit "var(" ++ (a ++ lit "var(" ++ name) ++ [RPAREN])
        by (now rewrite <- !app_assoc).
      apply call_plain; [now destruct a|].
      rewrite !forallb_app, Ha, Hall. reflexivity.
    + exists (a ++ lit "var(" ++ name), (Some fb).
      replace ((lit "var(" ++ a) ++ lit "var(" ++ name ++ COMMA :: fb ++ [RPAREN])
        with (lit "var(" ++ (a ++ lit "var(" ++ name) ++ COMMA :: fb ++ [RPAREN])
        by (now rewrite <- !app_assoc).
      apply call_fallback; [now destruct a| |assumption|assumption].
      rewrite !forallb_app, Ha, Hall. reflexivity.
  - rewrite forallb_app in Hg'. apply andb_true_iff in Hg' as [_ Hcb].
    cbn [forallb] in Hcb. apply andb_true_iff in Hcb as [Hc Hb'].
    assert (c = COMMA) as ->.
    { unfold in_name_class in Hb. unfold in_fallback_class in Hc. rewrite Hc in Hb.
      rewrite andb_true_r in Hb. now apply negb_false_iff, N.eqb_eq in Hb. }
    destruct (var_call_shape Hf) as (bf & -> & Hbf & _).
    exists a, (Some (b ++ lit "var(" ++ bf)).
    replace ((lit "var(" ++ a ++ COMMA :: b) ++ lit "var(" ++ bf ++ [RPAREN])
      with (lit "var(" ++ a ++ COMMA :: (b ++ lit "var(" ++ bf) ++ [RPAREN])
      by (rewrite <- !app_assoc; cbn [app]; now rewrite <- ?app_assoc).
    apply call_fallback.
    + destruct a as [|x a]; [|discriminate]. now cbn [app] in Hhead.
    + exact Ha.
    + now destruct b.
    + rewrite !forallb_app, Hb', Hbf. reflexivity.
Qed.

(** Where the text had no match at its head, the text with calls
    replaced by calls has none. *)
Lemma no_call_after_replacement (x x' : str) :
  calls_replaced x x' ->
  forall g, g <> [] -> match_at (g ++ x) = None -> match_at (g ++ x') = None.
Proof.
  induction 1 as [|c s s' Hr IH|f o f1 o1 f2 o2 s s' Hf Ho Hr IH]; intros g Hg Hn.
  - exact Hn.
  - replace (g ++ c :: s') with ((g ++ [c]) ++ s') by (now rewrite <- app_assoc).
    apply IH; [now destruct g | now rewrite <- app_assoc].
  - destruct (span in_fallback_class g) as [a b] eqn:Es.
    apply span_spec in Es as (-> & Ha & Hb).
    destruct b as [|c b].
    + rewrite app_nil_r in *.
      assert (Hsplit : forall t t1 t2 rest,
                 var_call t t1 t2 ->
                 exists bt,
                   forallb in_fallback_class (a ++ lit "var(" ++ bt) = true
                   /\ a ++ t ++ rest = (a ++ lit "var(" ++ bt) ++ RPAREN :: rest
                   /\ a ++ t = (a ++ lit "var(" ++ bt) ++ [RPAREN]).
      { intros t t1 t2 rest Ht. destruct (var_call_shape Ht) as (bt & -> & Hbt & _).
        exists bt. split; [rewrite !forallb_app, Ha, Hbt; reflexivity|].
        split; now rewrite <- !app_assoc. }
      destruct (Hsplit f f1 f2 s Hf) as (bf & Hcf & Ef & Ef').
      destruct (Hsplit o o1 o2 s' Ho) as (bo & Hco & Eo & Eo').
      rewrite Ef in Hn. rewrite Eo.
      pose proof (proj1 (@match_at_none_iff _ _ Hcf) Hn) as Hno. apply (proj2 (@match_at_none_iff _ _ Hco)).
      intros g1 g2 Hcall. rewrite <- Eo' in Hcall.
      destruct (gap_call (call_gap Hg Ho Hcall) Hf) as (b1 & b2 & Hcall').
      rewrite Ef' in Hcall'. eapply Hno. exact Hcall'.
    + assert (c = RPAREN) as ->
        by (unfold in_fallback_class in Hb; now apply negb_false_iff, N.eqb_eq in Hb).
      rewrite <- app_assoc in *. cbn [app] in *.
      pose proof (proj1 (@match_at_none_iff _ _ Ha) Hn) as Hno. now apply (proj2 (@match_at_none_iff _ _ Ha)).
Qed.

(** ** Writing a written value anew *)

Lemma render_skip_app (rewritten : str -> option str) (a X : str) :
  render rewritten (length a) (a ++ X) = render rewritten 0 X.
Proof.
  induction a as [|c a IH]; [reflexivity|]. cbn [length app render]. exact IH.
Qed.

Lemma render_call (rewritten : str -> option str) (o o1 : str) (o2 : option str)
    (X : str) :
  var_call o o1 o2 ->
  render rewritten 0 (o ++ X)
  = occurrence_text rewritten (mkMatch o o1 o2 0) ++ render rewritten 0 X.
Proof.
  intros Ho.
  assert (Hm : match_at (o ++ X) = Some (o, o1, o2))
    by (apply match_at_spec; split; [exact Ho | now exists X]).
  destruct o as [|c o'].
  { destruct (var_call_shape Ho) as (body & E & _). discriminate E. }
  cbn [app] in Hm. cbn [app render]. rewrite Hm. f_equal.
  cbn [length]. rewrite Nat.sub_succ, Nat.sub_0_r. apply render_skip_app.
Qed.

(** What is written for a call is a call, for which the same is written
    again. *)
Lemma occurrence_text_call (rewritten : str -> option str) (f g1 : str)
    (g2 : option str) (i : nat) :
  closes_no_call rewritten ->
  var_call f g1 g2 ->
  exists o1 o2,
    var_call (occurrence_text rewritten (mkMatch f g1 g2 i)) o1 o2
    /\ occurrence_text rewritten
         (mkMatch (occurrence_text rewritten (mkMatch f g1 g2 i)) o1 o2 0)
       = occurrence_text rewritten (mkMatch f g1 g2 i).
Proof.
  intros Hwf Hf. unfold occurrence_text at 1 3 4. cbn [group1 fullMatch].
  destruct (rewritten (trim g1)) as [resolved|] eqn:E.
  - destruct (Hwf _ _ E) as [Hne Hres].
    exists (trim g1), (Some (32%N :: resolved)). split.
    + apply (call_fallback (name := trim g1) (fb := 32%N :: resolved)).
      * exact Hne.
      * apply trim_forallb. eapply var_call_name. exact Hf.
      * discriminate.
      * cbn [forallb]. now rewrite Hres.
    + unfold occurrence_text. cbn [group1 fullMatch]. now rewrite trim_idempotent, E.
  - exists g1, g2. split; [exact Hf|].
    unfold occurrence_text. cbn [group1 fullMatch]. now rewrite E.
Qed.

Lemma render_replaces (rewritten : str -> option str) (s : str) :
  closes_no_call rewritten ->
  forall skip, calls_replaced (skipn skip s) (render rewritten skip s).
Proof.
  intros Hwf. induction s as [|c s IH]; intros skip.
  - rewrite skipn_nil. constructor.
  - destruct skip as [|k]; cbn [render skipn]; [|apply IH].
    destruct (match_at (c :: s)) as [[[full g1] g2]|] eqn:Em.
    + apply match_at_spec in Em as [Hcall [rest Hs]].
      destruct (occurrence_text_call 0 Hwf Hcall) as (o1 & o2 & Ho & _).
      destruct full as [|c' full'].
      { destruct (var_call_shape Hcall) as (body & E & _). discriminate E. }
      cbn [app] in Hs. injection Hs as <- ->. cbn [length].
      rewrite Nat.sub_succ, Nat.sub_0_r.
      change (c :: full' ++ rest) with ((c :: full') ++ rest).
      eapply replaced_call; [exact Hcall | exact Ho |].
      specialize (IH (length full')). rewrite skipn_app, skipn_all, Nat.sub_diag in IH.
      exact IH.
    + constructor. apply (IH 0).
Qed.

Lemma render_idempotent (rewritten : str -> option str) (s : str) :
  closes_no_call rewritten ->
  forall skip,
    render rewritten 0 (render rewritten skip s) = render rewritten skip s.
Proof.
  intros Hwf. induction s as [|c s IH]; intros skip; [reflexivity|].
  destruct skip as [|k]; cbn [render]; [|apply IH].
  destruct (match_at (c :: s)) as [[[full g1] g2]|] eqn:Em.
  - apply match_at_spec in Em as [Hcall _].
    destruct (occurrence_text_call 0 Hwf Hcall) as (o1 & o2 & Ho & Hsame).
    rewrite (render_call rewritten _ Ho), Hsame, IH. reflexivity.
  - assert (Hn : match_at (c :: render rewritten 0 s) = None).
    { apply (@no_call_after_replacement s (render rewritten 0 s)) with (g := [c]);
        [apply (render_replaces s Hwf 0) | discriminate | exact Em]. }
    cbn [render]. rewrite Hn, IH. reflexivity.
Qed.

Lemma rendered_idempotent (rewritten : str -> option str) (r : root) :
  closes_no_call rewritten ->
  map (rendered rewritten) (map (rendered rewritten) r) = map (rendered rewritten) r.
Proof.
  intros Hwf. rewrite map_map. apply map_ext. intros d. unfold rendered.
  cbn [prop value]. now rewrite render_idempotent.
Qed.

(** ** A run renders every value with one table of fallbacks *)

Lemma configured_value_custom (e : env) (fallbacks : list str) (k v : str) :
  configured_value e fallbacks k = Some v -> startsWith k (lit "--") = true.
Proof.
  induction fallbacks as [|p rest IH]; cbn [configured_value]; [discriminate|].
  destruct (configured_value e rest k) as [v'|]; [exact IH|].
  unfold source_value. destruct (read_parse e _) as [r|message]; [|discriminate].
  apply last_declared_custom.
Qed.

Lemma merged_names_not_empty (e : env) (fallbacks : list str) (st : state)
    (n v : str) :
  JsMap.get (variableMap (load_fallbacks e fallbacks (cleared st))) n = Some v ->
  n <> [].
Proof.
  destruct (@load_fallbacks_agrees e fallbacks (cleared st) (@cleared_cache_agrees e st))
    as (_ & Hget & _).
  rewrite Hget. destruct (configured_value e fallbacks n) as [v'|] eqn:E; [|discriminate].
  intros _ ->. apply configured_value_custom in E. discriminate E.
Qed.

Lemma fallback_for_closes_no_call (st : state) :
  (forall n v, JsMap.get (variableMap st) n = Some v -> n <> []) ->
  (forall n depth resolved,
     expand depth (variableMap st) n = Some (Some resolved) ->
     forallb in_fallback_class resolved = true) ->
  closes_no_call (fallback_for st).
Proof.
  intros Hkeys Hexp n resolved. unfold fallback_for.
  destruct (JsSet.has (circularRefs st) n); [discriminate|].
  destruct (expand (depth_bound st) (variableMap st) n) as [[rv|]|] eqn:E;
    try discriminate.
  destruct (truthy rv); [|discriminate]. intros H. injection H as ->. split.
  - unfold depth_bound in E. cbn [expand] in E.
    destruct (JsMap.get (variableMap st) n) as [v|] eqn:Hget; [|discriminate].
    eapply Hkeys. exact Hget.
  - eapply Hexp. exact E.
Qed.

(** After the detection, the rewriting of a document is the rendering
    of each value with the fallbacks of the store the detection left. *)
Lemma process_render (e : env) (fallbacks : list str) (st : state) :
  exists st3,
    variableMap st3 = variableMap (load_fallbacks e fallbacks (cleared st))
    /\ (forall n, In n (circularRefs st3) <->
                  In n (JsMap.keys (variableMap st3))
                  /\ leads_to_cycle (variableMap st3) n)
    /\ forall r, exists st',
         process e fallbacks r st = Some (map (rendered (fallback_for st3)) r, st').
Proof.
  set (loaded := load_fallbacks e fallbacks (cleared st)).
  destruct (detect_all_outcome (JsMap.keys (variableMap loaded))
              (set_circularRefs JsSet.empty loaded))
    as (st3 & Edet & Hmap & _ & Hcomplete & Hsound).
  pose proof (detect_all_frame _ _ Edet) as (_ & Hcache & _).
  change (variableMap (set_circularRefs JsSet.empty loaded)) with (variableMap loaded)
    in Hmap, Hcomplete, Hsound.
  change (variableCache (set_circularRefs JsSet.empty loaded)) with (variableCache loaded)
    in Hcache.
  unfold loaded in Hcache. rewrite load_fallbacks_variableCache in Hcache.
  cbn [cleared variableCache set_variableMap set_variableCache] in Hcache.
  exists st3. split; [exact Hmap|]. split.
  - intros n. rewrite Hmap. split.
    + intros Hn. apply Hsound in Hn as [[] | Hn]. exact Hn.
    + intros [Hk Hl]. now apply Hcomplete.
  - intros r.
    assert (Hco : cache_coherent st3) by (intros n c H; rewrite Hcache in H; discriminate).
    assert (Hcc : circular_names_complete st3)
      by (intros n Hk Hl; rewrite Hmap in Hk, Hl; now apply Hcomplete).
    destruct (walkDecls_render r Hco Hcc) as (st' & E & _).
    exists st'. unfold process, bind. fold loaded.
    change (variableMap (set_circularRefs JsSet.empty loaded)) with (variableMap loaded).
    rewrite Edet. exact E.
Qed.

(** X21.  A run rewrites a document value by value with one table of
    fallbacks: the table gives a name the expansion of its value when
    that expansion is not empty and the name neither is on a cycle nor
    leads to one, and nothing otherwise; in every value the text outside
    the matches is kept, a match whose name has a fallback in the table
    becomes [var(name, fallback)], and any other match is kept.  So what
    a declaration becomes depends on its value and on the sources only,
    not on the other declarations, their order or what the cache holds. *)
Theorem document_is_rewritten_value_by_value (e : env) (fallbacks : list str)
    (st : state) :
  exists rewritten,
    (forall n resolved,
       rewritten n = Some resolved <->
       resolved <> []
       /\ ~ leads_to_cycle (variableMap (load_fallbacks e fallbacks (cleared st))) n
       /\ exists depth,
            expand depth (variableMap (load_fallbacks e fallbacks (cleared st))) n
            = Some (Some resolved))
    /\ forall r, exists st',
         process e fallbacks r st = Some (map (rendered rewritten) r, st').
Proof.
  destruct (process_render e fallbacks st) as (st3 & Hmap & Hcirc & Hall).
  exists (fallback_for st3). split; [|exact Hall].
  intros n resolved. rewrite <- Hmap. unfold fallback_for. split.
  - destruct (JsSet.has (circularRefs st3) n) eqn:Hhas; [discriminate|].
    destruct (expand (depth_bound st3) (variableMap st3) n) as [[rv|]|] eqn:E;
      try discriminate.
    destruct rv as [|c rv]; [discriminate|]. cbn [truthy].
    intros H. injection H as <-. split; [discriminate|]. split; [|now exists (depth_bound st3)].
    intros Hl. apply set_has_not_In in Hhas. apply Hhas, Hcirc. split; [|exact Hl].
    unfold depth_bound in E. cbn [expand] in E.
    destruct (JsMap.get (variableMap st3) n) as [v|] eqn:Hget; [|discriminate].
    eapply map_get_In_keys. exact Hget.
  - intros (Hne & Hl & depth & Hd).
    destruct (JsSet.has (circularRefs st3) n) eqn:Hhas.
    { apply set_has_In, Hcirc in Hhas as [_ Hl']. contradiction. }
    rewrite (@expand_at_bound st3 n (Some resolved) depth); [|
      intros chain hit Hdesc; apply Hl, descent_iff_leads_to_cycle;
      now exists chain, hit | exact Hd].
    destruct resolved; [contradiction | reflexivity].
Qed.

(** X22.  Counterpart of the behaviour shown for [rgba(0,0,0,.5)]: when
    no expansion of a name of the merged mapping holds a closing
    parenthesis, a second run with the same configuration on the output
    of the first, with the caches the first run left, returns that
    output unchanged. *)
Theorem rerun_without_parenthesis_changes_nothing (e : env) (fallbacks : list str)
    (r r1 : root) (files : JsMap.t root) (variables : JsMap.t str) (st1 : state) :
  (forall n depth resolved,
     expand depth (merged_mapping e fallbacks) n = Some (Some resolved) ->
     forallb in_fallback_class resolved = true) ->
  run e (JsArray fallbacks) r files variables = Some (r1, st1) ->
  exists st2,
    run e (JsArray fallbacks) r1 (fileCache st1) (variableCache st1) = Some (r1, st2).
Proof.
  intros Hexp. unfold run, Once, fallbacks_of, as_array.
  destruct (length fallbacks =? 0).
  { intros H. injection H as <- _. now eexists. }
  rewrite process_fresh_store. rewrite (process_fresh_store e fallbacks r1).
  cbn [warnings initial_state].
  destruct (process_render e fallbacks (mkState [] [] [] [] [])) as (st3 & Hmap & _ & Hall).
  destruct (Hall r) as [st' E]. rewrite E. intros H. injection H as <- _.
  destruct (Hall (map (rendered (fallback_for st3)) r)) as [st2 E2].
  exists st2. rewrite E2, rendered_idempotent; [reflexivity|].
  apply fallback_for_closes_no_call; rewrite Hmap.
  - intros n v. apply merged_names_not_empty.
  - exact Hexp.
Qed.

Lemma rerun_without_parenthesis_changes_nothing_witness :
  exists st1 st2,
    run (env_of [("vars.css"%string, size_pad_sheet)]) (JsArray [lit "vars.css"])
      [decl_of "padding" "var(--pad)"] [] []
    = Some ([decl_of "padding" "var(--pad, 16px)"], st1)
    /\ run (env_of [("vars.css"%string, size_pad_sheet)]) (JsArray [lit "vars.css"])
         [decl_of "padding" "var(--pad, 16px)"] (fileCache st1) (variableCache st1)
       = Some ([decl_of "padding" "var(--pad, 16px)"], st2).
Proof.
  destruct (run (env_of [("vars.css"%string, size_pad_sheet)]) (JsArray [lit "vars.css"])
              [decl_of "padding" "var(--pad)"] [] []) as [[r1 st1]|] eqn:E;
    [|vm_compute in E; discriminate].
  assert (r1 = [decl_of "padding" "var(--pad, 16px)"]) as ->
    by (vm_compute in E; now injection E as <- _).
  destruct (@rerun_without_parenthesis_changes_nothing
              (env_of [("vars.css"%string, size_pad_sheet)]) [lit "vars.css"]
              [decl_of "padding" "var(--pad)"] [decl_of "padding" "var(--pad, 16px)"]
              [] [] st1) as [st2 E2]; [|exact E|now exists st1, st2].
  intros n depth resolved H.
  assert (Hvm : merged_mapping (env_of [("vars.css"%string, size_pad_sheet)])
                  [lit "vars.css"]
                = [(lit "--size", lit "16px"); (lit "--pad", lit "var(--size)")])
    by (vm_compute; reflexivity).
  rewrite Hvm in H. destruct depth as [|depth]; [discriminate|].
  cbn [expand JsMap.get] in H.
  destruct (str_eqb (lit "--size") n).
  - vm_compute in H. now injection H as <-.
  - destruct (str_eqb (lit "--pad") n); [|discriminate].
    destruct depth as [|depth]; vm_compute in H; [discriminate|].
    now injection H as <-.
Defined.
